(** * Tool-call extraction of the MCP browser extension

    A shallow embedding of the TypeScript sources that detect tool calls in
    the text of a chat page:

    - [content/tool-parser.ts] (class [ToolCallParser]),
    - [parsers/jsonFunctionParser.ts] and [parsers/functionParser.ts],
    - [ChatGPTMCPExtension.scanForToolCalls] of [content/index.ts].

    A JavaScript string is the list of its UTF-16 code units.  Regular
    expressions are kept as syntax trees and run by a backtracking matcher
    that follows the ECMAScript rules for the operators the sources use.
    [JSON.parse] is a recursive-descent parser of the JSON grammar; its
    numbers are IEEE 754 doubles. An object that the code fills by
    assignments has its own properties, in the order of enumeration of
    JavaScript, and its prototype. Exceptions are explicit: a computation
    that may throw returns an [outcome]. *)

From Stdlib Require Import String Ascii.
From Stdlib Require Floats.SpecFloat.
From stdpp Require Import base numbers list option gmap.

Local Open Scope N_scope.

(** ** Strings *)

Definition char := N.
Definition str := list char.

Definition DQUOTE : char := 34.
Definition LF : char := 10.

(** Source text is written with [js]; since the texts of this file are
    full of double quotes, the dollar sign stands for the double quote
    (code unit 34) in these literals. The sources never use a dollar sign
    as a character of a string or of a pattern. *)
Definition js_char (a : ascii) : char :=
  let n := N_of_ascii a in if N.eqb n 36 then DQUOTE else n.

Fixpoint js (s : string) : str :=
  match s with
  | EmptyString => []
  | String a s' => js_char a :: js s'
  end.
Arguments js _%_string : simpl never.

Definition char_eqb : char -> char -> bool := N.eqb.

Fixpoint str_eqb (a b : str) : bool :=
  match a, b with
  | [], [] => true
  | x :: a', y :: b' => char_eqb x y && str_eqb a' b'
  | _, _ => false
  end.

(** [WhiteSpace] and [LineTerminator] of ECMAScript: what [\s] matches and
    what [String.prototype.trim] removes. *)
Definition is_space (c : char) : bool :=
  (N.leb 9 c && N.leb c 13) || N.eqb c 32 || N.eqb c 160 || N.eqb c 5760
  || (N.leb 8192 c && N.leb c 8202) || N.eqb c 8232 || N.eqb c 8233
  || N.eqb c 8239 || N.eqb c 8287 || N.eqb c 12288 || N.eqb c 65279.

Definition is_line_terminator (c : char) : bool :=
  N.eqb c 10 || N.eqb c 13 || N.eqb c 8232 || N.eqb c 8233.

Definition is_digit (c : char) : bool := N.leb 48 c && N.leb c 57.

Definition is_word (c : char) : bool :=
  is_digit c || (N.leb 65 c && N.leb c 90) || (N.leb 97 c && N.leb c 122)
  || N.eqb c 95.

Fixpoint trimStart (s : str) : str :=
  match s with
  | c :: s' => if is_space c then trimStart s' else s
  | [] => []
  end.

Definition trimEnd (s : str) : str := rev (trimStart (rev s)).

Definition trim (s : str) : str := trimEnd (trimStart s).

Fixpoint startsWith (s p : str) : bool :=
  match p, s with
  | [], _ => true
  | x :: p', y :: s' => char_eqb x y && startsWith s' p'
  | _ :: _, [] => false
  end.

Definition endsWith (s p : str) : bool := startsWith (rev s) (rev p).

Fixpoint includes (s p : str) : bool :=
  startsWith s p ||
  match s with
  | [] => false
  | _ :: s' => includes s' p
  end.

(** [s.split(sep)] for a separator of one code unit. *)
Fixpoint split_on (sep : char) (s : str) : list str :=
  match s with
  | [] => [[]]
  | c :: s' =>
      if char_eqb c sep then [] :: split_on sep s'
      else match split_on sep s' with
           | l :: ls => (c :: l) :: ls
           | [] => [[c]]
           end
  end.

Definition split_lines (s : str) : list str := split_on LF s.

Fixpoint join (sep : str) (l : list str) : str :=
  match l with
  | [] => []
  | [a] => a
  | a :: l' => a ++ sep ++ join sep l'
  end.

(** Falsy strings are the empty ones: [s || d]. *)
Definition str_or (s d : str) : str :=
  match s with [] => d | _ => s end.

(** Decimal digits of a natural number, as the template literals and
    [Number.prototype.toString] print an integer. *)
Fixpoint digits_fuel (fuel : nat) (n : N) (acc : str) : str :=
  match fuel with
  | O => acc
  | S f =>
      let acc' := (48 + n mod 10) :: acc in
      if N.ltb n 10 then acc' else digits_fuel f (n / 10) acc'
  end.

Definition N_to_str (n : N) : str := digits_fuel (S (N.to_nat (N.log2 n))) n [].

(** ** Regular expressions

    The patterns of the sources use literals, character classes, sequence,
    alternation, greedy and lazy repetition, capture groups and the two
    anchors (none of them has the [m] flag). A character node holds the
    predicate of its class; a literal under the [i] flag is built with
    [chr_i], which compares after folding the ASCII letters (without the
    [u] flag a code unit above 127 never folds to an ASCII letter). *)

Inductive re :=
| Eps
| Chr (p : char -> bool)
| Seq (a b : re)
| Alt (a b : re)
| Star (greedy : bool) (a : re)
| Group (i : nat) (a : re)
| Bol
| Eol.

Definition fold_case (c : char) : char :=
  if N.leb 97 c && N.leb c 122 then c - 32 else c.

Definition chr (c : char) : re := Chr (char_eqb c).
Definition chr_i (c : char) : re := Chr (fun x => char_eqb (fold_case x) (fold_case c)).
Definition not_chr (c : char) : re := Chr (fun x => negb (char_eqb x c)).
Definition any_char : re := Chr (fun _ => true).        (* [\s\S] *)
Definition dot : re := Chr (fun x => negb (is_line_terminator x)).
Definition ws : re := Chr is_space.                     (* \s *)
Definition digit : re := Chr is_digit.                  (* \d *)
Definition word : re := Chr is_word.                    (* \w *)

Fixpoint seq (l : list re) : re :=
  match l with
  | [] => Eps
  | [a] => a
  | a :: l' => Seq a (seq l')
  end.

Fixpoint alt (l : list re) : re :=
  match l with
  | [] => Eps
  | [a] => a
  | a :: l' => Alt a (alt l')
  end.

Definition lit (s : str) : re := seq (map chr s).
Definition lit_i (s : str) : re := seq (map chr_i s).
Definition star (a : re) : re := Star true a.
Definition star_lazy (a : re) : re := Star false a.
Definition plus (a : re) : re := Seq a (Star true a).
Definition opt (a : re) : re := Alt a Eps.

Definition caps := list (option str).

Fixpoint set_cap (i : nat) (v : option str) (c : caps) : caps :=
  match i, c with
  | O, _ :: c' => v :: c'
  | O, [] => [v]
  | S i', x :: c' => x :: set_cap i' v c'
  | S i', [] => None :: set_cap i' v []
  end.

(** [rmatch n r k s c] runs [r] on the suffix [s] of an input of length
    [n], then the continuation [k]; alternatives are tried in the order of
    the ECMAScript matcher, and an iteration of a repetition that consumes
    nothing is rejected. *)
Fixpoint rmatch (n : nat) (r : re) (k : str -> caps -> option (str * caps))
    (s : str) (c : caps) {struct r} : option (str * caps) :=
  match r with
  | Eps => k s c
  | Chr p =>
      match s with
      | x :: s' => if p x then k s' c else None
      | [] => None
      end
  | Seq a b => rmatch n a (fun s' c' => rmatch n b k s' c') s c
  | Alt a b =>
      match rmatch n a k s c with
      | Some x => Some x
      | None => rmatch n b k s c
      end
  | Star greedy a =>
      (fix loop (fuel : nat) (s : str) (c : caps) {struct fuel} :=
         match fuel with
         | O => k s c
         | S f =>
             let again (_ : unit) :=
               rmatch n a
                 (fun s' c' =>
                    if Nat.ltb (length s') (length s) then loop f s' c'
                    else None) s c in
             if greedy then
               match again () with Some x => Some x | None => k s c end
             else
               match k s c with Some x => Some x | None => again () end
         end) (length s) s c
  | Group i a =>
      rmatch n a
        (fun s' c' =>
           k s' (set_cap i (Some (take (length s - length s') s)) c')) s c
  | Bol => if Nat.eqb (length s) n then k s c else None
  | Eol => match s with [] => k s c | _ => None end
  end.

(** One match: where it starts and ends in the input, the matched text and
    the captures ([m[0]], [m[1]], ...). *)
Record rmatch_result := {
  m_index : nat;
  m_end : nat;
  m_text : str;
  m_caps : caps
}.

Definition match_at (n : nat) (r : re) (pos : nat) (s : str) : option rmatch_result :=
  match rmatch n r (fun s' c' => Some (s', c')) s [] with
  | Some (rest, c) =>
      let len := (length s - length rest)%nat in
      Some {| m_index := pos; m_end := (pos + len)%nat;
              m_text := take len s; m_caps := c |}
  | None => None
  end.

(** The leftmost match at or after the position of the suffix [s]. *)
Fixpoint search (n : nat) (r : re) (pos : nat) (s : str) : option rmatch_result :=
  match match_at n r pos s with
  | Some m => Some m
  | None =>
      match s with
      | [] => None
      | _ :: s' => search n r (S pos) s'
      end
  end.

(** [r.exec(s)] of a fresh pattern, also [s.match(r)] without the [g] flag. *)
Definition exec (r : re) (s : str) : option rmatch_result :=
  search (length s) r 0 s.

Definition test (r : re) (s : str) : bool :=
  match exec r s with Some _ => true | None => false end.

(** [m[i]] with [undefined] read as the empty string (every use in the
    sources either knows the group took part or tests it with [||]). *)
Definition group (m : rmatch_result) (i : nat) : str :=
  match m_caps m !! i with
  | Some (Some g) => g
  | _ => []
  end.

(** All the matches of a pattern with the [g] flag, from position 0:
    [s.matchAll(r)], and the loop [while ((m = r.exec(s)) !== null)].
    After an empty match the search resumes one code unit further. *)
Fixpoint matchAll_from (fuel : nat) (n : nat) (r : re) (pos : nat) (s : str)
  : list rmatch_result :=
  match fuel with
  | O => []
  | S f =>
      match search n r pos s with
      | None => []
      | Some m =>
          let next := if Nat.eqb (m_end m) (m_index m) then S (m_end m) else m_end m in
          m :: (if Nat.ltb (length s + pos) next then []
                else matchAll_from f n r next (drop (next - pos) s))
      end
  end.

Definition matchAll (r : re) (s : str) : list rmatch_result :=
  matchAll_from (S (length s)) (length s) r 0 s.

(** [s.replace(r, by)] for a pattern without the [g] flag. *)
Definition replace_first (r : re) (by_ : str) (s : str) : str :=
  match exec r s with
  | Some m => take (m_index m) s ++ by_ ++ drop (m_end m) s
  | None => s
  end.

(** [s.replace(r, by)] for a pattern with the [g] flag. *)
Fixpoint splice_all (ms : list rmatch_result) (by_ : str) (pos : nat) (s : str) : str :=
  match ms with
  | [] => s
  | m :: ms' =>
      take (m_index m - pos) s ++ by_
        ++ splice_all ms' by_ (m_end m) (drop (m_end m - pos) s)
  end.

Definition replace_all (r : re) (by_ : str) (s : str) : str :=
  splice_all (matchAll r s) by_ 0 s.

(** [s.split(r)] for a pattern without captures that matches no empty
    text: the pieces between the successive leftmost matches. *)
Fixpoint pieces (ms : list rmatch_result) (pos : nat) (s : str) : list str :=
  match ms with
  | [] => [s]
  | m :: ms' =>
      take (m_index m - pos) s :: pieces ms' (m_end m) (drop (m_end m - pos) s)
  end.

Definition split_re (r : re) (s : str) : list str := pieces (matchAll r s) 0 s.

(** ** Exceptions *)

Inductive exn := SyntaxError | TypeError.

Inductive outcome (A : Type) :=
| Returns (a : A)
| Throws (e : exn).
Arguments Returns {A} a.
Arguments Throws {A} e.

Definition obind {A B} (x : outcome A) (k : A -> outcome B) : outcome B :=
  match x with
  | Returns a => k a
  | Throws e => Throws e
  end.

(** [try { body } catch (e) { handler }] *)
Definition try_catch {A} (body : outcome A) (handler : exn -> outcome A) : outcome A :=
  match body with
  | Returns a => Returns a
  | Throws e => handler e
  end.

Notation "'let*' x ':=' c 'in' k" := (obind c (fun x => k))
  (at level 10, x pattern, c at level 100, k at level 200).

(** ** JSON values

    What [JSON.parse] returns. A number is an IEEE 754 double, in the
    representation of the Standard Library ([SpecFloat], with 53 bits of
    precision): the double nearest to the literal, with the sign of a
    zero, and an infinity for a literal that is too large. An object is
    the list of its own properties in the order in which JavaScript
    enumerates them: the keys that are array indices first, in ascending
    order, then the other keys in the order of their creation; each key
    once. *)

Definition number := SpecFloat.spec_float.

(** The double nearest to [m * 10 ^ e] (ties to even), negated when [neg]
    is set; [m] is not negative. *)
Definition to_double (neg : bool) (m : Z) (e : Z) : number :=
  match m with
  | Zpos p =>
      if Z.leb 0 e then
        SpecFloat.binary_normalize 53 1024
          (if neg then (- (m * 10 ^ e))%Z else (m * 10 ^ e)%Z) 0 neg
      else
        SpecFloat.SFdiv 53 1024
          (SpecFloat.S754_finite neg p 0)
          (SpecFloat.S754_finite false (Z.to_pos (10 ^ (- e))%Z) 0)
  | _ => SpecFloat.S754_zero neg
  end.

#[warnings="-register-all"]
Inductive value :=
| JNull
| JBool (b : bool)
| JNumber (n : number)
| JString (s : str)
| JArray (l : list value)
| JObject (props : list (str * value)).

Definition record := list (str * value).

Fixpoint record_get (r : record) (k : str) : option value :=
  match r with
  | [] => None
  | (k', v) :: r' => if str_eqb k' k then Some v else record_get r' k
  end.

Definition hasOwnProperty (r : record) (k : str) : bool :=
  match record_get r k with Some _ => true | None => false end.

(** The array index that a key denotes, if it denotes one: the key is the
    decimal text, without a leading zero, of an integer from 0 to
    2^32 - 2. *)
Definition array_index (k : str) : option N :=
  match k with
  | [] => None
  | d :: k' =>
      if forallb is_digit k
         && (negb (N.eqb d 48) || match k' with [] => true | _ => false end) then
        let n := fold_left (fun acc c => acc * 10 + (c - 48)) k 0 in
        if N.leb n 4294967294 then Some n else None
      else None
  end.

(** A new key [k] is enumerated before the key [k'] that is there. *)
Definition enumerated_before (k k' : str) : bool :=
  match array_index k, array_index k' with
  | Some a, Some b => N.ltb a b
  | Some _, None => true
  | None, _ => false
  end.

Fixpoint record_update (r : record) (k : str) (v : value) : record :=
  match r with
  | [] => []
  | (k', v') :: r' =>
      if str_eqb k' k then (k', v) :: r' else (k', v') :: record_update r' k v
  end.

Fixpoint record_insert (r : record) (k : str) (v : value) : record :=
  match r with
  | [] => [(k, v)]
  | (k', v') :: r' =>
      if enumerated_before k k' then (k, v) :: r
      else (k', v') :: record_insert r' k v
  end.

(** The own data property [k] is defined with the value [v]: an existing
    key keeps its place and gets the new value, a new key goes to its
    place in the order of enumeration. *)
Definition record_set (r : record) (k : str) (v : value) : record :=
  if hasOwnProperty r k then record_update r k v else record_insert r k v.

(** The keys are in the order of enumeration: no key is enumerated
    before a key that precedes it. *)
Fixpoint enumeration_order (ks : list str) : bool :=
  match ks with
  | [] => true
  | k :: ks' =>
      forallb (fun k' => negb (enumerated_before k' k)) ks' && enumeration_order ks'
  end.

(** *** Objects that the code fills

    An object made by the literal [{}] and filled by assignments
    [o[k] = v]: its own properties, and its prototype. The prototype is
    [Object.prototype], as [{}] has it, or what an assignment to the key
    [__proto__] has put in its place: the values assigned are strings or
    values of [JSON.parse], so the new prototype is [null], or an object
    of [JSON.parse] (whose prototype is [Object.prototype]), or an array
    of [JSON.parse] (whose prototype is [Array.prototype]). *)
Inductive prototype :=
| ObjectPrototype
| NullPrototype
| ParsedObject (props : record)
| ParsedArray (l : list value).

Record object := {
  own : record;
  proto : prototype
}.

(** [{}] *)
Definition emptyObject : object := {| own := []; proto := ObjectPrototype |}.

(** The lookup of [name] along the prototype chain of [o] ends at the
    property of [Object.prototype]: no own property and no property of a
    replaced prototype hides it, and the chain has not been cut. The
    names looked up are [__proto__] and [hasOwnProperty]; neither is a
    property of an array (which has its indices and [length]) or of
    [Array.prototype]. *)
Definition reaches_Object_prototype (o : object) (name : str) : bool :=
  negb (hasOwnProperty (own o) name)
  && match proto o with
     | ObjectPrototype => true
     | NullPrototype => false
     | ParsedObject props => negb (hasOwnProperty props name)
     | ParsedArray _ => true
     end.

(** The own keys of the object are in the order of enumeration, each
    once. *)
Definition well_kept (o : object) : Prop :=
  enumeration_order (map fst (own o)) = true /\ NoDup (map fst (own o)).

(** [o[k] = v]. Every property of the chain is a writable data property
    but [__proto__] of [Object.prototype], which is an accessor: when the
    assignment reaches it, its setter replaces the prototype of [o] by an
    object or by [null] and ignores any other value; in every other case
    the own property [k] of [o] is defined. *)
Definition assign (o : object) (k : str) (v : value) : object :=
  if str_eqb k (js "__proto__") && reaches_Object_prototype o k then
    match v with
    | JObject props => {| own := own o; proto := ParsedObject props |}
    | JArray l => {| own := own o; proto := ParsedArray l |}
    | JNull => {| own := own o; proto := NullPrototype |}
    | _ => o
    end
  else {| own := record_set (own o) k v; proto := proto o |}.

(** [o.hasOwnProperty(k)]: the method is looked up along the chain; an own
    or inherited property of that name holds a string or a value of
    [JSON.parse], which is no function, and so does a cut chain give
    none: the call throws. *)
Definition call_hasOwnProperty (o : object) (k : str) : outcome bool :=
  if reaches_Object_prototype o (js "hasOwnProperty") then Returns (hasOwnProperty (own o) k)
  else Throws TypeError.

(** *** JSON.parse *)

Definition is_json_ws (c : char) : bool :=
  N.eqb c 32 || N.eqb c 9 || N.eqb c 10 || N.eqb c 13.

Fixpoint skip_ws (s : str) : str :=
  match s with
  | c :: s' => if is_json_ws c then skip_ws s' else s
  | [] => []
  end.

Definition hex_val (c : char) : option N :=
  if is_digit c then Some (c - 48)
  else if N.leb 97 c && N.leb c 102 then Some (c - 87)
  else if N.leb 65 c && N.leb c 70 then Some (c - 55)
  else None.

Definition hex4 (s : str) : option (char * str) :=
  match s with
  | a :: b :: c :: d :: s' =>
      match hex_val a, hex_val b, hex_val c, hex_val d with
      | Some a, Some b, Some c, Some d => Some (((a * 16 + b) * 16 + c) * 16 + d, s')
      | _, _, _, _ => None
      end
  | _ => None
  end.

(** The characters of a string literal after its opening quote. *)
Fixpoint parse_string_body (fuel : nat) (s : str) (acc : str) : option (str * str) :=
  match fuel with
  | O => None
  | S f =>
      match s with
      | [] => None
      | c :: s' =>
          if N.eqb c 34 then Some (rev acc, s')
          else if N.eqb c 92 then
            match s' with
            | e :: s'' =>
                if N.eqb e 34 then parse_string_body f s'' (34 :: acc)
                else if N.eqb e 92 then parse_string_body f s'' (92 :: acc)
                else if N.eqb e 47 then parse_string_body f s'' (47 :: acc)
                else if N.eqb e 98 then parse_string_body f s'' (8 :: acc)
                else if N.eqb e 102 then parse_string_body f s'' (12 :: acc)
                else if N.eqb e 110 then parse_string_body f s'' (10 :: acc)
                else if N.eqb e 114 then parse_string_body f s'' (13 :: acc)
                else if N.eqb e 116 then parse_string_body f s'' (9 :: acc)
                else if N.eqb e 117 then
                  match hex4 s'' with
                  | Some (u, s3) => parse_string_body f s3 (u :: acc)
                  | None => None
                  end
                else None
            | [] => None
            end
          else if N.ltb c 32 then None
          else parse_string_body f s' (c :: acc)
      end
  end.

Fixpoint take_digits (s : str) : str * str :=
  match s with
  | c :: s' =>
      if is_digit c then let '(d, r) := take_digits s' in (c :: d, r) else ([], s)
  | [] => ([], [])
  end.

Definition digits_value (d : str) : Z :=
  fold_left (fun acc c => (acc * 10 + Z.of_N (c - 48))%Z) d 0%Z.

(** A number literal: an optional minus sign, an integer part without a
    leading zero (or the single digit zero), an optional fraction and an
    optional exponent. *)
Definition parse_number (s : str) : option (number * str) :=
  let '(neg, s1) :=
    match s with
    | c :: s' => if N.eqb c 45 then (true, s') else (false, s)
    | [] => (false, s)
    end in
  let '(ip, s2) := take_digits s1 in
  match ip with
  | [] => None
  | d0 :: ip' =>
      if N.eqb d0 48 && negb (Nat.eqb (length ip') 0) then
        (* a leading zero ends the integer part *)
        None
      else
        let frac :=
          match s2 with
          | c :: s' =>
              if N.eqb c 46 then
                let '(fp, s3) := take_digits s' in
                match fp with [] => None | _ => Some (fp, s3) end
              else Some ([], s2)
          | [] => Some ([], s2)
          end in
        match frac with
        | None => None
        | Some (fp, s3) =>
            let ex :=
              match s3 with
              | c :: s' =>
                  if N.eqb c 101 || N.eqb c 69 then
                    let '(eneg, s4) :=
                      match s' with
                      | g :: s'' =>
                          if N.eqb g 45 then (true, s'')
                          else if N.eqb g 43 then (false, s'')
                          else (false, s')
                      | [] => (false, s')
                      end in
                    let '(ep, s5) := take_digits s4 in
                    match ep with
                    | [] => None
                    | _ => Some ((if eneg then - digits_value ep else digits_value ep)%Z, s5)
                    end
                  else Some (0%Z, s3)
              | [] => Some (0%Z, s3)
              end in
            match ex with
            | None => None
            | Some (e, s5) =>
                let m := digits_value (ip ++ fp) in
                Some (to_double neg m (e - Z.of_nat (length fp))%Z, s5)
            end
        end
  end.

(** The value that starts at [s] (after white space) and the rest of the
    text, [None] where the text is no JSON. Every call uses up at least
    one character before it calls itself, so the fuel [JSON_parse] gives,
    twice the length of the text, is never the reason of a failure
    (lemma [JSON_parse_fuel]). *)
Fixpoint parse_value (fuel : nat) (s : str) : option (value * str) :=
  match fuel with
  | O => None
  | S f =>
      match skip_ws s with
      | [] => None
      | c :: s' =>
          if N.eqb c 123 then
            match skip_ws s' with
            | c' :: s'' =>
                if N.eqb c' 125 then Some (JObject [], s'')
                else parse_members f (skip_ws s') []
            | [] => None
            end
          else if N.eqb c 91 then
            match skip_ws s' with
            | c' :: s'' =>
                if N.eqb c' 93 then Some (JArray [], s'')
                else parse_elements f (skip_ws s') []
            | [] => None
            end
          else if N.eqb c 34 then
            match parse_string_body (S (length s')) s' [] with
            | Some (str, rest) => Some (JString str, rest)
            | None => None
            end
          else if startsWith (c :: s') (js "true") then Some (JBool true, drop 4 (c :: s'))
          else if startsWith (c :: s') (js "false") then Some (JBool false, drop 5 (c :: s'))
          else if startsWith (c :: s') (js "null") then Some (JNull, drop 4 (c :: s'))
          else
            match parse_number (c :: s') with
            | Some (n, rest) => Some (JNumber n, rest)
            | None => None
            end
      end
  end
with parse_members (fuel : nat) (s : str) (acc : record) : option (value * str) :=
  match fuel with
  | O => None
  | S f =>
      match skip_ws s with
      | q :: s1 =>
          if N.eqb q 34 then
            match parse_string_body (S (length s1)) s1 [] with
            | Some (key, s2) =>
                match skip_ws s2 with
                | colon :: s3 =>
                    if N.eqb colon 58 then
                      match parse_value f s3 with
                      | Some (v, s4) =>
                          let acc' := record_set acc key v in
                          match skip_ws s4 with
                          | d :: s5 =>
                              if N.eqb d 44 then parse_members f s5 acc'
                              else if N.eqb d 125 then Some (JObject acc', s5)
                              else None
                          | [] => None
                          end
                      | None => None
                      end
                    else None
                | [] => None
                end
            | None => None
            end
          else None
      | [] => None
      end
  end
with parse_elements (fuel : nat) (s : str) (acc : list value) : option (value * str) :=
  match fuel with
  | O => None
  | S f =>
      match parse_value f s with
      | Some (v, s1) =>
          match skip_ws s1 with
          | d :: s2 =>
              if N.eqb d 44 then parse_elements f s2 (acc ++ [v])
              else if N.eqb d 93 then Some (JArray (acc ++ [v]), s2)
              else None
          | [] => None
          end
      | None => None
      end
  end.

(** [JSON.parse(text)]: one value, white space around it, nothing else;
    anything else throws a [SyntaxError]. *)
Definition JSON_parse (text : str) : outcome value :=
  match parse_value (2 * length text + 2) text with
  | Some (v, rest) =>
      match skip_ws rest with
      | [] => Returns v
      | _ => Throws SyntaxError
      end
  | None => Throws SyntaxError
  end.

(** ** JavaScript values at run time

    The parsers read the parsed JSON through [any]: a property read gives a
    value or [undefined] ([None]), conditions test truthiness. *)

(** [v.k] for the property names the sources read ([type], [name],
    [call_id], [key], [value], [text]); no prototype and no primitive
    defines one of them, and reading a property of [null] throws. *)
Definition get (v : value) (k : str) : outcome (option value) :=
  match v with
  | JNull => Throws TypeError
  | JObject props => Returns (record_get props k)
  | _ => Returns None
  end.

Definition truthy (v : option value) : bool :=
  match v with
  | None => false
  | Some JNull => false
  | Some (JBool b) => b
  | Some (JNumber n) =>
      match n with
      | SpecFloat.S754_zero _ | SpecFloat.S754_nan => false
      | _ => true
      end
  | Some (JString s) => match s with [] => false | _ => true end
  | Some (JArray _) => true
  | Some (JObject _) => true
  end.

(** [v === 'text'] *)
Definition is_string (v : option value) (s : str) : bool :=
  match v with
  | Some (JString s') => str_eqb s' s
  | _ => false
  end.

(** [v || null] and [v || undefined]: a falsy value is dropped. *)
Definition or_null (v : option value) : option value :=
  if truthy v then v else None.

(** [v ?? ''] *)
Definition nullish_or_empty (v : option value) : value :=
  match v with
  | None => JString []
  | Some JNull => JString []
  | Some v' => v'
  end.

Section Host.

(** What the host gives: the reading of [Date.now()] at the moment the
    parser generates its [k]-th identity, and [Number.prototype.toString]
    (the shortest decimal that reads back as the same double). *)
Variable Date_now : N -> N.
Variable Number_toString : number -> str.

(** [ToString(v)], as used for a property key [o[v]] and inside
    [Array.prototype.join]. An object of [JSON.parse] prints as
    [[object Object]] unless it has an own property [toString], which is
    no function: then the conversion to a primitive throws. *)
Fixpoint ToString (v : value) : outcome str :=
  match v with
  | JNull => Returns (js "null")
  | JBool true => Returns (js "true")
  | JBool false => Returns (js "false")
  | JNumber n => Returns (Number_toString n)
  | JString s => Returns s
  | JArray l =>
      (fix join_elements (l : list value) : outcome str :=
         match l with
         | [] => Returns []
         | x :: l' =>
             let* sx := match x with JNull => Returns [] | _ => ToString x end in
             match l' with
             | [] => Returns sx
             | _ => let* rest := join_elements l' in Returns (sx ++ js "," ++ rest)
             end
         end) l
  | JObject props =>
      if hasOwnProperty props (js "toString") then Throws TypeError
      else Returns (js "[object Object]")
  end.

(** [v?.toString()] *)
Definition toString_optional (v : option value) : outcome (option str) :=
  match v with
  | None => Returns None
  | Some JNull => Returns None
  | Some v' => let* s := ToString v' in Returns (Some s)
  end.

(** ** [ToolCallParser] (content/tool-parser.ts) *)

Inductive Format := format_xml | format_json.

Record DetectedToolCall := {
  id : str;
  toolName : value;
  arguments : object;
  rawText : str;
  format : Format
}.

(** The only field of the class ([idCounter] is a JavaScript number; the
    model counts on beyond 2^53). *)
Record ToolCallParser := { idCounter : N }.

(** A method of the parser: it may update [idCounter] and may throw. *)
Definition M (A : Type) : Type := ToolCallParser -> outcome A * ToolCallParser.

Definition ret {A} (a : A) : M A := fun p => (Returns a, p).

Definition bind {A B} (x : M A) (k : A -> M B) : M B :=
  fun p =>
    match x p with
    | (Returns a, p') => k a p'
    | (Throws e, p') => (Throws e, p')
    end.

Definition lift {A} (x : outcome A) : M A := fun p => (x, p).

Definition try_catch_M {A} (body : M A) (handler : exn -> M A) : M A :=
  fun p =>
    match body p with
    | (Returns a, p') => (Returns a, p')
    | (Throws e, p') => handler e p'
    end.

Notation "'do' x '<-' c ';' k" := (bind c (fun x => k))
  (at level 10, x pattern, c at level 100, k at level 200).

(** [for (const x of l) { acc = body(acc, x) }] *)
Fixpoint for_of {A S} (l : list A) (body : S -> A -> M S) (acc : S) : M S :=
  match l with
  | [] => ret acc
  | x :: l' => do acc' <- body acc x; for_of l' body acc'
  end.

(** [`tool-call-${Date.now()}-${this.idCounter++}`] *)
Definition generated_id (k : N) : str :=
  js "tool-call-" ++ N_to_str (Date_now k) ++ js "-" ++ N_to_str k.

Definition generateId : M str :=
  fun p => (Returns (generated_id (idCounter p)), {| idCounter := idCounter p + 1 |}).

Definition parseValue (v : str) : outcome value :=
  try_catch (JSON_parse v) (fun _ => Returns (JString v)).

(** [/<function_calls>([\s\S]*?)<\/function_calls>/g] *)
Definition functionCallsRegex : re :=
  seq [lit (js "<function_calls>"); Group 1 (star_lazy any_char);
       lit (js "</function_calls>")].

(** [/<function_calls>([\s\S]*?)END/] *)
Definition incompleteFunctionCallsRegex : re :=
  seq [lit (js "<function_calls>"); Group 1 (star_lazy any_char); Eol].

(** [/<invoke\s+name=$([^$]+)$(?:\s+call_id=$([^$]+)$)?[^>]*?>([\s\S]*?)(?:<\/invoke>|END)/gs]
    (in the comments on patterns too the dollar sign is the double quote,
    and END is the anchor of the end of the input) *)
Definition invokeRegex : re :=
  seq [lit (js "<invoke"); plus ws; lit (js "name=$");
       Group 1 (plus (not_chr DQUOTE)); chr DQUOTE;
       opt (seq [plus ws; lit (js "call_id=$");
                 Group 2 (plus (not_chr DQUOTE)); chr DQUOTE]);
       star_lazy (not_chr 62); chr 62;
       Group 3 (star_lazy any_char);
       Alt (lit (js "</invoke>")) Eol].

(** [/<parameter\s+name=$([^$]+)$>([\s\S]*?)(?:<\/parameter>|END)/gs] *)
Definition parameterRegex : re :=
  seq [lit (js "<parameter"); plus ws; lit (js "name=$");
       Group 1 (plus (not_chr DQUOTE)); lit (js "$>");
       Group 2 (star_lazy any_char);
       Alt (lit (js "</parameter>")) Eol].

(** [/^<!\[CDATA\[([\s\S]*?)\]\]>END/] *)
Definition cdataRegex : re :=
  seq [Bol; lit (js "<![CDATA["); Group 1 (star_lazy any_char);
       lit (js "]]>"); Eol].

(** The body of the loop over the parameters of one invoke block. *)
Definition parseParameter (args : object) (paramMatch : rmatch_result) : M object :=
  let paramName := group paramMatch 1 in
  let paramValue := trim (group paramMatch 2) in
  let paramValue :=
    match exec cdataRegex paramValue with
    | Some cdataMatch => trim (group cdataMatch 1)
    | None => paramValue
    end in
  do v <- lift (parseValue paramValue);
  ret (assign args paramName v).

Definition parseInvoke (toolCalls : list DetectedToolCall) (invokeMatch : rmatch_result)
  : M (list DetectedToolCall) :=
  let toolName := group invokeMatch 1 in
  do callId <- match group invokeMatch 2 with
               | [] => generateId
               | c => ret c
               end;
  let parametersContent := group invokeMatch 3 in
  do args <- for_of (matchAll parameterRegex parametersContent) parseParameter emptyObject;
  ret (toolCalls ++ [{| id := callId; toolName := JString toolName;
                        arguments := args; rawText := m_text invokeMatch;
                        format := format_xml |}]).

Definition parseInvokeBlocks (content : str) (toolCalls : list DetectedToolCall)
  : M (list DetectedToolCall) :=
  for_of (matchAll invokeRegex content) parseInvoke toolCalls.

Definition parseXMLFormat (text : str) : M (list DetectedToolCall) :=
  let completeMatches := matchAll functionCallsRegex text in
  match completeMatches with
  | _ :: _ =>
      for_of completeMatches
        (fun toolCalls m => parseInvokeBlocks (group m 1) toolCalls) []
  | [] =>
      match exec incompleteFunctionCallsRegex text with
      | Some incompleteMatch => parseInvokeBlocks (group incompleteMatch 1) []
      | None => ret []
      end
  end.

(** The state of the loop of [parseJSONFormat]: the calls pushed so far
    and the call under construction. *)
Record json_loop := {
  toolCalls : list DetectedToolCall;
  currentCall : option DetectedToolCall
}.

Definition json_loop_init : json_loop := {| toolCalls := []; currentCall := None |}.

Definition with_line (c : DetectedToolCall) (trimmed : str) : DetectedToolCall :=
  {| id := id c; toolName := toolName c; arguments := arguments c;
     rawText := rawText c ++ [LF] ++ trimmed; format := format c |}.

(** The [try] block of the loop body. *)
Definition parseJSONFormat_try (st : json_loop) (trimmed : str) : M json_loop :=
  do json <- lift (JSON_parse trimmed);
  do type <- lift (get json (js "type"));
  do name <- lift (get json (js "name"));
  do val <- lift (get json (js "value"));
  if is_string type (js "function_call_start") && truthy name then
    do newId <- generateId;
    ret {| toolCalls := toolCalls st;
           currentCall :=
             Some {| id := newId; toolName := default JNull name;
                     arguments := emptyObject; rawText := trimmed;
                     format := format_json |} |}
  else
    match currentCall st with
    | Some cur =>
        if is_string type (js "function_call_arg") && truthy name
           && bool_decide (is_Some val) then
          do key <- lift (ToString (default JNull name));
          ret {| toolCalls := toolCalls st;
                 currentCall :=
                   Some (with_line
                           {| id := id cur; toolName := toolName cur;
                              arguments := assign (arguments cur) key (default JNull val);
                              rawText := rawText cur; format := format cur |}
                           trimmed) |}
        else if is_string type (js "function_call_end") then
          ret {| toolCalls := toolCalls st ++ [with_line cur trimmed];
                 currentCall := None |}
        else ret st
    | None => ret st
    end.

Definition parseJSONFormat_line (st : json_loop) (line : str) : M json_loop :=
  let trimmed := trim line in
  if negb (startsWith trimmed (js "{")) then ret st
  else try_catch_M (parseJSONFormat_try st trimmed) (fun _ => ret st).

Definition parseJSONFormat (text : str) : M (list DetectedToolCall) :=
  let lines := split_lines text in
  do st <- for_of lines parseJSONFormat_line json_loop_init;
  match currentCall st with
  | Some cur =>
      if truthy (Some (toolName cur)) then ret (toolCalls st ++ [cur])
      else ret (toolCalls st)
  | None => ret (toolCalls st)
  end.

Definition parseMessage (text : str) : M (list DetectedToolCall) :=
  do xmlCalls <- parseXMLFormat text;
  match xmlCalls with
  | [] =>
      do jsonCalls <- parseJSONFormat text;
      ret (xmlCalls ++ jsonCalls)
  | _ => ret xmlCalls
  end.

End Host.

(** ** parsers/jsonFunctionParser.ts *)

(** A block of the page: [node] tells one element from another (the
    identity a [WeakSet] goes by), [codeChild] is the text of the first
    [code] element below it, when there is one. *)
Record HTMLElement := {
  node : nat;
  textContent : option str;
  codeChild : option (option str)
}.

Record FunctionInfo := {
  hasFunctionCalls : bool;
  isComplete : bool;
  hasInvoke : bool;
  hasParameters : bool;
  hasClosingTags : bool;
  languageTag : option str;
  detectedBlockType : option str;
  partialTagDetected : bool;
  invokeName : option value;
  callId : option str;
  fi_textContent : option value;
  description : option value
}.

Definition emptyFunctionInfo : FunctionInfo :=
  {| hasFunctionCalls := false; isComplete := false; hasInvoke := false;
     hasParameters := false; hasClosingTags := false; languageTag := None;
     detectedBlockType := None; partialTagDetected := false;
     invokeName := None; callId := None; fi_textContent := None;
     description := None |}.

Definition languages : list str :=
  map js ["javascript"; "typescript"; "markdown"; "csharp"; "kotlin"; "python";
          "jsonl"; "bash"; "rust"; "java"; "scala"; "swift"; "shell"; "json";
          "text"; "perl"; "yaml"; "toml"; "html"; "ruby"; "cpp"; "php"; "lua";
          "css"; "sql"; "yml"; "ini"; "xml"; "ts"; "js"; "py"; "sh"; "md";
          "cs"; "go"; "rb"; "c"; "r"]%string.

(** [(javascript|typescript|...|c|r)] under the [i] flag *)
Definition languageAlternatives : re := alt (map lit_i languages).

(** [/^```\s*(javascript|...|r)?\s*/i] *)
Definition fenceRegex : re :=
  seq [Bol; lit (js "```"); star ws; opt (Group 1 languageAlternatives); star ws].

(** [/^(javascript|...|r)(\s*copy(\s*code)?)?\s*/i] *)
Definition languageTagRegex : re :=
  seq [Bol; Group 1 languageAlternatives;
       opt (Group 2 (seq [star ws; lit_i (js "copy");
                          opt (Group 3 (seq [star ws; lit_i (js "code")]))]));
       star ws].

(** [/^[cC]opy(\s+code)?\s*/i] *)
Definition copyRegex : re :=
  seq [Bol; lit_i (js "copy"); opt (Group 1 (seq [plus ws; lit_i (js "code")]));
       star ws].

Definition stripLanguageTags (line : str) : str :=
  let trimmed := trim line in
  let cleaned := replace_first fenceRegex [] trimmed in
  let cleaned := replace_first languageTagRegex [] cleaned in
  let cleaned := replace_first copyRegex [] cleaned in
  cleaned.

(** [null] is [None]. The whole body is inside [try]; the [catch] returns
    [null]. *)
Definition parseJSONLine (line : str) : outcome (option value) :=
  try_catch
    (let trimmed := trim line in
     match trimmed with
     | [] => Returns None
     | _ =>
         let cleaned := stripLanguageTags trimmed in
         match cleaned with
         | [] => Returns None
         | _ =>
             let* parsed := JSON_parse cleaned in
             let* type := get parsed (js "type") in
             match type with
             | Some (JString (_ :: _)) => Returns (Some parsed)
             | _ => Returns None
             end
         end
     end)
    (fun _ => Returns None).

(** The state of the loop of [reconstructJSONObjects]. *)
Record reconstruct_state := {
  reconstructed : list str;
  currentObject : str;
  braceDepth : Z;
  inObject : bool
}.

Definition count_braces (trimmed : str) (depth : Z) (inObj : bool) : Z * bool :=
  fold_left
    (fun '(d, o) ch =>
       if char_eqb ch 123 then ((d + 1)%Z, true)
       else if char_eqb ch 125 then ((d - 1)%Z, o)
       else (d, o))
    trimmed (depth, inObj).

Definition reconstruct_line (st : reconstruct_state) (line : str) : reconstruct_state :=
  let trimmed := trim line in
  match trimmed with
  | [] => st
  | _ =>
      let '(depth, inObj) := count_braces trimmed (braceDepth st) (inObject st) in
      let current :=
        currentObject st
          ++ (match currentObject st with [] => [] | _ => js " " end) ++ trimmed in
      if inObj && Z.eqb depth 0 then
        {| reconstructed := reconstructed st ++ [current]; currentObject := [];
           braceDepth := depth; inObject := false |}
      else
        {| reconstructed := reconstructed st; currentObject := current;
           braceDepth := depth; inObject := inObj |}
  end.

Definition reconstructJSONObjects (lines : list str) : list str :=
  let st := fold_left reconstruct_line lines
              {| reconstructed := []; currentObject := []; braceDepth := 0%Z;
                 inObject := false |} in
  match trim (currentObject st) with
  | [] => reconstructed st
  | _ => reconstructed st ++ [currentObject st]
  end.

Record JSONFunctionState := {
  hasFunctionStart : bool;
  hasFunctionEnd : bool;
  functionName : option value;
  st_callId : option str;
  st_description : option value;
  parameterCount : nat;
  st_lines : list value;
  hasPartialJSON : bool
}.

(** [(content.match(/\{/g) || []).length] *)
Definition count_open_braces (content : str) : nat :=
  length (matchAll (chr 123) content).

(** The split of the single-line format: [content.split(/\}\s*\{/)], then
    the braces the split took away are put back. *)
Definition boundaryRegex : re := seq [chr 125; star ws; chr 123].

Fixpoint reattach (first : bool) (parts : list str) : list str :=
  match parts with
  | [] => []
  | [part] => [if first then part ++ js "}" else js "{" ++ part]
  | part :: rest =>
      (if first then part ++ js "}" else js "{" ++ part ++ js "}")
        :: reattach false rest
  end.

Definition splitSingleLine (content : str) : list str :=
  reattach true (split_re boundaryRegex content).

Section JsonHost.

Variable Number_toString : number -> str.

(** The body of the loop over the lines of [containsJSONFunctionCalls];
    [call_id?.toString()] is outside any [try]. *)
Definition jsonLine_step (state : JSONFunctionState) (line : str) : outcome JSONFunctionState :=
  let* parsedOpt := parseJSONLine line in
  match parsedOpt with
  | None =>
      let trimmed := trim line in
      let partial := startsWith trimmed (js "{") && negb (endsWith trimmed (js "}")) in
      Returns {| hasFunctionStart := hasFunctionStart state;
                 hasFunctionEnd := hasFunctionEnd state;
                 functionName := functionName state;
                 st_callId := st_callId state;
                 st_description := st_description state;
                 parameterCount := parameterCount state;
                 st_lines := st_lines state;
                 hasPartialJSON := hasPartialJSON state || partial |}
  | Some parsed =>
      let lines' := st_lines state ++ [parsed] in
      let* type := get parsed (js "type") in
      if is_string type (js "function_call_start") then
        let* name := get parsed (js "name") in
        let* call_id := get parsed (js "call_id") in
        let* idText := toString_optional Number_toString call_id in
        Returns {| hasFunctionStart := true;
                   hasFunctionEnd := hasFunctionEnd state;
                   functionName := or_null name;
                   st_callId := match idText with Some (_ :: _) => idText | _ => None end;
                   st_description := st_description state;
                   parameterCount := parameterCount state;
                   st_lines := lines';
                   hasPartialJSON := hasPartialJSON state |}
      else if is_string type (js "description") then
        let* text := get parsed (js "text") in
        Returns {| hasFunctionStart := hasFunctionStart state;
                   hasFunctionEnd := hasFunctionEnd state;
                   functionName := functionName state;
                   st_callId := st_callId state;
                   st_description := or_null text;
                   parameterCount := parameterCount state;
                   st_lines := lines';
                   hasPartialJSON := hasPartialJSON state |}
      else if is_string type (js "parameter") then
        Returns {| hasFunctionStart := hasFunctionStart state;
                   hasFunctionEnd := hasFunctionEnd state;
                   functionName := functionName state;
                   st_callId := st_callId state;
                   st_description := st_description state;
                   parameterCount := S (parameterCount state);
                   st_lines := lines';
                   hasPartialJSON := hasPartialJSON state |}
      else if is_string type (js "function_call_end") then
        Returns {| hasFunctionStart := hasFunctionStart state;
                   hasFunctionEnd := true;
                   functionName := functionName state;
                   st_callId := st_callId state;
                   st_description := st_description state;
                   parameterCount := parameterCount state;
                   st_lines := lines';
                   hasPartialJSON := hasPartialJSON state |}
      else
        Returns {| hasFunctionStart := hasFunctionStart state;
                   hasFunctionEnd := hasFunctionEnd state;
                   functionName := functionName state;
                   st_callId := st_callId state;
                   st_description := st_description state;
                   parameterCount := parameterCount state;
                   st_lines := lines';
                   hasPartialJSON := hasPartialJSON state |}
  end.

Fixpoint ofold {A S} (l : list A) (body : S -> A -> outcome S) (acc : S) : outcome S :=
  match l with
  | [] => Returns acc
  | x :: l' => let* acc' := body acc x in ofold l' body acc'
  end.

(** [block.textContent?.trim() || ''] *)
Definition trimmedText (block : HTMLElement) : str :=
  match textContent block with Some t => trim t | None => [] end.

(** The text [containsJSONFunctionCalls] examines:
    [block.textContent?.trim() || ''], replaced by the trimmed text of the
    [code] child when that child has a non-empty text. *)
Definition blockContent (block : HTMLElement) : str :=
  let content := trimmedText block in
  match codeChild block with
  | Some (Some (c :: t)) => trim (c :: t)
  | _ => content
  end.

(** The lines the loop of [containsJSONFunctionCalls] runs over. *)
Definition jsonLines (content : str) : list str :=
  let lines := split_lines content in
  let isSingleLineFormat :=
    Nat.eqb (length lines) 1 && Nat.ltb 1 (count_open_braces content) in
  let isPrettyPrinted :=
    Nat.ltb 1 (length lines)
    && (includes content (js "{" ++ [LF]) || includes content (js "{ " ++ [LF])
        || existsb (fun line => str_eqb (trim line) (js "{")) lines) in
  if isSingleLineFormat then splitSingleLine content
  else if isPrettyPrinted then reconstructJSONObjects lines
  else lines.

Definition containsJSONFunctionCalls (block : HTMLElement) : outcome FunctionInfo :=
  let content := blockContent block in
  let hasTypeField :=
    includes content (js "$type$") || includes content (js "'type'")
    || includes content (js "type:") in
  let hasFunctionCall :=
    includes content (js "function_call")
    || (includes content (js "$type$")
        && test (seq [lit (js "function_call_"); star word]) content)
    || (includes content (js "$type$") && includes content (js "function_ca")) in
  let hasParameter :=
    includes content (js "$parameter$") || includes content (js "'parameter'")
    || includes content (js "parameter") in
  let looksLikeJSONStart :=
    includes content (js "{$type$") || includes content (js "{ $type$") in
  if negb (hasTypeField && (hasFunctionCall || hasParameter || looksLikeJSONStart)) then
    Returns emptyFunctionInfo
  else
    let* state :=
      ofold (jsonLines content) jsonLine_step
        {| hasFunctionStart := false; hasFunctionEnd := false;
           functionName := None; st_callId := None; st_description := None;
           parameterCount := 0; st_lines := []; hasPartialJSON := false |} in
    if hasFunctionStart state || (hasPartialJSON state && looksLikeJSONStart) then
      Returns {| hasFunctionCalls := true;
                 isComplete := hasFunctionStart state && hasFunctionEnd state;
                 hasInvoke := hasFunctionStart state;
                 hasParameters := Nat.ltb 0 (parameterCount state);
                 hasClosingTags := hasFunctionEnd state;
                 languageTag := None;
                 detectedBlockType := Some (js "json");
                 partialTagDetected := hasPartialJSON state;
                 invokeName := functionName state;
                 callId := st_callId state;
                 fi_textContent := st_description state;
                 description := None |}
    else Returns emptyFunctionInfo.

(** [/$name$\s*:\s*$([^$]+)$/] and [/$call_id$\s*:\s*(\d+|$[^$]+$)/] *)
Definition nameRegex : re :=
  seq [lit (js "$name$"); star ws; chr 58; star ws; chr DQUOTE;
       Group 1 (plus (not_chr DQUOTE)); chr DQUOTE].

Definition callIdRegex : re :=
  seq [lit (js "$call_id$"); star ws; chr 58; star ws;
       Group 1 (Alt (plus digit)
                    (seq [chr DQUOTE; plus (not_chr DQUOTE); chr DQUOTE]))].

Record JSONFunctionInfo := {
  info_functionName : option value;
  info_callId : option str;
  info_description : option value
}.

(** The loop of [extractJSONFunctionInfo]; the last component tells that
    the loop has met its [break]. *)
Definition functionInfo_step (acc : JSONFunctionInfo * bool) (line : str)
  : outcome (JSONFunctionInfo * bool) :=
  let '(info, stop) := acc in
  if stop then Returns acc
  else
    let* parsedOpt := parseJSONLine line in
    match parsedOpt with
    | None =>
        let trimmed := replace_first languageTagRegex [] (trim line) in
        if startsWith trimmed (js "{") && includes trimmed (js "$type$")
           && includes trimmed (js "function_call_start") then
          let name' :=
            match exec nameRegex trimmed with
            | Some nameMatch => Some (JString (group nameMatch 1))
            | None => info_functionName info
            end in
          let callId' :=
            match exec callIdRegex trimmed with
            | Some callIdMatch =>
                Some (replace_all (chr DQUOTE) [] (group callIdMatch 1))
            | None => info_callId info
            end in
          Returns ({| info_functionName := name'; info_callId := callId';
                      info_description := info_description info |}, false)
        else Returns acc
    | Some parsed =>
        let* type := get parsed (js "type") in
        let* info' :=
          if is_string type (js "function_call_start") then
            let* name := get parsed (js "name") in
            let* call_id := get parsed (js "call_id") in
            let* idText := toString_optional Number_toString call_id in
            Returns {| info_functionName := or_null name;
                       info_callId := match idText with Some (_ :: _) => idText | _ => None end;
                       info_description := info_description info |}
          else if is_string type (js "description") then
            let* text := get parsed (js "text") in
            Returns {| info_functionName := info_functionName info;
                       info_callId := info_callId info;
                       info_description := or_null text |}
          else Returns info in
        Returns (info',
                 truthy (info_functionName info')
                 && match info_callId info' with Some (_ :: _) => true | _ => false end
                 && truthy (info_description info'))
    end.

Definition extractJSONFunctionInfo (content : str) : outcome JSONFunctionInfo :=
  let* r := ofold (split_lines content) functionInfo_step
              ({| info_functionName := None; info_callId := None;
                  info_description := None |}, false) in
  Returns (fst r).

(** [/$type$\s*:\s*$parameter$[^}]*$key$\s*:\s*$([^$]+)$[^}]*$value$\s*:\s*$(VALUE)/g]
    where VALUE is any number of [(?:[^$\\]|\\.)], greedy *)
Definition parameterPattern : re :=
  seq [lit (js "$type$"); star ws; chr 58; star ws; lit (js "$parameter$");
       star (not_chr 125);
       lit (js "$key$"); star ws; chr 58; star ws; chr DQUOTE;
       Group 1 (plus (not_chr DQUOTE)); chr DQUOTE;
       star (not_chr 125);
       lit (js "$value$"); star ws; chr 58; star ws; chr DQUOTE;
       Group 2 (star (Alt (Chr (fun x => negb (char_eqb x DQUOTE || char_eqb x 92)))
                          (Seq (chr 92) dot)))].

(** The chain of [replace] calls that undoes the escapes of a value. *)
Definition unescapeValue (v : str) : str :=
  let v := replace_all (lit (js "\n")) [10] v in
  let v := replace_all (lit (js "\t")) [9] v in
  let v := replace_all (lit (js "\r")) [13] v in
  let v := replace_all (lit (js "\$")) [DQUOTE] v in
  let v := replace_all (lit (js "\\")) (js "\") v in
  v.

(** First pass of [extractJSONParameters], over the lines that parse.
    [parameter_entry] is the test of the loop body: the key and the value
    a line sets, if it sets one. *)
Definition parameter_entry (line : str) : outcome (option (str * value)) :=
  let* parsedOpt := parseJSONLine line in
  match parsedOpt with
  | None => Returns None
  | Some parsed =>
      let* type := get parsed (js "type") in
      let* key := get parsed (js "key") in
      if is_string type (js "parameter") && truthy key then
        let* val := get parsed (js "value") in
        let* k := ToString Number_toString (default JNull key) in
        Returns (Some (k, nullish_or_empty val))
      else Returns None
  end.

Definition parameter_step (parameters : object) (line : str) : outcome object :=
  let* entry := parameter_entry line in
  match entry with
  | Some (k, v) => Returns (assign parameters k v)
  | None => Returns parameters
  end.

(** Second pass: the pattern, for the lines that did not parse; a key
    that is an own property is left alone. The test calls the method
    [hasOwnProperty] of the object, outside any [try]. *)
Definition fallback_step (parameters : object) (m : rmatch_result) : outcome object :=
  let key := group m 1 in
  let val := group m 2 in
  let* has := call_hasOwnProperty parameters key in
  if negb has then Returns (assign parameters key (JString (unescapeValue val)))
  else Returns parameters.

Definition extractJSONParameters (content : str) : outcome object :=
  match content with
  | [] => Returns emptyObject
  | _ =>
      let* parameters := ofold (split_lines content) parameter_step emptyObject in
      ofold (matchAll parameterPattern content) fallback_step parameters
  end.

End JsonHost.

(** ** parsers/functionParser.ts *)

Record LanguageTagResult := {
  tag : option str;
  lt_content : option str
}.

(** [/<invoke name=$([^$]+)$(?:\s+call_id=$([^$]+)$)?>/] *)
Definition invokeTagRegex : re :=
  seq [lit (js "<invoke name=$"); Group 1 (plus (not_chr DQUOTE)); chr DQUOTE;
       opt (seq [plus ws; lit (js "call_id=$");
                 Group 2 (plus (not_chr DQUOTE)); chr DQUOTE]);
       chr 62].

Section FunctionParser.

Variable Number_toString : number -> str.

(** [extractLanguageTag] of parsers/languageParser.ts, a file that is not
    among the sources: [containsFunctionCalls] is stated for any such
    function. *)
Variable extractLanguageTag : str -> LanguageTagResult.

(** [langTagResult.content || content] *)
Definition examinedContent (content : str) : str :=
  match lt_content (extractLanguageTag content) with
  | Some (c :: t) => c :: t
  | _ => content
  end.

Definition containsFunctionCalls (block : HTMLElement) : outcome FunctionInfo :=
  let content := trimmedText block in
  let* jsonResult := containsJSONFunctionCalls Number_toString block in
  if hasFunctionCalls jsonResult then
    let* info := extractJSONFunctionInfo Number_toString content in
    Returns {| hasFunctionCalls := hasFunctionCalls jsonResult;
               isComplete := isComplete jsonResult;
               hasInvoke := hasInvoke jsonResult;
               hasParameters := hasParameters jsonResult;
               hasClosingTags := hasClosingTags jsonResult;
               languageTag := languageTag jsonResult;
               detectedBlockType := detectedBlockType jsonResult;
               partialTagDetected := partialTagDetected jsonResult;
               invokeName := invokeName jsonResult;
               callId := callId jsonResult;
               fi_textContent := fi_textContent jsonResult;
               description := or_null (info_description info) |}
  else if negb (includes content (js "<"))
          && negb (includes content (js "<function_calls>"))
          && negb (includes content (js "<invoke"))
          && negb (includes content (js "</invoke>"))
          && negb (includes content (js "<parameter")) then
    Returns emptyFunctionInfo
  else
    let langTagResult := extractLanguageTag content in
    let languageTag' :=
      match tag langTagResult with
      | Some (c :: t) => Some (c :: t)
      | _ => None
      end in
    let contentToExamine := examinedContent content in
    if includes contentToExamine (js "<function_calls>")
       || includes contentToExamine (js "<invoke") then
      let hasInvoke' := includes contentToExamine (js "<invoke") in
      let invokeMatch :=
        if hasInvoke' then exec invokeTagRegex contentToExamine else None in
      let hasOpeningTag := includes contentToExamine (js "<function_calls>") in
      let hasClosingTag := includes contentToExamine (js "</function_calls>") in
      Returns {| hasFunctionCalls := true;
                 isComplete := hasOpeningTag && hasClosingTag;
                 hasInvoke := hasInvoke';
                 hasParameters := includes contentToExamine (js "<parameter");
                 hasClosingTags := hasOpeningTag && hasClosingTag;
                 languageTag := languageTag';
                 detectedBlockType := Some (js "xml");
                 partialTagDetected := false;
                 invokeName :=
                   match invokeMatch with
                   | Some m => Some (JString (group m 1))
                   | None => None
                   end;
                 callId :=
                   match invokeMatch with
                   | Some m => match group m 2 with [] => None | c => Some c end
                   | None => None
                   end;
                 fi_textContent := None;
                 description := None |}
    else
      Returns {| hasFunctionCalls := false; isComplete := false;
                 hasInvoke := false; hasParameters := false;
                 hasClosingTags := false; languageTag := languageTag';
                 detectedBlockType := None; partialTagDetected := false;
                 invokeName := None; callId := None; fi_textContent := None;
                 description := None |}.

End FunctionParser.

(** Modelled from the spec: parsers/languageParser.ts with
    [extractLanguageTag] is missing from the sources. The normalizer of
    section 4.1 removes a leading fenced-code opening with an optional
    language label of the allow-list and an optional trailing copy or
    copy code phrase, or else a standalone leading copy or copy code
    phrase; what follows the first token that does not match is left
    untouched, and a text without such a start is returned as it is. *)
Definition copyPhrase : re :=
  seq [lit_i (js "copy"); opt (seq [plus ws; lit_i (js "code")])].

Definition fencedOpening : re :=
  seq [Bol; lit (js "```"); star ws; opt (Group 1 languageAlternatives);
       star ws; opt copyPhrase; star ws].

Definition leadingCopy : re := seq [Bol; copyPhrase; star ws].

Definition extractLanguageTag_spec (content : str) : LanguageTagResult :=
  match exec fencedOpening content with
  | Some m =>
      {| tag := match group m 1 with [] => None | l => Some l end;
         lt_content := Some (drop (m_end m) content) |}
  | None =>
      {| tag := None; lt_content := Some (replace_first leadingCopy [] content) |}
  end.

(** ** [ChatGPTMCPExtension.scanForToolCalls] (content/index.ts)

    [processedElements] is the [WeakSet] of the elements already handled;
    [injected] records, in order, every call of
    [injectExecutionUIAfterCodeBlock (toolCall, codeElement)], the point
    where a detected call is handed to the user interface and, with
    auto-execute on, to the executor. *)
Record Extension := {
  parser : ToolCallParser;
  processedElements : gset nat;
  injected : list (DetectedToolCall * nat)
}.

Section Scan.

Variable Date_now : N -> N.
Variable Number_toString : number -> str.

(** The callback of [codeBlocks.forEach]. *)
Definition scanBlock (ext : Extension) (codeElement : HTMLElement) : outcome Extension :=
  if bool_decide (node codeElement ∈ processedElements ext) then Returns ext
  else
    let text := default [] (textContent codeElement) in
    if negb (includes text (js "<function_calls>"))
       && negb (includes text (js "<invoke")) then Returns ext
    else
      match parseMessage Date_now Number_toString text (parser ext) with
      | (Throws e, _) => Throws e
      | (Returns calls, parser') =>
          match calls with
          | [] =>
              Returns {| parser := parser';
                         processedElements := processedElements ext;
                         injected := injected ext |}
          | _ =>
              Returns {| parser := parser';
                         processedElements := {[node codeElement]} ∪ processedElements ext;
                         injected :=
                           injected ext ++ map (fun c => (c, node codeElement)) calls |}
          end
      end.

(** [codeBlocks] is what [document.querySelectorAll('pre code, pre, code')]
    returns at the time of the scan. *)
Definition scanForToolCalls (codeBlocks : list HTMLElement) (ext : Extension)
  : outcome Extension :=
  ofold codeBlocks scanBlock ext.

(** A session: the scans the mutation observer triggers, one list of
    code blocks per scan. *)
Definition scans (snapshots : list (list HTMLElement)) (ext : Extension)
  : outcome Extension :=
  ofold snapshots (fun e blocks => scanForToolCalls blocks e) ext.

End Scan.

(** ** Example hosts and texts *)

(** A clock that stands still, and a printer of numbers that is right on
    the doubles that are integers below 10^21 (in absolute value), on
    the infinities and on NaN; of a double with a fraction it prints the
    integer part. It is enough to run the examples, none of which prints
    a number with a fraction. *)
Definition still_clock : N -> N := fun _ => 1700000000000.

Definition print_integer (n : number) : str :=
  match n with
  | SpecFloat.S754_finite neg m e =>
      (if neg then js "-" else [])
        ++ N_to_str (Z.to_N (if Z.leb 0 e then Z.pos m * 2 ^ e else Z.pos m / 2 ^ (- e)))
  | SpecFloat.S754_zero _ => js "0"
  | SpecFloat.S754_infinity neg => (if neg then js "-" else []) ++ js "Infinity"
  | SpecFloat.S754_nan => js "NaN"
  end.

Definition newParser : ToolCallParser := {| idCounter := 0 |}.

Definition newExtension : Extension :=
  {| parser := newParser; processedElements := ∅; injected := [] |}.

Definition blockOf (n : nat) (text : str) : HTMLElement :=
  {| node := n; textContent := Some text; codeChild := None |}.

(** Scenario 1: a complete XML call. *)
Definition xmlComplete : str :=
  js "<function_calls><invoke name=$read_file$ call_id=$1$><parameter name=$path$>/tmp/test.txt</parameter></invoke></function_calls>".

(** Scenario 2: the same call while it streams. *)
Definition xmlStreaming : str :=
  js "<function_calls><invoke name=$read_file$ call_id=$1$><parameter name=$path$>/tmp/te".

(** Scenario 4: three JSON lines. *)
Definition jsonThreeLines : str :=
  join [LF]
    [js "{$type$:$function_call_start$,$name$:$t$,$call_id$:$1$}";
     js "{$type$:$parameter$,$key$:$x$,$value$:5}";
     js "{$type$:$function_call_end$}"].

(** Scenario 5: two objects on one physical line. *)
Definition jsonOneLine : str :=
  js "{$type$:$function_call_start$,$name$:$t$}{$type$:$function_call_end$}".

(** ** Notions used in the statements *)

Definition digits_only (s : str) : Prop := Forall (fun c => 48 <= c <= 57) s.

(** The number a text of digits denotes. *)
Definition str_value (s : str) : N := fold_left (fun acc c => acc * 10 + (c - 48)) s 0.

(** A method that returns normally from every state of the parser and
    never lowers its counter. *)
Definition safe {A} (m : M A) : Prop :=
  forall p, exists a p', m p = (Returns a, p') /\ idCounter p <= idCounter p'.

(** The lines of the JSON reader of [ToolCallParser] that open and that
    close a call: a line that parses, with type [function_call_start] and
    a truthy name, or with type [function_call_end]. *)
Definition line_type_is (kind : str) (need_name : bool) (line : str) : bool :=
  let trimmed := trim line in
  startsWith trimmed (js "{")
  && match JSON_parse trimmed with
     | Returns parsed =>
         match get parsed (js "type"), get parsed (js "name") with
         | Returns type, Returns name =>
             is_string type kind && (negb need_name || truthy name)
         | _, _ => false
         end
     | Throws _ => false
     end.

Definition is_start_line : str -> bool := line_type_is (js "function_call_start") true.
Definition is_end_line : str -> bool := line_type_is (js "function_call_end") false.

(** The identities a parse assigns, in order. *)
Definition identities (r : outcome (list DetectedToolCall) * ToolCallParser) : list str :=
  match r with
  | (Returns calls, _) => map id calls
  | (Throws _, _) => []
  end.

Definition formats (r : outcome (list DetectedToolCall) * ToolCallParser) : list Format :=
  match r with
  | (Returns calls, _) => map format calls
  | (Throws _, _) => []
  end.

(** An XML call without call_id. *)
Definition xmlNoCallId : str :=
  js "<function_calls><invoke name=$read_file$></invoke></function_calls>".

(** A snapshot with a complete XML call followed by a complete JSON call. *)
Definition xmlThenJson : str :=
  join [LF]
    [js "<function_calls><invoke name=$a$ call_id=$1$></invoke></function_calls>";
     js "{$type$:$function_call_start$,$name$:$t$}";
     js "{$type$:$function_call_end$}"].

(** Every call of a loop state, pushed or open, has an identity generated
    at a count that satisfies [P] and lies below [k]. *)
Definition generated_within (Date_now : N -> N) (P : N -> Prop) (k : N)
    (c : DetectedToolCall) : Prop :=
  exists j, P j /\ j < k /\ id c = generated_id Date_now j.

Definition loop_ids (Date_now : N -> N) (P : N -> Prop) (k : N) (st : json_loop) : Prop :=
  Forall (generated_within Date_now P k) (toolCalls st)
  /\ (forall c, currentCall st = Some c -> generated_within Date_now P k c).

(** The call [c'] is the call [c] with more lines read: it has the
    identity, the name and the format of [c], and its raw text starts
    with that of [c]. *)
Definition continues (c c' : DetectedToolCall) : Prop :=
  id c' = id c /\ toolName c' = toolName c /\ format c' = format c
  /\ exists more, rawText c' = rawText c ++ more.

(** A JSON text in which a second call is opened before the first one is
    closed. *)
Definition firstStart : str := js "{$type$:$function_call_start$,$name$:$first$}".
Definition argLine : str := js "{$type$:$function_call_arg$,$name$:$a$,$value$:1}".
Definition secondStart : str := js "{$type$:$function_call_start$,$name$:$second$}".
Definition endLine : str := js "{$type$:$function_call_end$}".
Definition twoStarts : str := join [LF] [firstStart; argLine; secondStart; endLine].

(** Two invocations with the same call_id in one buffer. *)
Definition xmlSameIdTwice : str :=
  js "<function_calls><invoke name=$a$ call_id=$1$></invoke><invoke name=$b$ call_id=$1$></invoke></function_calls>".

(** A closed container around an invocation that is not closed. *)
Definition xmlInvokeUnclosed : str :=
  js "<function_calls><invoke name=$read_file$ call_id=$1$><parameter name=$path$>/tmp/test.txt</parameter></function_calls>".

(** A closed container, then an open one. *)
Definition xmlClosedThenOpen : str :=
  js "<function_calls><invoke name=$a$ call_id=$1$></invoke></function_calls><function_calls><invoke name=$b$ call_id=$2$>".

(** Two invocations, neither of them closed, in an open container. *)
Definition xmlTwoUnclosed : str :=
  js "<function_calls><invoke name=$a$><parameter name=$x$>1<invoke name=$b$>".

(** The position of the first occurrence of [w] in [s]. *)
Fixpoint first_index_from (w s : str) (pos : nat) : option nat :=
  if startsWith s w then Some pos
  else match s with
       | [] => None
       | _ :: s' => first_index_from w s' (S pos)
       end.

Definition first_index (w s : str) : option nat := first_index_from w s 0.

(** The text of an opening invoke tag with a name and, if [cid] gives
    one, a call_id: [sp] and the first component of [cid] are the white
    space before the two attributes. *)
Definition openInvokeTag (sp name : str) (cid : option (str * str)) : str :=
  js "<invoke" ++ sp ++ js "name=$" ++ name ++ [DQUOTE]
    ++ match cid with
       | Some (sp', i) => sp' ++ js "call_id=$" ++ i ++ [DQUOTE]
       | None => []
       end
    ++ js ">".

(** A non-empty text without a double quote, and a non-empty text of
    white space. *)
Definition attribute_value (v : str) : bool :=
  negb (Nat.eqb (length v) 0) && forallb (fun x => negb (char_eqb x DQUOTE)) v.

Definition blank (sp : str) : bool :=
  negb (Nat.eqb (length sp) 0) && forallb is_space sp.

Definition well_formed_tag (sp name : str) (cid : option (str * str)) : bool :=
  blank sp && attribute_value name
  && match cid with
     | Some (sp', i) => blank sp' && attribute_value i
     | None => true
     end.

(** What the consumer has received, and what it has received for the
    element [n]. *)
Definition handed_over (o : outcome Extension) : list (DetectedToolCall * nat) :=
  match o with
  | Returns ext => injected ext
  | Throws _ => []
  end.

Definition handed (n : nat) (ext : Extension) : list DetectedToolCall :=
  map fst (filter (fun x => snd x = n) (injected ext)).

Definition complete_flag (o : outcome FunctionInfo) : option bool :=
  match o with
  | Returns fi => Some (isComplete fi)
  | Throws _ => None
  end.

Section Effects.

Variable Date_now : N -> N.
Variable Number_toString : number -> str.

(** What one line does to the loop of [parseJSONFormat]: nothing, or it
    opens a call with a newly generated identity, or it adds an argument
    to the open call, or it closes the open call. *)
Inductive line_effect (st : json_loop) (p : ToolCallParser) (line : str)
  : json_loop -> ToolCallParser -> Prop :=
| effect_skip :
    is_start_line line = false ->
    line_effect st p line st p
| effect_start name :
    is_start_line line = true ->
    truthy (Some name) = true ->
    line_effect st p line
      {| toolCalls := toolCalls st;
         currentCall :=
           Some {| id := generated_id Date_now (idCounter p); toolName := name;
                   arguments := emptyObject; rawText := trim line; format := format_json |} |}
      {| idCounter := idCounter p + 1 |}
| effect_arg cur key val :
    is_start_line line = false ->
    currentCall st = Some cur ->
    line_effect st p line
      {| toolCalls := toolCalls st;
         currentCall :=
           Some {| id := id cur; toolName := toolName cur;
                   arguments := assign (arguments cur) key val;
                   rawText := rawText cur ++ [LF] ++ trim line;
                   format := format cur |} |}
      p
| effect_end cur :
    is_start_line line = false ->
    is_end_line line = true ->
    currentCall st = Some cur ->
    line_effect st p line
      {| toolCalls := toolCalls st ++ [with_line cur (trim line)];
         currentCall := None |}
      p.

(** The three ways one element goes through a scan: it is skipped (it is
    in the ledger, or its text shows no tag), or it is parsed to nothing,
    or it is parsed to calls, which are all handed over, and the element
    enters the ledger. *)
Inductive block_effect (ext : Extension) (b : HTMLElement) : Extension -> Prop :=
| block_skipped : block_effect ext b ext
| block_empty p' :
    node b ∉ processedElements ext ->
    parseMessage Date_now Number_toString (default [] (textContent b)) (parser ext) = (Returns [], p') ->
    block_effect ext b
      {| parser := p'; processedElements := processedElements ext;
         injected := injected ext |}
| block_handed c calls p' :
    node b ∉ processedElements ext ->
    parseMessage Date_now Number_toString (default [] (textContent b)) (parser ext) = (Returns (c :: calls), p') ->
    block_effect ext b
      {| parser := p';
         processedElements := {[node b]} ∪ processedElements ext;
         injected := injected ext ++ map (fun x => (x, node b)) (c :: calls) |}.

(** Between two states of the extension, for the element [n]: the
    consumer has received nothing for it, or [n] has entered the ledger
    and the consumer has received the whole (non-empty) result of one
    parse of the text of a block [b] of that element, a block among those
    that [Q] admits. *)
Definition once (Q : HTMLElement -> Prop) (n : nat) (ext ext' : Extension) : Prop :=
  handed n ext' = handed n ext
  \/ ((n ∉ processedElements ext) /\ (n ∈ processedElements ext')
      /\ exists b p p' c calls,
           Q b /\ node b = n
           /\ parseMessage Date_now Number_toString (default [] (textContent b)) p
              = (Returns (c :: calls), p')
           /\ handed n ext' = handed n ext ++ c :: calls).

(** The ledger has only grown, and every element was served at most
    once. *)
Definition ledger_step (Q : HTMLElement -> Prop) (ext ext' : Extension) : Prop :=
  processedElements ext ⊆ processedElements ext' /\ forall n, once Q n ext ext'.

End Effects.

(** * More of the sources

    Functions that the preceding sections leave out, with the notions
    their properties are stated with. *)

(** ** [isJSONFunctionStreaming] (parsers/jsonFunctionParser.ts)

    The state of its loop is the pair of [hasStart] and [hasEnd]. *)
Definition streaming_step (acc : bool * bool) (line : str) : outcome (bool * bool) :=
  let '(hasStart, hasEnd) := acc in
  let* parsedOpt := parseJSONLine line in
  match parsedOpt with
  | None => Returns acc
  | Some parsed =>
      let* type := get parsed (js "type") in
      if is_string type (js "function_call_start") then Returns (true, hasEnd)
      else if is_string type (js "function_call_end") then Returns (hasStart, true)
      else Returns acc
  end.

Definition isJSONFunctionStreaming (content : str) : outcome bool :=
  let* r := ofold (split_lines content) streaming_step (false, false) in
  Returns (fst r && negb (snd r)).

(** ** The extractors of parsers/functionParser.ts *)

(** [/<parameter name=$([^$]+)$>(TEXT)<\/parameter>/gs] where TEXT is any
    number of [[^<]], greedy *)
Definition paramRegex : re :=
  seq [lit (js "<parameter name=$"); Group 1 (plus (not_chr DQUOTE)); lit (js "$>");
       Group 2 (star (not_chr 60)); lit (js "</parameter>")].

(** [parameters[paramName] = paramValue] on an object literal, for a
    value that is a string: the assignment to the key [__proto__] goes to
    the setter of [Object.prototype], which ignores a string. *)
Definition assign_text (parameters : record) (k v : str) : record :=
  if str_eqb k (js "__proto__") then parameters else record_set parameters k (JString v).

Definition extractXMLParameters (content : str) : record :=
  fold_left (fun parameters m => assign_text parameters (group m 1) (group m 2))
    (matchAll paramRegex content) [].

(** [/<invoke name=$([^$]+)$/] *)
Definition functionNameRegex : re :=
  seq [lit (js "<invoke name=$"); Group 1 (plus (not_chr DQUOTE)); chr DQUOTE].

Definition extractFunctionName (content : str) : option str :=
  match exec functionNameRegex content with
  | Some m => Some (group m 1)
  | None => None
  end.

(** [/call_id=$([^$]+)$/] *)
Definition callIdAttributeRegex : re :=
  seq [lit (js "call_id=$"); Group 1 (plus (not_chr DQUOTE)); chr DQUOTE].

Definition extractCallId (content : str) : option str :=
  match exec callIdAttributeRegex content with
  | Some m => Some (group m 1)
  | None => None
  end.

(** ** The earlier [ToolCallParser] (the copy of content/tool-parser.ts
    that content/mcp-modal.ts carries)

    It reads closed blocks only and gives every call a generated
    identity; its JSON reader and [parseValue] are those of the later
    class. *)
Module EarlierParser.

(** [/<invoke\s+name=$([^$]+)$[^>]*?>([\s\S]*?)<\/invoke>/gs] *)
Definition invokeRegex : re :=
  seq [lit (js "<invoke"); plus ws; lit (js "name=$");
       Group 1 (plus (not_chr DQUOTE)); chr DQUOTE;
       star_lazy (not_chr 62); chr 62;
       Group 2 (star_lazy any_char);
       lit (js "</invoke>")].

(** [/<parameter\s+name=$([^$]+)$>([\s\S]*?)<\/parameter>/gs] *)
Definition parameterRegex : re :=
  seq [lit (js "<parameter"); plus ws; lit (js "name=$");
       Group 1 (plus (not_chr DQUOTE)); lit (js "$>");
       Group 2 (star_lazy any_char);
       lit (js "</parameter>")].

Section Host.

Variable Date_now : N -> N.
Variable Number_toString : number -> str.

Notation "'do' x '<-' c ';' k" := (bind c (fun x => k))
  (at level 10, x pattern, c at level 100, k at level 200).

(** The body of the loop over the invoke blocks of one container. *)
Definition parseInvoke (toolCalls : list DetectedToolCall) (invokeMatch : rmatch_result)
  : M (list DetectedToolCall) :=
  let toolName := group invokeMatch 1 in
  let parametersContent := group invokeMatch 2 in
  do args <- for_of (matchAll parameterRegex parametersContent) parseParameter emptyObject;
  do newId <- generateId Date_now;
  ret (toolCalls ++ [{| id := newId; toolName := JString toolName;
                        arguments := args; rawText := m_text invokeMatch;
                        format := format_xml |}]).

Definition parseXMLFormat (text : str) : M (list DetectedToolCall) :=
  for_of (matchAll functionCallsRegex text)
    (fun toolCalls m => for_of (matchAll invokeRegex (group m 1)) parseInvoke toolCalls)
    [].

Definition parseMessage (text : str) : M (list DetectedToolCall) :=
  do xmlCalls <- parseXMLFormat text;
  match xmlCalls with
  | [] =>
      do jsonCalls <- parseJSONFormat Date_now Number_toString text;
      ret (xmlCalls ++ jsonCalls)
  | _ => ret xmlCalls
  end.

End Host.

End EarlierParser.

(** ** The later revision of content/index.ts

    Its scan goes over the [pre] elements only, cleans the text before it
    parses it, and marks the first [code] element below a served [pre]
    element as well. *)

Definition blockTags : list str :=
  map js ["xml"; "json"; "javascript"; "typescript"; "python"; "java"; "rust";
          "go"; "bash"; "shell"; "sh"]%string.

(** [/^(xml|json|javascript|typescript|python|java|rust|go|bash|shell|sh)\s*/i] *)
Definition blockTagRegex : re :=
  seq [Bol; Group 1 (alt (map lit_i blockTags)); star ws].

(** [/Copy code\s*/gi] *)
Definition copyCodeRegex : re := seq [lit_i (js "Copy code"); star ws].

Definition cleanCodeBlockText (text : str) : str :=
  let text := replace_first blockTagRegex [] text in
  let text := replace_all copyCodeRegex [] text in
  trim text.

(** A [pre] element: its identity, its text, and the identity of the
    first [code] element below it, when there is one. *)
Record PreElement := {
  pre_node : nat;
  pre_textContent : option str;
  pre_code : option nat
}.

Section LaterScan.

Variable Date_now : N -> N.
Variable Number_toString : number -> str.

(** The callback of [preBlocks.forEach]. *)
Definition scanPre (ext : Extension) (preElement : PreElement) : outcome Extension :=
  if bool_decide (pre_node preElement ∈ processedElements ext) then Returns ext
  else
    let text := default [] (pre_textContent preElement) in
    if negb (includes text (js "<function_calls>"))
       && negb (includes text (js "<invoke")) then Returns ext
    else
      let text := cleanCodeBlockText text in
      match parseMessage Date_now Number_toString text (parser ext) with
      | (Throws e, _) => Throws e
      | (Returns calls, parser') =>
          match calls with
          | [] =>
              Returns {| parser := parser';
                         processedElements := processedElements ext;
                         injected := injected ext |}
          | _ =>
              Returns {| parser := parser';
                         processedElements :=
                           match pre_code preElement with
                           | Some codeChild => {[codeChild]}
                           | None => ∅
                           end ∪ ({[pre_node preElement]} ∪ processedElements ext);
                         injected :=
                           injected ext
                             ++ map (fun c => (c, pre_node preElement)) calls |}
          end
      end.

(** [preBlocks] is what [document.querySelectorAll('pre')] returns at the
    time of the scan. *)
Definition scanForToolCalls_pre (preBlocks : list PreElement) (ext : Extension)
  : outcome Extension :=
  ofold preBlocks scanPre ext.

Definition scans_pre (snapshots : list (list PreElement)) (ext : Extension)
  : outcome Extension :=
  ofold snapshots (fun e blocks => scanForToolCalls_pre blocks e) ext.

End LaterScan.

(** ** The matches of a pattern, as a relation

    [rmatches n r s rest c c'] says that [r] matches the text [s] in front
    of [rest], in an input of length [n], and turns the captures [c] into
    [c']: every result of [rmatch] is of this kind. *)
Inductive rmatches (n : nat) : re -> str -> str -> caps -> caps -> Prop :=
| rm_eps rest c : rmatches n Eps [] rest c c
| rm_chr p x rest c : p x = true -> rmatches n (Chr p) [x] rest c c
| rm_seq a b s1 s2 rest c c1 c2 :
    rmatches n a s1 (s2 ++ rest) c c1 ->
    rmatches n b s2 rest c1 c2 ->
    rmatches n (Seq a b) (s1 ++ s2) rest c c2
| rm_alt_l a b s rest c c1 :
    rmatches n a s rest c c1 -> rmatches n (Alt a b) s rest c c1
| rm_alt_r a b s rest c c1 :
    rmatches n b s rest c c1 -> rmatches n (Alt a b) s rest c c1
| rm_star_nil g a rest c : rmatches n (Star g a) [] rest c c
| rm_star_cons g a s1 s2 rest c c1 c2 :
    rmatches n a s1 (s2 ++ rest) c c1 ->
    rmatches n (Star g a) s2 rest c1 c2 ->
    rmatches n (Star g a) (s1 ++ s2) rest c c2
| rm_group i a s rest c c1 :
    rmatches n a s rest c c1 ->
    rmatches n (Group i a) s rest c (set_cap i (Some s) c1)
| rm_bol rest c : length rest = n -> rmatches n Bol [] rest c c
| rm_eol c : rmatches n Eol [] [] c c.

(** [a] is a piece of [s]. *)
Definition piece_of (a s : str) : Prop := exists pre post, s = pre ++ a ++ post.

(** The capture [i], when the group took part. *)
Definition cap (c : caps) (i : nat) : option str :=
  match c !! i with
  | Some (Some g) => Some g
  | _ => None
  end.

(** The loop of a repetition, as [rmatch] runs it. *)
Definition star_loop
    (ma : (str -> caps -> option (str * caps)) -> str -> caps -> option (str * caps))
    (greedy : bool) (k : str -> caps -> option (str * caps))
  : nat -> str -> caps -> option (str * caps) :=
  fix loop (fuel : nat) (s : str) (c : caps) {struct fuel} :=
    match fuel with
    | O => k s c
    | S f =>
        let again (_ : unit) :=
          ma (fun s' c' =>
                if Nat.ltb (length s') (length s) then loop f s' c' else None) s c in
        if greedy then
          match again () with Some x => Some x | None => k s c end
        else
          match k s c with Some x => Some x | None => again () end
    end.

(** What a pattern matches is not empty and begins with a code unit that
    satisfies [P]. *)
Definition starts_with (P : char -> Prop) (r : re) : Prop :=
  forall n a b c1 c2, rmatches n r a b c1 c2 -> exists y a', a = y :: a' /\ P y.

(** An ASCII letter, of either case. *)
Definition is_letter (y : char) : bool :=
  N.leb 65 (fold_case y) && N.leb (fold_case y) 90.

(** The texts of a list begin with a letter. *)
Definition letter_first (l : list str) : bool :=
  forallb (fun t => match t with x :: _ => is_letter x | [] => false end) l.

(** ** More notions used in the statements *)

(** A name as the patterns of the sources capture one between double
    quotes: at least one code unit, none of them a double quote. *)
Definition attribute_text (n : str) : Prop := n <> [] /\ Forall (fun x => x <> DQUOTE) n.

(** The shape of a call that the XML reader of [ToolCallParser] takes
    from the text [text]. *)
Definition xml_call_of (text : str) (c : DetectedToolCall) : Prop :=
  format c = format_xml
  /\ (exists name, toolName c = JString name /\ attribute_text name)
  /\ attribute_text (id c)
  /\ startsWith (rawText c) (js "<invoke") = true
  /\ piece_of (rawText c) text.

(** The raw text of the call lies in the content of a closed container
    of the text. *)
Definition in_closed_container (text : str) (c : DetectedToolCall) : Prop :=
  exists g,
    piece_of (js "<function_calls>" ++ g ++ js "</function_calls>") text
    /\ piece_of (rawText c) g.

(** The lines of a text that open a call in the JSON reader of
    [ToolCallParser]. *)
Definition start_lines (text : str) : list str :=
  List.filter is_start_line (split_lines text).

(** The calls a state of the JSON loop holds: the pushed ones, then the
    open one. *)
Definition held (st : json_loop) : list DetectedToolCall :=
  toolCalls st ++ match currentCall st with Some cur => [cur] | None => [] end.

(** A call of the JSON reader: its format, and a name that is truthy. *)
Definition json_call (c : DetectedToolCall) : Prop :=
  format c = format_json /\ truthy (Some (toolName c)) = true.

(** The list of an optional value. *)
Definition olist {A} (o : option A) : list A :=
  match o with Some a => [a] | None => [] end.

(** The invariant of the JSON loop: the held calls carry identities
    generated at pairwise different counts, from [k0] on and below the
    counter. *)
Definition loop_inv (Date_now : N -> N) (k0 : N) (st : json_loop) (p : ToolCallParser)
  : Prop :=
  exists (ks : list N) (oc : option N),
    map id (toolCalls st) = map (generated_id Date_now) ks
    /\ option_map id (currentCall st) = option_map (generated_id Date_now) oc
    /\ NoDup (ks ++ olist oc)
    /\ Forall (fun k => k0 <= k < idCounter p) (ks ++ olist oc)
    /\ Forall json_call (held st).

(** The counts [k], [k+1], ..., [k+n-1]. *)
Fixpoint counts (k : N) (n : nat) : list N :=
  match n with
  | O => []
  | S n' => k :: counts (k + 1) n'
  end.

(** The line is one that [parseJSONLine] accepts, and its type is
    [kind]. *)
Definition line_has_type (kind : str) (line : str) : bool :=
  match parseJSONLine line with
  | Returns (Some (JObject props)) => is_string (record_get props (js "type")) kind
  | _ => false
  end.

(** The value that an accepted line gives for [call_id] is no object and
    no array (or the line is not accepted, or gives none). *)
Definition plain_call_id (line : str) : bool :=
  match parseJSONLine line with
  | Returns (Some (JObject props)) =>
      match record_get props (js "call_id") with
      | Some (JObject _) | Some (JArray _) => false
      | _ => true
      end
  | _ => true
  end.

(** An entry that [extractXMLParameters] takes from [content]: the name
    and the text of a closed parameter element of [content], the text
    without any opening angle bracket. *)
Definition parameter_of (content : str) (e : str * value) : Prop :=
  exists t,
    snd e = JString t
    /\ attribute_text (fst e) /\ (60 ∉ t)
    /\ piece_of (js "<parameter name=$" ++ fst e ++ js "$>" ++ t ++ js "</parameter>")
         content.

(** How often a code unit occurs in a text. *)
Definition count_char (x : char) (s : str) : nat := length (List.filter (N.eqb x) s).

(** A text with an opening brace and as many closing as opening braces. *)
Definition balanced (s : str) : Prop :=
  123 ∈ s /\ count_char 123 s = count_char 125 s.

(** The invariant of the loop of [reconstructJSONObjects]. *)
Definition reconstruct_inv (st : reconstruct_state) : Prop :=
  Forall balanced (reconstructed st)
  /\ braceDepth st
     = (Z.of_nat (count_char 123%N (currentObject st))
        - Z.of_nat (count_char 125%N (currentObject st)))%Z
  /\ inObject st = existsb (N.eqb 123) (currentObject st)
  /\ ~ balanced (currentObject st).

(** The lines [reconstructJSONObjects] keeps: trimmed, the empty ones
    left out. *)
Definition kept_lines (lines : list str) : list str :=
  List.filter (fun t => match t with [] => false | _ => true end) (map trim lines).

(** The text as a list of pieces, none for the empty text. *)
Definition nonempty_text (s : str) : list str :=
  match s with [] => [] | _ => [s] end.

(** The second invariant of the loop, after the lines [seen]: joined by
    single spaces, the pieces and the open text are the kept lines. *)
Definition reconstruct_text_inv (st : reconstruct_state) (seen : list str) : Prop :=
  join (js " ") (reconstructed st ++ nonempty_text (currentObject st))
  = join (js " ") (kept_lines seen)
  /\ (reconstructed st ++ nonempty_text (currentObject st) = [] <-> kept_lines seen = [])
  /\ (forall x t, currentObject st = x :: t -> is_space x = false).

(** The report of the classifier is coherent. *)
Definition coherent_report (fi : FunctionInfo) : Prop :=
  (hasFunctionCalls fi = true <-> detectedBlockType fi <> None)
  /\ (isComplete fi = true -> hasFunctionCalls fi = true /\ hasClosingTags fi = true)
  /\ (hasFunctionCalls fi = false ->
      isComplete fi = false /\ hasInvoke fi = false /\ hasParameters fi = false
      /\ invokeName fi = None /\ callId fi = None)
  /\ (detectedBlockType fi = Some (js "xml") ->
      partialTagDetected fi = false
      /\ match invokeName fi with
         | Some v => exists n, v = JString n /\ attribute_text n
         | None => True
         end
      /\ match callId fi with
         | Some c => attribute_text c
         | None => True
         end).

(** The ledger holds exactly the elements for which the consumer has
    received something. *)
Definition ledger_is_served (ext : Extension) : Prop :=
  forall n, n ∈ processedElements ext <-> handed n ext <> [].

(** The test of the scan: the text of the block shows one of the two
    tags. *)
Definition shows_tag (b : HTMLElement) : bool :=
  includes (default [] (textContent b)) (js "<function_calls>")
  || includes (default [] (textContent b)) (js "<invoke").

(** [includes] without regard to the case of the ASCII letters. *)
Fixpoint startsWith_i (s p : str) : bool :=
  match p, s with
  | [], _ => true
  | x :: p', y :: s' => char_eqb (fold_case y) (fold_case x) && startsWith_i s' p'
  | _ :: _, [] => false
  end.

Fixpoint includes_i (s p : str) : bool :=
  startsWith_i s p ||
  match s with
  | [] => false
  | _ :: s' => includes_i s' p
  end.

(** Between two states of the extension: the ledger has grown, the
    elements that were in it have received nothing, and every element
    that has received something is in it. *)
Definition served_once (a b : Extension) : Prop :=
  processedElements a ⊆ processedElements b
  /\ (forall n, n ∈ processedElements a -> handed n b = handed n a)
  /\ (forall n, handed n b <> handed n a -> n ∈ processedElements b).

(** ** More example texts *)

(** One object on one line with an object inside: the text up to the
    first closing brace, and the rest. *)
Definition nestedHead : str := js "{$type$:$function_call_start$,$name$:$t$,$args$:{$a$:1".
Definition nestedTail : str := js "}}".

(** A call that has begun: a start line and a parameter line. *)
Definition jsonTwoLines : str :=
  join [LF]
    [js "{$type$:$function_call_start$,$name$:$t$,$call_id$:$1$}";
     js "{$type$:$parameter$,$key$:$x$,$value$:5}"].

(** An opening tag of an invocation with both attributes. *)
Definition invokeTagText : str := js "<invoke name=$read_file$ call_id=$read_file$>".

(** What the classifier reports for [jsonTwoLines]. *)
Definition twoLinesInfo : FunctionInfo :=
  {| hasFunctionCalls := true; isComplete := false; hasInvoke := true;
     hasParameters := true; hasClosingTags := false; languageTag := None;
     detectedBlockType := Some (js "json"); partialTagDetected := false;
     invokeName := Some (JString (js "t")); callId := Some (js "1");
     fi_textContent := None; description := None |}.

(** A language normalizer that finds no tag and leaves the text alone. *)
Definition noLanguageTag (content : str) : LanguageTagResult :=
  {| tag := None; lt_content := None |}.

(** What [containsFunctionCalls] reports for [xmlComplete]. *)
Definition xmlCompleteInfo : FunctionInfo :=
  {| hasFunctionCalls := true; isComplete := true; hasInvoke := true;
     hasParameters := true; hasClosingTags := true; languageTag := None;
     detectedBlockType := Some (js "xml"); partialTagDetected := false;
     invokeName := Some (JString (js "read_file")); callId := Some (js "1");
     fi_textContent := None; description := None |}.

(** * Properties *)

(** ** Scenario 1 *)

(** C9: parsing the complete XML call of scenario 1 yields exactly one
    invocation, with identity 1 (the call_id of the text), tool name
    read_file and the argument path bound to the string /tmp/test.txt;
    this holds for every clock, number printer and parser state, and the
    parser state is left as it was. *)
Theorem scenario1_xml_complete :
  forall (Date_now : N -> N) (Number_toString : number -> str) (p : ToolCallParser),
    parseMessage Date_now Number_toString xmlComplete p =
    (Returns [{| id := js "1";
                 toolName := JString (js "read_file");
                 arguments := {| own := [(js "path", JString (js "/tmp/test.txt"))];
                                 proto := ObjectPrototype |};
                 rawText := js "<invoke name=$read_file$ call_id=$1$><parameter name=$path$>/tmp/test.txt</parameter></invoke>";
                 format := format_xml |}], p).
Proof. intros. vm_compute. reflexivity. Qed.

(** ** Strings and records *)

Lemma str_eqb_eq (a b : str) : str_eqb a b = true <-> a = b.
Proof.
  revert b; induction a as [|x a IH]; intros [|y b]; simpl; split;
    try congruence; try done.
  - intros H. apply andb_true_iff in H as [Hx Hab].
    apply N.eqb_eq in Hx. apply IH in Hab. by subst.
  - intros [= -> ->]. apply andb_true_iff; split.
    + apply N.eqb_refl.
    + by apply IH.
Qed.

Lemma str_eqb_refl (a : str) : str_eqb a a = true.
Proof. by apply str_eqb_eq. Qed.

Lemma str_eqb_neq (a b : str) : a <> b -> str_eqb a b = false.
Proof.
  intros H. destruct (str_eqb a b) eqn:E; [|done].
  by apply str_eqb_eq in E.
Qed.

Lemma record_get_update (r : record) (k k' : str) (v : value) :
  record_get (record_update r k v) k'
  = if str_eqb k k' then option_map (fun _ => v) (record_get r k) else record_get r k'.
Proof.
  induction r as [|[k0 v0] r IH]; simpl; [by destruct (str_eqb k k')|].
  destruct (str_eqb k0 k) eqn:E; simpl.
  - apply str_eqb_eq in E. subst k0. by destruct (str_eqb k k').
  - rewrite IH. destruct (str_eqb k k') eqn:E'; [|done].
    apply str_eqb_eq in E'. subst k'. by rewrite E.
Qed.

Lemma record_get_insert (r : record) (k k' : str) (v : value) :
  hasOwnProperty r k = false ->
  record_get (record_insert r k v) k'
  = if str_eqb k k' then Some v else record_get r k'.
Proof.
  unfold hasOwnProperty. induction r as [|[k0 v0] r IH]; intros Hk; simpl in *; [done|].
  destruct (str_eqb k0 k) eqn:E; [done|].
  destruct (enumerated_before k k0); simpl; [done|].
  rewrite IH by done. destruct (str_eqb k k') eqn:E'; [|done].
  apply str_eqb_eq in E'. subst k'. by rewrite E.
Qed.

Lemma record_get_set_eq (r : record) (k : str) (v : value) :
  record_get (record_set r k v) k = Some v.
Proof.
  unfold record_set. destruct (hasOwnProperty r k) eqn:E.
  - rewrite record_get_update, str_eqb_refl. unfold hasOwnProperty in E.
    by destruct (record_get r k).
  - by rewrite record_get_insert, str_eqb_refl.
Qed.

Lemma record_get_set_ne (r : record) (k k' : str) (v : value) :
  k' <> k -> record_get (record_set r k v) k' = record_get r k'.
Proof.
  intros Hne. unfold record_set. destruct (hasOwnProperty r k) eqn:E.
  - rewrite record_get_update, str_eqb_neq; [done|congruence].
  - rewrite record_get_insert, str_eqb_neq; [done|congruence|done].
Qed.

Lemma hasOwnProperty_set (r : record) (k k' : str) (v : value) :
  hasOwnProperty (record_set r k v) k'
  = if str_eqb k k' then true else hasOwnProperty r k'.
Proof.
  destruct (str_eqb k k') eqn:E.
  - apply str_eqb_eq in E. subst k'. unfold hasOwnProperty.
    by rewrite record_get_set_eq.
  - unfold hasOwnProperty. rewrite record_get_set_ne; [done|].
    intros ->. by rewrite str_eqb_refl in E.
Qed.

Lemma record_update_keys (r : record) (k : str) (v : value) :
  map fst (record_update r k v) = map fst r.
Proof.
  induction r as [|[k0 v0] r IH]; simpl; [done|].
  destruct (str_eqb k0 k); simpl; [done|by rewrite IH].
Qed.

Lemma record_insert_keys (r : record) (k : str) (v : value) :
  map fst (record_insert r k v) ≡ₚ k :: map fst r.
Proof.
  induction r as [|[k0 v0] r IH]; simpl; [done|].
  destruct (enumerated_before k k0); simpl; [done|].
  rewrite IH. apply Permutation_swap.
Qed.

(** A key that is there keeps its place; a new key that is no array index
    goes after all the keys. *)
Lemma record_set_keys (r : record) (k : str) (v : value) :
  map fst (record_set r k v) ≡ₚ if hasOwnProperty r k then map fst r else k :: map fst r.
Proof.
  unfold record_set. destruct (hasOwnProperty r k).
  - by rewrite record_update_keys.
  - apply record_insert_keys.
Qed.

Lemma record_set_keys_old (r : record) (k : str) (v : value) :
  hasOwnProperty r k = true -> map fst (record_set r k v) = map fst r.
Proof. unfold record_set. intros ->. apply record_update_keys. Qed.

Lemma record_set_keys_new (r : record) (k : str) (v : value) :
  hasOwnProperty r k = false -> array_index k = None ->
  map fst (record_set r k v) = map fst r ++ [k].
Proof.
  unfold record_set. intros -> Hk. clear -Hk.
  induction r as [|[k0 v0] r IH]; simpl; [done|].
  unfold enumerated_before. rewrite Hk. simpl. by rewrite IH.
Qed.

(** ** The fuel of [JSON_parse] *)

Section JsonFuel.

Lemma skip_ws_length (s : str) : (length (skip_ws s) <= length s)%nat.
Proof.
  induction s as [|c s IH]; simpl; [lia|]. destruct (is_json_ws c); simpl; lia.
Qed.

Lemma hex4_length (s : str) (u : char) (r : str) :
  hex4 s = Some (u, r) -> (length r < length s)%nat.
Proof.
  unfold hex4. destruct s as [|a [|b [|c [|d s']]]]; try done.
  destruct (hex_val a), (hex_val b), (hex_val c), (hex_val d); try done.
  intros [= _ <-]. simpl. lia.
Qed.

Lemma parse_string_body_length (f : nat) (s acc key r : str) :
  parse_string_body f s acc = Some (key, r) -> (length r < length s)%nat.
Proof.
  revert s acc; induction f as [|f IH]; intros s acc; simpl; [done|].
  destruct s as [|c s']; [done|].
  destruct (c =? 34); [intros [= _ <-]; simpl; lia|].
  destruct (c =? 92).
  - destruct s' as [|e s'']; [done|].
    repeat (match goal with
            | |- context [if ?b then _ else _] => destruct b
            end;
            [intros H; apply IH in H; simpl; lia|]).
    destruct (e =? 117); [|done].
    destruct (hex4 s'') as [[u s3]|] eqn:Hh; [|done].
    intros H. apply IH in H. apply hex4_length in Hh. simpl. lia.
  - destruct (c <? 32); [done|]. intros H. apply IH in H. simpl. lia.
Qed.

Lemma take_digits_length (s d r : str) :
  take_digits s = (d, r) -> (length d + length r = length s)%nat.
Proof.
  revert d r; induction s as [|c s IH]; intros d r; simpl.
  - intros [= <- <-]. done.
  - destruct (is_digit c).
    + destruct (take_digits s) as [d' r'] eqn:E. intros [= <- <-].
      specialize (IH _ _ eq_refl). simpl. lia.
    + intros [= <- <-]. simpl. lia.
Qed.

Lemma parse_number_length (s : str) (n : number) (r : str) :
  parse_number s = Some (n, r) -> (length r < length s)%nat.
Proof.
  unfold parse_number.
  set (sg := match s with c :: s' => if c =? 45 then (true, s') else (false, s) | [] => (false, s) end).
  assert (Hsg : (length (snd sg) <= length s)%nat).
  { subst sg. destruct s as [|c s']; simpl; [lia|]. destruct (c =? 45); simpl; lia. }
  destruct sg as [neg s1]. simpl in Hsg.
  destruct (take_digits s1) as [ip s2] eqn:E1. apply take_digits_length in E1.
  destruct ip as [|d0 ip']; [done|]. simpl in E1.
  destruct (_ && _); [done|].
  set (fr := match s2 with c :: s' => _ | [] => _ end).
  assert (Hfr : forall fp s3, fr = Some (fp, s3) -> (length s3 <= length s2)%nat).
  { subst fr. intros fp s3. destruct s2 as [|c s']; [intros [= _ <-]; done|].
    destruct (c =? 46).
    - destruct (take_digits s') as [fp' s3'] eqn:E2. apply take_digits_length in E2.
      destruct fp'; [done|]. intros [= _ <-]. simpl in *. lia.
    - intros [= _ <-]. done. }
  destruct fr as [[fp s3]|]; [|done]. specialize (Hfr _ _ eq_refl).
  set (ex := match s3 with c :: s' => _ | [] => _ end).
  assert (Hex : forall e s5, ex = Some (e, s5) -> (length s5 <= length s3)%nat).
  { subst ex. intros e s5. destruct s3 as [|c s']; [intros [= _ <-]; done|].
    destruct (_ || _); [|intros [= _ <-]; done].
    set (sg2 := match s' with g :: s'' => _ | [] => _ end).
    assert (Hsg2 : (length (snd sg2) <= length s')%nat).
    { subst sg2. destruct s' as [|g s'']; simpl; [lia|].
      destruct (g =? 45); simpl; [lia|]. destruct (g =? 43); simpl; lia. }
    destruct sg2 as [eneg s4]. simpl in Hsg2.
    destruct (take_digits s4) as [ep s5'] eqn:E3. apply take_digits_length in E3.
    destruct ep; [done|]. intros [= _ <-]. simpl in *. lia. }
  destruct ex as [[e s5]|]; [|done]. specialize (Hex _ _ eq_refl).
  intros [= _ <-]. lia.
Qed.

Lemma parse_value_S (f : nat) (s : str) :
  parse_value (S f) s =
  match skip_ws s with
  | [] => None
  | c :: s' =>
      if c =? 123 then
        match skip_ws s' with
        | c' :: s'' => if c' =? 125 then Some (JObject [], s'')
                       else parse_members f (skip_ws s') []
        | [] => None
        end
      else if c =? 91 then
        match skip_ws s' with
        | c' :: s'' => if c' =? 93 then Some (JArray [], s'')
                       else parse_elements f (skip_ws s') []
        | [] => None
        end
      else if c =? 34 then
        match parse_string_body (S (length s')) s' [] with
        | Some (str, rest) => Some (JString str, rest)
        | None => None
        end
      else if startsWith (c :: s') (js "true") then Some (JBool true, drop 4 (c :: s'))
      else if startsWith (c :: s') (js "false") then Some (JBool false, drop 5 (c :: s'))
      else if startsWith (c :: s') (js "null") then Some (JNull, drop 4 (c :: s'))
      else match parse_number (c :: s') with
           | Some (n, rest) => Some (JNumber n, rest)
           | None => None
           end
  end.
Proof. reflexivity. Qed.

Lemma parse_members_S (f : nat) (s : str) (acc : record) :
  parse_members (S f) s acc =
  match skip_ws s with
  | q :: s1 =>
      if q =? 34 then
        match parse_string_body (S (length s1)) s1 [] with
        | Some (key, s2) =>
            match skip_ws s2 with
            | colon :: s3 =>
                if colon =? 58 then
                  match parse_value f s3 with
                  | Some (v, s4) =>
                      match skip_ws s4 with
                      | d :: s5 =>
                          if d =? 44 then parse_members f s5 (record_set acc key v)
                          else if d =? 125 then Some (JObject (record_set acc key v), s5)
                          else None
                      | [] => None
                      end
                  | None => None
                  end
                else None
            | [] => None
            end
        | None => None
        end
      else None
  | [] => None
  end.
Proof. reflexivity. Qed.

Lemma parse_elements_S (f : nat) (s : str) (acc : list value) :
  parse_elements (S f) s acc =
  match parse_value f s with
  | Some (v, s1) =>
      match skip_ws s1 with
      | d :: s2 =>
          if d =? 44 then parse_elements f s2 (acc ++ [v])
          else if d =? 93 then Some (JArray (acc ++ [v]), s2)
          else None
      | [] => None
      end
  | None => None
  end.
Proof. reflexivity. Qed.

Local Arguments parse_string_body : simpl never.
Local Arguments parse_number : simpl never.
Local Arguments startsWith : simpl never.
Local Arguments drop : simpl never.

Lemma parse_value_length (f : nat) :
  (forall s v r, parse_value f s = Some (v, r) -> (length r < length s)%nat)
  /\ (forall s acc v r, parse_members f s acc = Some (v, r) -> (length r < length s)%nat)
  /\ (forall s acc v r, parse_elements f s acc = Some (v, r) -> (length r < length s)%nat).
Proof.
  induction f as [|f (IHv & IHm & IHe)]; [by repeat split|].
  split; [|split].
  - intros s v r. rewrite parse_value_S. pose proof (skip_ws_length s) as Hs.
    destruct (skip_ws s) as [|c s'] eqn:E; [done|]. simpl in Hs.
    destruct (c =? 123).
    { pose proof (skip_ws_length s') as Hs'.
      destruct (skip_ws s') as [|c' s''] eqn:E'; [done|]. simpl in Hs'.
      destruct (c' =? 125); [intros [= _ <-]; lia|].
      intros H. apply IHm in H.
      pose proof (skip_ws_length (c' :: s'')). simpl in *. lia. }
    destruct (c =? 91).
    { pose proof (skip_ws_length s') as Hs'.
      destruct (skip_ws s') as [|c' s''] eqn:E'; [done|]. simpl in Hs'.
      destruct (c' =? 93); [intros [= _ <-]; lia|].
      intros H. apply IHe in H.
      pose proof (skip_ws_length (c' :: s'')). simpl in *. lia. }
    destruct (c =? 34).
    { destruct (parse_string_body (S (length s')) s' []) as [[t rest]|] eqn:Hb; [|done].
      apply parse_string_body_length in Hb. intros [= _ <-]. lia. }
    destruct (startsWith _ (js "true")).
    { intros [= _ <-]. rewrite length_drop. simpl. lia. }
    destruct (startsWith _ (js "false")).
    { intros [= _ <-]. rewrite length_drop. simpl. lia. }
    destruct (startsWith _ (js "null")).
    { intros [= _ <-]. rewrite length_drop. simpl. lia. }
    destruct (parse_number (c :: s')) as [[n rest]|] eqn:Hnum; [|done].
    apply parse_number_length in Hnum. intros [= _ <-]. simpl in *. lia.
  - intros s acc v r. rewrite parse_members_S. pose proof (skip_ws_length s) as Hs.
    destruct (skip_ws s) as [|q s1] eqn:E; [done|]. simpl in Hs.
    destruct (q =? 34); [|done].
    destruct (parse_string_body (S (length s1)) s1 []) as [[key s2]|] eqn:Hb; [|done].
    apply parse_string_body_length in Hb.
    pose proof (skip_ws_length s2) as Hs2.
    destruct (skip_ws s2) as [|colon s3] eqn:E2; [done|]. simpl in Hs2.
    destruct (colon =? 58); [|done].
    destruct (parse_value f s3) as [[v' s4]|] eqn:Hv; [|done]. apply IHv in Hv.
    pose proof (skip_ws_length s4) as Hs4.
    destruct (skip_ws s4) as [|d s5] eqn:E4; [done|]. simpl in Hs4.
    destruct (d =? 44); [intros H; apply IHm in H; lia|].
    destruct (d =? 125); [|done]. intros [= _ <-]. lia.
  - intros s acc v r. rewrite parse_elements_S.
    destruct (parse_value f s) as [[v' s1]|] eqn:Hv; [|done]. apply IHv in Hv.
    pose proof (skip_ws_length s1) as Hs1.
    destruct (skip_ws s1) as [|d s2] eqn:E1; [done|]. simpl in Hs1.
    destruct (d =? 44); [intros H; apply IHe in H; lia|].
    destruct (d =? 93); [|done]. intros [= _ <-]. lia.
Qed.

(** One more unit of fuel changes nothing once the fuel exceeds twice the
    length of the text. *)
Lemma parse_value_fuel_step (f : nat) :
  (forall s, (2 * length s + 1 <= f)%nat -> parse_value (S f) s = parse_value f s)
  /\ (forall s acc, (2 * length s + 2 <= f)%nat ->
        parse_members (S f) s acc = parse_members f s acc)
  /\ (forall s acc, (2 * length s + 2 <= f)%nat ->
        parse_elements (S f) s acc = parse_elements f s acc).
Proof.
  induction f as [|f (IHv & IHm & IHe)]; [repeat split; intros; lia|].
  split; [|split].
  - intros s Hf. rewrite (parse_value_S (S f)), (parse_value_S f).
    pose proof (skip_ws_length s) as Hs.
    destruct (skip_ws s) as [|c s'] eqn:E; [done|]. simpl in Hs.
    pose proof (skip_ws_length s') as Hs'.
    destruct (c =? 123).
    { destruct (skip_ws s') as [|c' s''] eqn:E'; [done|].
      destruct (c' =? 125); [done|]. apply IHm. simpl in *. lia. }
    destruct (c =? 91); [|done].
    destruct (skip_ws s') as [|c' s''] eqn:E'; [done|].
    destruct (c' =? 93); [done|]. apply IHe. simpl in *. lia.
  - intros s acc Hf. rewrite (parse_members_S (S f)), (parse_members_S f).
    pose proof (skip_ws_length s) as Hs.
    destruct (skip_ws s) as [|q s1] eqn:E; [done|]. simpl in Hs.
    destruct (q =? 34); [|done].
    destruct (parse_string_body (S (length s1)) s1 []) as [[key s2]|] eqn:Hb; [|done].
    apply parse_string_body_length in Hb.
    pose proof (skip_ws_length s2) as Hs2.
    destruct (skip_ws s2) as [|colon s3] eqn:E2; [done|]. simpl in Hs2.
    destruct (colon =? 58); [|done].
    rewrite IHv by lia.
    destruct (parse_value f s3) as [[v' s4]|] eqn:Hv; [|done].
    apply (proj1 (parse_value_length f)) in Hv.
    pose proof (skip_ws_length s4) as Hs4.
    destruct (skip_ws s4) as [|d s5] eqn:E4; [done|]. simpl in Hs4.
    destruct (d =? 44); [|done]. apply IHm. lia.
  - intros s acc Hf. rewrite (parse_elements_S (S f)), (parse_elements_S f).
    rewrite IHv by lia.
    destruct (parse_value f s) as [[v' s1]|] eqn:Hv; [|done].
    apply (proj1 (parse_value_length f)) in Hv.
    pose proof (skip_ws_length s1) as Hs1.
    destruct (skip_ws s1) as [|d s2] eqn:E1; [done|]. simpl in Hs1.
    destruct (d =? 44); [|done]. apply IHe. lia.
Qed.

(** So [JSON_parse] never fails for want of fuel: any larger fuel gives the
    same result. *)
Lemma JSON_parse_fuel (text : str) (extra : nat) :
  parse_value (extra + (2 * length text + 2)) text
  = parse_value (2 * length text + 2) text.
Proof.
  induction extra as [|extra IH]; [done|].
  rewrite <- IH. apply parse_value_fuel_step. lia.
Qed.

End JsonFuel.

(** ** Generated identities *)

Lemma digits_fuel_app (f : nat) (n : N) (acc : str) :
  digits_fuel f n acc = digits_fuel f n [] ++ acc.
Proof.
  revert n acc; induction f as [|f IH]; intros n acc; simpl; [done|].
  destruct (n <? 10); [done|].
  rewrite (IH _ (_ :: acc)), (IH _ [_]). by rewrite <- app_assoc.
Qed.

Lemma digits_fuel_digits (f : nat) (n : N) : digits_only (digits_fuel f n []).
Proof.
  revert n; induction f as [|f IH]; intros n; simpl; [constructor|].
  assert (Hd : 48 <= 48 + n mod 10 <= 57).
  { assert (Hm : n mod 10 < 10) by (by apply N.mod_upper_bound).
    revert Hm. generalize (n mod 10). lia. }
  destruct (n <? 10).
  - constructor; [exact Hd|constructor].
  - rewrite digits_fuel_app. apply Forall_app; split; [apply IH|].
    constructor; [exact Hd|constructor].
Qed.

Lemma str_value_app (a : str) (c : char) :
  str_value (a ++ [c]) = str_value a * 10 + (c - 48).
Proof. unfold str_value. by rewrite fold_left_app. Qed.

Lemma digits_fuel_value (f : nat) (n : N) :
  n < 2 ^ N.of_nat f -> str_value (digits_fuel f n []) = n.
Proof.
  revert n; induction f as [|f IH]; intros n Hn.
  - simpl in *. unfold str_value. simpl. lia.
  - simpl. destruct (n <? 10) eqn:E.
    + apply N.ltb_lt in E. unfold str_value; simpl.
      rewrite N.mod_small by done. lia.
    + apply N.ltb_ge in E. rewrite digits_fuel_app, str_value_app.
      rewrite IH.
      * assert (Hdm : n = 10 * (n / 10) + n mod 10) by (by apply N.div_mod).
        revert Hdm. generalize (n / 10) (n mod 10). lia.
      * rewrite Nat2N.inj_succ, N.pow_succ_r' in Hn.
        apply N.Div0.div_lt_upper_bound. lia.
Qed.

Lemma N_to_str_value (n : N) : str_value (N_to_str n) = n.
Proof.
  unfold N_to_str. apply digits_fuel_value.
  rewrite Nat2N.inj_succ, N2Nat.id.
  destruct n as [|p]; [done|]. apply N.log2_spec. lia.
Qed.

Lemma N_to_str_inj (a b : N) : N_to_str a = N_to_str b -> a = b.
Proof.
  intros H. rewrite <- (N_to_str_value a), <- (N_to_str_value b). by rewrite H.
Qed.

Lemma N_to_str_digits (n : N) : digits_only (N_to_str n).
Proof. apply digits_fuel_digits. Qed.

(** Two texts cut at their first hyphen agree part by part. *)
Lemma split_at_hyphen (a a' b b' : str) :
  digits_only a -> digits_only a' ->
  a ++ 45 :: b = a' ++ 45 :: b' -> a = a' /\ b = b'.
Proof.
  revert a'; induction a as [|x a IH]; intros [|y a'] Ha Ha' H; simpl in H.
  - by injection H.
  - injection H as E _. inversion Ha' as [|? ? Hy _]; subst. lia.
  - injection H as E _. inversion Ha as [|? ? Hx _]; subst. lia.
  - injection H as E H. inversion Ha; inversion Ha'; subst.
    destruct (IH a') as [-> ->]; done.
Qed.

Lemma generated_id_inj (Date_now : N -> N) (j k : N) :
  generated_id Date_now j = generated_id Date_now k -> j = k.
Proof.
  unfold generated_id. intros H. apply app_inv_head in H.
  change (js "-") with [45] in H. simpl in H.
  apply split_at_hyphen in H; try apply N_to_str_digits.
  destruct H as [_ H]. by apply N_to_str_inj.
Qed.

(** ** The parser never throws *)

Section ParserFacts.

Variable Date_now : N -> N.
Variable Number_toString : number -> str.

Lemma safe_ret {A} (a : A) : safe (ret a).
Proof. intros p. exists a, p. split; [done|lia]. Qed.

Lemma safe_bind {A B} (m : M A) (k : A -> M B) :
  safe m -> (forall a, safe (k a)) -> safe (bind m k).
Proof.
  intros Hm Hk p. destruct (Hm p) as (a & p1 & E1 & L1).
  destruct (Hk a p1) as (b & p2 & E2 & L2).
  exists b, p2. unfold bind. rewrite E1, E2. split; [done|lia].
Qed.

Lemma safe_generateId : safe (generateId Date_now).
Proof. intros p. eexists _, _. split; [reflexivity|]. simpl. lia. Qed.

Lemma safe_for_of {A S} (l : list A) (body : S -> A -> M S) (acc : S) :
  (forall acc x, safe (body acc x)) -> safe (for_of l body acc).
Proof.
  intros Hb. revert acc. induction l as [|x l IH]; intros acc; simpl.
  - apply safe_ret.
  - apply safe_bind; [apply Hb|]. intros a. apply IH.
Qed.

Lemma parseValue_returns (v : str) :
  parseValue v = Returns (match JSON_parse v with
                          | Returns parsed => parsed
                          | Throws _ => JString v
                          end).
Proof. unfold parseValue. by destruct (JSON_parse v). Qed.

Lemma safe_parseParameter (args : object) (m : rmatch_result) :
  safe (parseParameter args m).
Proof.
  unfold parseParameter. apply safe_bind.
  - intros p. rewrite parseValue_returns. eexists _, p. split; [reflexivity|lia].
  - intros a. apply safe_ret.
Qed.

Lemma safe_parseInvoke (calls : list DetectedToolCall) (m : rmatch_result) :
  safe (parseInvoke Date_now calls m).
Proof.
  unfold parseInvoke. apply safe_bind.
  - destruct (group m 2); [apply safe_generateId|apply safe_ret].
  - intros callId. apply safe_bind.
    + apply safe_for_of. apply safe_parseParameter.
    + intros args. apply safe_ret.
Qed.

(** Every match of the invoke pattern gives one call, whose raw text is
    the text of the match. *)
Lemma parseInvoke_result (calls : list DetectedToolCall) (m : rmatch_result)
    (p : ToolCallParser) :
  exists c p',
    parseInvoke Date_now calls m p = (Returns (calls ++ [c]), p')
    /\ rawText c = m_text m /\ toolName c = JString (group m 1).
Proof.
  unfold parseInvoke, bind.
  assert (Hid : safe (match group m 2 with
                      | [] => generateId Date_now
                      | c :: l => ret (c :: l)
                      end)).
  { destruct (group m 2); [apply safe_generateId|apply safe_ret]. }
  destruct (Hid p) as (callId & p1 & E1 & _). rewrite E1.
  destruct (safe_for_of (matchAll parameterRegex (group m 3)) parseParameter emptyObject
              safe_parseParameter p1) as (args & p2 & E2 & _).
  rewrite E2. by eexists _, _.
Qed.

Lemma parseInvokeBlocks_result (content : str) (calls : list DetectedToolCall)
    (p : ToolCallParser) :
  exists new p',
    parseInvokeBlocks Date_now content calls p = (Returns (calls ++ new), p')
    /\ map rawText new = map m_text (matchAll invokeRegex content).
Proof.
  unfold parseInvokeBlocks. revert calls p.
  induction (matchAll invokeRegex content) as [|m ms IH]; intros calls p; simpl.
  - exists [], p. by rewrite app_nil_r.
  - destruct (parseInvoke_result calls m p) as (c & p1 & E1 & Hraw & _).
    unfold bind. rewrite E1.
    destruct (IH (calls ++ [c]) p1) as (new & p' & E & Hnew).
    exists (c :: new), p'. rewrite E, <- app_assoc. simpl.
    by rewrite Hraw, Hnew.
Qed.

Lemma safe_parseInvokeBlocks (content : str) (calls : list DetectedToolCall) :
  safe (parseInvokeBlocks Date_now content calls).
Proof. apply safe_for_of. apply safe_parseInvoke. Qed.

Lemma safe_parseXMLFormat (text : str) : safe (parseXMLFormat Date_now text).
Proof.
  unfold parseXMLFormat. destruct (matchAll functionCallsRegex text) as [|m ms].
  - destruct (exec incompleteFunctionCallsRegex text).
    + apply safe_parseInvokeBlocks.
    + apply safe_ret.
  - apply safe_for_of. intros acc x. apply safe_parseInvokeBlocks.
Qed.


Lemma parseJSONFormat_line_effect (st : json_loop) (line : str) (p : ToolCallParser) :
  exists st' p',
    parseJSONFormat_line Date_now Number_toString st line p = (Returns st', p')
    /\ line_effect Date_now st p line st' p'.
Proof.
  unfold parseJSONFormat_line, is_start_line, is_end_line.
  destruct (startsWith (trim line) (js "{")) eqn:Hs; simpl.
  2: { exists st, p. split; [done|]. apply effect_skip.
       unfold is_start_line, line_type_is. by rewrite Hs. }
  unfold try_catch_M, parseJSONFormat_try, bind, lift.
  destruct (JSON_parse (trim line)) as [parsed|e] eqn:Hp.
  2: { exists st, p. split; [done|]. apply effect_skip.
       unfold is_start_line, line_type_is. by rewrite Hs, Hp. }
  destruct (get parsed (js "type")) as [type|e] eqn:Ht.
  2: { exists st, p. split; [done|]. apply effect_skip.
       unfold is_start_line, line_type_is. by rewrite Hs, Hp, Ht. }
  destruct (get parsed (js "name")) as [name|e] eqn:Hn.
  2: { exists st, p. split; [done|]. apply effect_skip.
       unfold is_start_line, line_type_is. by rewrite Hs, Hp, Ht, Hn. }
  destruct (get parsed (js "value")) as [val|e] eqn:Hv.
  2: { destruct parsed; simpl in *; congruence. }
  assert (Hstart : is_start_line line =
                   is_string type (js "function_call_start") && truthy name).
  { unfold is_start_line, line_type_is. by rewrite Hs, Hp, Ht, Hn. }
  assert (Hend : is_end_line line = is_string type (js "function_call_end")).
  { unfold is_end_line, line_type_is. rewrite Hs, Hp, Ht, Hn. simpl.
    by rewrite andb_true_r. }
  destruct (is_string type (js "function_call_start") && truthy name) eqn:Hc; simpl.
  { eexists _, _. split; [reflexivity|]. apply effect_start; [done|].
    apply andb_true_iff in Hc as [_ Hc]. by destruct name. }
  destruct (currentCall st) as [cur|] eqn:Hcur.
  2: { exists st, p. split; [done|]. by apply effect_skip. }
  destruct (is_string type (js "function_call_arg") && truthy name
            && bool_decide (is_Some val)) eqn:Ha.
  { destruct (ToString Number_toString (default JNull name)) as [key|e] eqn:Hk; simpl.
    - eexists _, _. split; [reflexivity|].
      unfold with_line; simpl. by apply effect_arg.
    - exists st, p. split; [done|]. by apply effect_skip. }
  destruct (is_string type (js "function_call_end")) eqn:He; simpl.
  { eexists _, _. split; [reflexivity|]. by apply effect_end. }
  exists st, p. split; [done|]. by apply effect_skip.
Qed.

Lemma line_effect_counter st p line st' p' :
  line_effect Date_now st p line st' p' -> idCounter p <= idCounter p'.
Proof. destruct 1; simpl; lia. Qed.

Lemma safe_parseJSONFormat_line (st : json_loop) (line : str) :
  safe (parseJSONFormat_line Date_now Number_toString st line).
Proof.
  intros p. destruct (parseJSONFormat_line_effect st line p) as (st' & p' & E & H).
  exists st', p'. split; [done|]. by eapply line_effect_counter.
Qed.

Lemma safe_parseJSONFormat (text : str) :
  safe (parseJSONFormat Date_now Number_toString text).
Proof.
  unfold parseJSONFormat. apply safe_bind.
  - apply safe_for_of. apply safe_parseJSONFormat_line.
  - intros st. destruct (currentCall st) as [cur|]; [|apply safe_ret].
    destruct (truthy (Some (toolName cur))); apply safe_ret.
Qed.

Lemma safe_parseMessage (text : str) :
  safe (parseMessage Date_now Number_toString text).
Proof.
  unfold parseMessage. apply safe_bind; [apply safe_parseXMLFormat|].
  intros [|c l]; [|apply safe_ret].
  apply safe_bind; [apply safe_parseJSONFormat|]. intros a. apply safe_ret.
Qed.

End ParserFacts.

(** C6: parsing is total. For every text, clock, number printer and
    parser state [parseMessage] returns a list of calls and throws
    nothing; [parseJSONLine] returns for every line, and returns null for
    a line whose JSON does not parse; the JSON loop of the parser leaves
    its state as it was on such a line; [parseValue] gives back the raw
    text as a string when the text is no JSON. *)
Theorem parse_is_total :
  forall (Date_now : N -> N) (Number_toString : number -> str),
    (forall text p, exists calls p',
        parseMessage Date_now Number_toString text p = (Returns calls, p'))
    /\ (forall line, exists r, parseJSONLine line = Returns r)
    /\ (forall line e,
          JSON_parse (stripLanguageTags (trim line)) = Throws e ->
          parseJSONLine line = Returns None)
    /\ (forall st line e p,
          JSON_parse (trim line) = Throws e ->
          parseJSONFormat_line Date_now Number_toString st line p = (Returns st, p))
    /\ (forall v e, JSON_parse v = Throws e -> parseValue v = Returns (JString v)).
Proof.
  intros Date_now Number_toString. repeat split.
  - intros text p.
    destruct (safe_parseMessage Date_now Number_toString text p) as (c & p' & E & _).
    by exists c, p'.
  - intros line. unfold parseJSONLine, try_catch.
    destruct (trim line); [by eexists|].
    destruct (stripLanguageTags _); [by eexists|].
    destruct (JSON_parse _) as [parsed|]; simpl; [|by eexists].
    destruct (get parsed _) as [[v|]|]; simpl; try by eexists.
    destruct v as [| | |t| |]; try by eexists.
    destruct t; by eexists.
  - intros line e H. unfold parseJSONLine, try_catch.
    destruct (trim line); [done|].
    destruct (stripLanguageTags _); [done|]. by rewrite H.
  - intros st line e p H. unfold parseJSONFormat_line.
    destruct (startsWith _ _); simpl; [|done].
    unfold try_catch_M, parseJSONFormat_try, bind, lift. by rewrite H.
  - intros v e H. unfold parseValue. by rewrite H.
Qed.

Lemma parse_is_total_witness :
  parseValue (js "/tmp/test.txt") = Returns (JString (js "/tmp/test.txt"))
  /\ parseJSONLine (js "{$type$:$function_call_start$,") = Returns None.
Proof.
  destruct (parse_is_total still_clock print_integer) as (_ & _ & Hline & _ & Hvalue).
  split.
  - apply (Hvalue _ SyntaxError). vm_compute. reflexivity.
  - apply (Hline _ SyntaxError). vm_compute. reflexivity.
Defined.

(** ** Identities *)

(** Two parses of the same unchanged snapshot by one parser give the
    candidate without call_id two different identities. *)
Lemma fallback_identity_not_stable :
  identities (parseMessage still_clock print_integer xmlNoCallId newParser)
    = [js "tool-call-1700000000000-0"]
  /\ identities (parseMessage still_clock print_integer xmlNoCallId
                   (snd (parseMessage still_clock print_integer xmlNoCallId newParser)))
    = [js "tool-call-1700000000000-1"].
Proof. split; vm_compute; reflexivity. Qed.

(** C5, as the code has it: the identity of a candidate without call_id
    is the text tool-call-CLOCK-COUNTER, made of the reading of the clock
    and of the running counter of the parser, which goes up by one at each
    generated identity and never goes down; the tool name, the position
    and the buffer do not enter. Identities generated at two different
    counts differ, whatever the clock reads. *)
Theorem fallback_identity_is_clock_and_counter :
  forall (Date_now : N -> N) (Number_toString : number -> str),
    (forall p,
        generateId Date_now p =
        (Returns (js "tool-call-" ++ N_to_str (Date_now (idCounter p)) ++ js "-"
                    ++ N_to_str (idCounter p)),
         {| idCounter := idCounter p + 1 |}))
    /\ (forall calls m p,
          group m 2 = [] ->
          exists c,
            parseInvoke Date_now calls m p
              = (Returns (calls ++ [c]), {| idCounter := idCounter p + 1 |})
            /\ id c = generated_id Date_now (idCounter p)
            /\ toolName c = JString (group m 1))
    /\ (forall text p, exists calls p',
          parseMessage Date_now Number_toString text p = (Returns calls, p')
          /\ idCounter p <= idCounter p')
    /\ (forall j k, j <> k -> generated_id Date_now j <> generated_id Date_now k).
Proof.
  intros Date_now Number_toString. repeat split.
  - intros calls m p Hg. unfold parseInvoke. rewrite Hg.
    unfold bind at 1. simpl.
    destruct (safe_for_of (matchAll parameterRegex (group m 3)) parseParameter emptyObject
                safe_parseParameter {| idCounter := idCounter p + 1 |})
      as (args & p' & E & _).
    assert (Hp : p' = {| idCounter := idCounter p + 1 |}).
    { clear -E. revert E. generalize {| idCounter := idCounter p + 1 |}.
      generalize emptyObject.
      induction (matchAll parameterRegex (group m 3)) as [|x l IH];
        intros acc q E; simpl in E.
      - by injection E.
      - unfold bind, parseParameter at 1 in E. unfold bind, lift, ret in E.
        rewrite parseValue_returns in E. by apply IH in E. }
    subst p'. eexists. unfold bind. rewrite E. simpl. by repeat split.
  - intros text p. apply safe_parseMessage.
  - intros j k Hne H. by apply generated_id_inj in H.
Qed.

Lemma fallback_identity_is_clock_and_counter_witness :
  generated_id still_clock 0 <> generated_id still_clock 1.
Proof.
  destruct (fallback_identity_is_clock_and_counter still_clock print_integer)
    as (_ & _ & _ & H).
  apply H. lia.
Defined.

(** ** The order of the two matchers *)

(** On a snapshot that holds a complete XML call and, after it, a complete
    JSON call, the JSON matcher alone finds the JSON call, but
    [parseMessage] returns the XML call only. *)
Lemma json_not_run_after_xml :
  formats (parseJSONFormat still_clock print_integer xmlThenJson newParser) = [format_json]
  /\ formats (parseMessage still_clock print_integer xmlThenJson newParser) = [format_xml].
Proof. split; vm_compute; reflexivity. Qed.

(** C4, as the code has it: [parseMessage] runs the XML matcher first; the
    JSON matcher runs only when the XML matcher found no candidate, and
    otherwise the XML candidates are the whole result. *)
Theorem parseMessage_xml_first :
  forall (Date_now : N -> N) (Number_toString : number -> str) text p,
    parseMessage Date_now Number_toString text p =
    match parseXMLFormat Date_now text p with
    | (Returns [], p1) => parseJSONFormat Date_now Number_toString text p1
    | (Returns (c :: calls), p1) => (Returns (c :: calls), p1)
    | (Throws e, p1) => (Throws e, p1)
    end.
Proof.
  intros. unfold parseMessage, bind.
  destruct (parseXMLFormat Date_now text p) as [[[|c calls]|e] p1]; try done.
  by destruct (parseJSONFormat Date_now Number_toString text p1) as [[?|?] ?].
Qed.

(** ** The JSON loop of the parser *)

Section JsonLoop.

Variable Date_now : N -> N.
Variable Number_toString : number -> str.

Local Abbreviation step := (parseJSONFormat_line Date_now Number_toString).

Lemma for_of_app {A S} (a b : list A) (body : S -> A -> M S) (acc : S) (p : ToolCallParser) :
  for_of (a ++ b) body acc p =
  match for_of a body acc p with
  | (Returns acc', p') => for_of b body acc' p'
  | (Throws e, p') => (Throws e, p')
  end.
Proof.
  revert acc p; induction a as [|x a IH]; intros acc p; simpl; [done|].
  unfold bind. destruct (body acc x p) as [[acc'|e] p']; [apply IH|done].
Qed.

Lemma generated_within_weaken (P Q : N -> Prop) (k k' : N) (c : DetectedToolCall) :
  (forall j, P j -> j < k -> Q j /\ j < k') ->
  generated_within Date_now P k c -> generated_within Date_now Q k' c.
Proof. intros H (j & Hp & Hj & E). exists j. destruct (H j Hp Hj). by repeat split. Qed.

Lemma loop_ids_weaken (P Q : N -> Prop) (k k' : N) (st : json_loop) :
  (forall j, P j -> j < k -> Q j /\ j < k') ->
  loop_ids Date_now P k st -> loop_ids Date_now Q k' st.
Proof.
  intros H [Ht Hc]. split.
  - eapply Forall_impl; [exact Ht|]. intros c. by apply generated_within_weaken.
  - intros c E. eapply generated_within_weaken; [exact H|]. by apply Hc.
Qed.

Lemma line_effect_ids (P : N -> Prop) st p line st' p' :
  line_effect Date_now st p line st' p' ->
  P (idCounter p) ->
  loop_ids Date_now P (idCounter p) st ->
  loop_ids Date_now P (idCounter p') st'.
Proof.
  intros He HP [Ht Hc]. destruct He as [|name _ _|cur key val _ Hcur|cur _ _ Hcur]; simpl.
  - by split.
  - split; simpl.
    + eapply Forall_impl; [exact Ht|]. intros c.
      apply generated_within_weaken. intros j ? ?. split; [done|lia].
    + intros c [= <-]. exists (idCounter p).
      split; [done|]. split; [simpl; lia|done].
  - split; simpl; [done|]. intros c [= <-].
    destruct (Hc cur Hcur) as (j & ? & ? & ?). by exists j.
  - split; simpl; [|done]. apply Forall_app. split; [done|].
    constructor; [|constructor].
    destruct (Hc cur Hcur) as (j & ? & ? & ?). by exists j.
Qed.

Lemma loop_ids_after (P : N -> Prop) (lines : list str) st p :
  (forall j, idCounter p <= j -> P j) ->
  loop_ids Date_now P (idCounter p) st ->
  exists st' p',
    for_of lines step st p = (Returns st', p')
    /\ idCounter p <= idCounter p'
    /\ loop_ids Date_now P (idCounter p') st'.
Proof.
  revert st p; induction lines as [|l lines IH]; intros st p HP Hinv; simpl.
  - exists st, p. repeat split; [lia|apply Hinv..].
  - destruct (parseJSONFormat_line_effect Date_now Number_toString st l p)
      as (st1 & p1 & E1 & He).
    pose proof (line_effect_counter _ _ _ _ _ _ He) as Hle.
    destruct (IH st1 p1) as (st' & p' & E & Hle' & Hinv').
    + intros j Hj. apply HP. lia.
    + eapply line_effect_ids; [exact He| |exact Hinv]. apply HP. lia.
    + exists st', p'. unfold bind. rewrite E1, E. repeat split; [lia|apply Hinv'..].
Qed.

(** Lines that close no call leave the list of pushed calls as it is. *)
Lemma no_end_keeps_pushed (lines : list str) st p :
  Forall (fun l => is_end_line l = false) lines ->
  exists st' p',
    for_of lines step st p = (Returns st', p')
    /\ idCounter p <= idCounter p'
    /\ toolCalls st' = toolCalls st.
Proof.
  revert st p; induction lines as [|l lines IH]; intros st p Hl; simpl.
  - exists st, p. repeat split. lia.
  - inversion Hl as [|? ? Hne Hrest]; subst.
    destruct (parseJSONFormat_line_effect Date_now Number_toString st l p)
      as (st1 & p1 & E1 & He).
    pose proof (line_effect_counter _ _ _ _ _ _ He) as Hle.
    assert (Hsame : toolCalls st1 = toolCalls st).
    { destruct He; simpl; congruence. }
    destruct (IH st1 p1 Hrest) as (st' & p' & E & Hle' & Hsame').
    exists st', p'. unfold bind. rewrite E1, E. repeat split; [lia|congruence].
Qed.

Lemma start_line_effect st line p :
  is_start_line line = true ->
  exists name,
    truthy (Some name) = true /\
    step st line p =
    (Returns {| toolCalls := toolCalls st;
                currentCall :=
                  Some {| id := generated_id Date_now (idCounter p); toolName := name;
                          arguments := emptyObject; rawText := trim line;
                          format := format_json |} |},
     {| idCounter := idCounter p + 1 |}).
Proof.
  intros Hs.
  destruct (parseJSONFormat_line_effect Date_now Number_toString st line p)
    as (st1 & p1 & E1 & He).
  destruct He; try congruence. by exists name.
Qed.

Lemma continues_refl (c : DetectedToolCall) : continues c c.
Proof. do 3 (split; [done|]). exists []. by rewrite app_nil_r. Qed.

Lemma continues_trans (a b c : DetectedToolCall) :
  continues a b -> continues b c -> continues a c.
Proof.
  intros (? & ? & ? & m1 & E1) (? & ? & ? & m2 & E2).
  split; [congruence|]. split; [congruence|]. split; [congruence|].
  exists (m1 ++ m2). by rewrite E2, E1, <- app_assoc.
Qed.

(** A start line parses to a value with a truthy name, and opens the call
    of that name under a newly generated identity. *)
Lemma start_line_step st line p :
  is_start_line line = true ->
  exists parsed name,
    JSON_parse (trim line) = Returns parsed
    /\ get parsed (js "name") = Returns (Some name)
    /\ truthy (Some name) = true
    /\ step st line p =
       (Returns {| toolCalls := toolCalls st;
                   currentCall :=
                     Some {| id := generated_id Date_now (idCounter p); toolName := name;
                             arguments := emptyObject; rawText := trim line;
                             format := format_json |} |},
        {| idCounter := idCounter p + 1 |}).
Proof.
  unfold is_start_line, line_type_is, parseJSONFormat_line. intros Hs.
  apply andb_true_iff in Hs as [Hs Hl]. rewrite Hs. cbn [negb].
  unfold try_catch_M, parseJSONFormat_try, bind, lift.
  destruct (JSON_parse (trim line)) as [parsed|e] eqn:Hp; [|done].
  destruct (get parsed (js "type")) as [type|e] eqn:Ht; [|done].
  destruct (get parsed (js "name")) as [name|e] eqn:Hn; [|done].
  destruct (get parsed (js "value")) as [val|e] eqn:Hv.
  2: { destruct parsed; simpl in *; congruence. }
  simpl in Hl. rewrite Hl.
  apply andb_true_iff in Hl as [_ Hl].
  destruct name as [name|]; [|done].
  exists parsed, name. by repeat split.
Qed.

(** Lines that open no call and close none leave the open call open, and
    the counter as it is. *)
Lemma open_call_stays (lines : list str) (tc : list DetectedToolCall)
    (cur : DetectedToolCall) (p : ToolCallParser) :
  Forall (fun l => is_start_line l = false /\ is_end_line l = false) lines ->
  exists cur',
    for_of lines step {| toolCalls := tc; currentCall := Some cur |} p
    = (Returns {| toolCalls := tc; currentCall := Some cur' |}, p)
    /\ continues cur cur'.
Proof.
  revert cur; induction lines as [|l lines IH]; intros cur Hl; simpl.
  - exists cur. split; [done|apply continues_refl].
  - inversion Hl as [|? ? [Hns Hne] Hrest]; subst.
    destruct (parseJSONFormat_line_effect Date_now Number_toString
                {| toolCalls := tc; currentCall := Some cur |} l p)
      as (st1 & p1 & E1 & He).
    unfold bind. rewrite E1.
    inversion He as [?|? ? ?|cur0 key val ? Hc|cur0 ? ? Hc]; subst; try congruence.
    + by apply IH.
    + simpl in Hc. injection Hc as <-. simpl.
      destruct (IH {| id := id cur; toolName := toolName cur;
                      arguments := assign (arguments cur) key val;
                      rawText := rawText cur ++ [LF] ++ trim l;
                      format := format cur |} Hrest) as (cur' & E & Hcont).
      exists cur'. split; [done|].
      eapply continues_trans; [|exact Hcont].
      do 3 (split; [done|]). by eexists.
Qed.

(** Lines that open no call leave the open call open or close it, once;
    they push no other call and leave the counter as it is. *)
Lemma open_call_tracked (lines : list str) (tc : list DetectedToolCall)
    (cur : DetectedToolCall) (p : ToolCallParser) :
  Forall (fun l => is_start_line l = false) lines ->
  exists st' cur',
    for_of lines step {| toolCalls := tc; currentCall := Some cur |} p = (Returns st', p)
    /\ continues cur cur'
    /\ (st' = {| toolCalls := tc; currentCall := Some cur' |}
        \/ st' = {| toolCalls := tc ++ [cur']; currentCall := None |}).
Proof.
  assert (Hclosed : forall lines tc' p,
             Forall (fun l => is_start_line l = false) lines ->
             for_of lines step {| toolCalls := tc'; currentCall := None |} p
             = (Returns {| toolCalls := tc'; currentCall := None |}, p)).
  { clear. intros lines tc' p Hl. induction Hl as [|l lines Hns Hrest IH]; simpl; [done|].
    destruct (parseJSONFormat_line_effect Date_now Number_toString
                {| toolCalls := tc'; currentCall := None |} l p)
      as (st1 & p1 & E1 & He).
    unfold bind. rewrite E1.
    inversion He; subst; simpl in *; try congruence. }
  revert cur; induction lines as [|l lines IH]; intros cur Hl; simpl.
  - exists {| toolCalls := tc; currentCall := Some cur |}, cur.
    split; [done|]. split; [apply continues_refl|by left].
  - inversion Hl as [|? ? Hns Hrest]; subst.
    destruct (parseJSONFormat_line_effect Date_now Number_toString
                {| toolCalls := tc; currentCall := Some cur |} l p)
      as (st1 & p1 & E1 & He).
    unfold bind. rewrite E1.
    inversion He as [?|? ? ?|cur0 key val ? Hc|cur0 ? ? Hc]; subst; try congruence.
    + by apply IH.
    + simpl in Hc. injection Hc as <-. simpl.
      destruct (IH {| id := id cur; toolName := toolName cur;
                      arguments := assign (arguments cur) key val;
                      rawText := rawText cur ++ [LF] ++ trim l;
                      format := format cur |} Hrest) as (st' & cur' & E & Hcont & Hst).
      exists st', cur'. split; [done|]. split; [|done].
      eapply continues_trans; [|exact Hcont].
      do 3 (split; [done|]). by eexists.
    + simpl in Hc. injection Hc as <-. simpl.
      exists {| toolCalls := tc ++ [with_line cur (trim l)]; currentCall := None |},
        (with_line cur (trim l)).
      split; [by apply Hclosed|]. split; [|by right].
      do 3 (split; [done|]). by eexists.
Qed.

(** C10: in the JSON loop of the parser a second function_call_start line
    that comes before any function_call_end line replaces the call the
    first one opened. Whatever lines come before, between (none of them a
    function_call_end) and after, the first line opens a call [c1] with a
    newly generated identity; when the second line has been read, the
    pushed calls are those of before the first line, and the one open
    call, [currentCall], is the call [c2] of the second line: a later
    identity, the name of that line, no arguments, the line as raw text.
    The rest of the loop is the loop over the lines that follow, run from
    that state, in which [c1] is nowhere; no call of the result carries
    the identity of [c1], so the first candidate is output neither as a
    complete call nor as the trailing unclosed one; and if no further
    line opens a call, the result is the calls pushed before the first
    line, then the call of the second line. *)
Theorem second_start_discards_first :
  forall (text : str) (pre mid post : list str) (l1 l2 : str) (p : ToolCallParser),
    split_lines text = pre ++ l1 :: mid ++ l2 :: post ->
    is_start_line l1 = true ->
    is_start_line l2 = true ->
    Forall (fun l => is_end_line l = false) mid ->
    exists st1 p1 c1 p2 c2 calls p',
      for_of pre step json_loop_init p = (Returns st1, p1)
      /\ step st1 l1 p1 =
         (Returns {| toolCalls := toolCalls st1; currentCall := Some c1 |},
          {| idCounter := idCounter p1 + 1 |})
      /\ id c1 = generated_id Date_now (idCounter p1)
      /\ for_of (pre ++ l1 :: mid ++ [l2]) step json_loop_init p =
         (Returns {| toolCalls := toolCalls st1; currentCall := Some c2 |},
          {| idCounter := idCounter p2 + 1 |})
      /\ idCounter p1 < idCounter p2
      /\ id c2 = generated_id Date_now (idCounter p2)
      /\ (exists parsed,
            JSON_parse (trim l2) = Returns parsed
            /\ get parsed (js "name") = Returns (Some (toolName c2)))
      /\ truthy (Some (toolName c2)) = true
      /\ arguments c2 = emptyObject
      /\ rawText c2 = trim l2
      /\ format c2 = format_json
      /\ id c2 <> id c1
      /\ for_of (split_lines text) step json_loop_init p
         = for_of post step {| toolCalls := toolCalls st1; currentCall := Some c2 |}
             {| idCounter := idCounter p2 + 1 |}
      /\ parseJSONFormat Date_now Number_toString text p = (Returns calls, p')
      /\ Forall (fun c => id c <> id c1) calls
      /\ (Forall (fun l => is_start_line l = false) post ->
          exists c,
            calls = toolCalls st1 ++ [c]
            /\ continues c2 c
            /\ p' = {| idCounter := idCounter p2 + 1 |}).
Proof.
  intros text pre mid post l1 l2 p Hsplit Hs1 Hs2 Hmid.
  (* the lines before the first start *)
  destruct (loop_ids_after (fun _ => True) pre json_loop_init p)
    as (st1 & p1 & E1 & _ & Hinv1); [done| |].
  { split; [constructor|]. intros c Hc. discriminate Hc. }
  (* the first start *)
  destruct (start_line_effect st1 l1 p1 Hs1) as (n1 & _ & E2).
  set (k1 := idCounter p1) in *.
  set (c1 := {| id := generated_id Date_now k1; toolName := n1;
                arguments := emptyObject; rawText := trim l1;
                format := format_json |}) in *.
  (* the lines between the two starts *)
  destruct (no_end_keeps_pushed mid
              {| toolCalls := toolCalls st1; currentCall := Some c1 |}
              {| idCounter := k1 + 1 |} Hmid)
    as (st3 & p3 & E3 & Hle3 & Hsame3).
  simpl in Hle3, Hsame3.
  (* the second start *)
  destruct (start_line_step st3 l2 p3 Hs2) as (parsed2 & n2 & Hp2 & Hn2 & Ht2 & E4).
  rewrite Hsame3 in E4.
  set (c2 := {| id := generated_id Date_now (idCounter p3); toolName := n2;
                arguments := emptyObject; rawText := trim l2;
                format := format_json |}) in *.
  (* the lines after it *)
  destruct (loop_ids_after (fun j => j <> k1) post
              {| toolCalls := toolCalls st1; currentCall := Some c2 |}
              {| idCounter := idCounter p3 + 1 |})
    as (st5 & p5 & E5 & _ & Hinv5).
  { simpl. intros j Hj. lia. }
  { split; simpl.
    - destruct Hinv1 as [Ht _].
      eapply Forall_impl; [exact Ht|]. intros c.
      apply generated_within_weaken. intros j _ Hj. fold k1 in Hj. split; lia.
    - intros c [= <-]. exists (idCounter p3). simpl.
      split; [lia|]. split; [lia|done]. }
  assert (Hupto : for_of (pre ++ l1 :: mid ++ [l2]) step json_loop_init p
                  = (Returns {| toolCalls := toolCalls st1; currentCall := Some c2 |},
                     {| idCounter := idCounter p3 + 1 |})).
  { rewrite for_of_app, E1. simpl. unfold bind at 1. rewrite E2.
    rewrite for_of_app, E3. simpl. unfold bind at 1. by rewrite E4. }
  assert (Hrest : for_of (split_lines text) step json_loop_init p
                  = for_of post step
                      {| toolCalls := toolCalls st1; currentCall := Some c2 |}
                      {| idCounter := idCounter p3 + 1 |}).
  { rewrite Hsplit.
    replace (pre ++ l1 :: mid ++ l2 :: post) with ((pre ++ l1 :: mid ++ [l2]) ++ post)
      by (by rewrite <- !app_assoc, <- !app_comm_cons, <- !app_assoc).
    by rewrite for_of_app, Hupto. }
  assert (Hne : forall c, generated_within Date_now (fun j => j <> k1) (idCounter p5) c ->
                          id c <> generated_id Date_now k1).
  { intros c (j & Hj & _ & Ec) Heq. rewrite Ec in Heq.
    by apply generated_id_inj in Heq. }
  assert (Hne2 : id c2 <> id c1).
  { simpl. intros Heq. apply generated_id_inj in Heq. lia. }
  destruct Hinv5 as [Ht5 Hc5].
  assert (Hresult : exists calls,
             parseJSONFormat Date_now Number_toString text p = (Returns calls, p5)
             /\ Forall (fun c => id c <> id c1) calls
             /\ (Forall (fun l => is_start_line l = false) post ->
                 exists c,
                   calls = toolCalls st1 ++ [c]
                   /\ continues c2 c
                   /\ p5 = {| idCounter := idCounter p3 + 1 |})).
  { unfold parseJSONFormat, bind. rewrite Hrest, E5.
    destruct (currentCall st5) as [cur|] eqn:Hcur.
    - destruct (truthy (Some (toolName cur))) eqn:Htc.
      + eexists. split; [reflexivity|]. split.
        * apply Forall_app. split.
          -- eapply Forall_impl; [exact Ht5|]. exact Hne.
          -- constructor; [|constructor]. apply Hne. by apply Hc5.
        * intros Hpost.
          destruct (open_call_tracked post (toolCalls st1) c2
                      {| idCounter := idCounter p3 + 1 |} Hpost)
            as (st' & cur' & E & Hcont & Hst).
          rewrite E in E5. injection E5 as <- <-.
          destruct Hst as [->| ->]; simpl in Hcur; [|done].
          injection Hcur as <-. by exists cur'.
      + eexists. split; [reflexivity|]. split.
        * eapply Forall_impl; [exact Ht5|]. exact Hne.
        * intros Hpost.
          destruct (open_call_tracked post (toolCalls st1) c2
                      {| idCounter := idCounter p3 + 1 |} Hpost)
            as (st' & cur' & E & Hcont & Hst).
          rewrite E in E5. injection E5 as <- <-.
          destruct Hst as [->| ->]; simpl in Hcur; [|done].
          injection Hcur as <-. destruct Hcont as (_ & Hname & _).
          rewrite Hname in Htc. change (toolName c2) with n2 in Htc. congruence.
    - eexists. split; [reflexivity|]. split.
      + eapply Forall_impl; [exact Ht5|]. exact Hne.
      + intros Hpost.
        destruct (open_call_tracked post (toolCalls st1) c2
                    {| idCounter := idCounter p3 + 1 |} Hpost)
          as (st' & cur' & E & Hcont & Hst).
        rewrite E in E5. injection E5 as <- <-.
        destruct Hst as [->| ->]; simpl in Hcur; [done|].
        by exists cur'. }
  destruct Hresult as (calls & Ecalls & Hcalls & Hpost).
  exists st1, p1, c1, p3, c2, calls, p5.
  split; [exact E1|]. split; [exact E2|]. split; [done|].
  split; [exact Hupto|]. split; [lia|]. split; [done|].
  split; [by exists parsed2|]. split; [done|]. split; [done|].
  split; [done|]. split; [done|]. split; [exact Hne2|].
  split; [exact Hrest|]. split; [exact Ecalls|]. split; [exact Hcalls|exact Hpost].
Qed.

End JsonLoop.

Lemma second_start_discards_first_witness :
  exists st1 p1 c1 p2 c2 calls p',
    for_of [] (parseJSONFormat_line still_clock print_integer) json_loop_init newParser
      = (Returns st1, p1)
    /\ parseJSONFormat_line still_clock print_integer st1 firstStart p1 =
       (Returns {| toolCalls := toolCalls st1; currentCall := Some c1 |},
        {| idCounter := idCounter p1 + 1 |})
    /\ id c1 = generated_id still_clock (idCounter p1)
    /\ for_of ([] ++ firstStart :: [argLine] ++ [secondStart])
         (parseJSONFormat_line still_clock print_integer) json_loop_init newParser =
       (Returns {| toolCalls := toolCalls st1; currentCall := Some c2 |},
        {| idCounter := idCounter p2 + 1 |})
    /\ idCounter p1 < idCounter p2
    /\ id c2 = generated_id still_clock (idCounter p2)
    /\ (exists parsed,
          JSON_parse (trim secondStart) = Returns parsed
          /\ get parsed (js "name") = Returns (Some (toolName c2)))
    /\ truthy (Some (toolName c2)) = true
    /\ arguments c2 = emptyObject
    /\ rawText c2 = trim secondStart
    /\ format c2 = format_json
    /\ id c2 <> id c1
    /\ for_of (split_lines twoStarts)
         (parseJSONFormat_line still_clock print_integer) json_loop_init newParser
       = for_of [endLine] (parseJSONFormat_line still_clock print_integer)
           {| toolCalls := toolCalls st1; currentCall := Some c2 |}
           {| idCounter := idCounter p2 + 1 |}
    /\ parseJSONFormat still_clock print_integer twoStarts newParser = (Returns calls, p')
    /\ Forall (fun c => id c <> id c1) calls
    /\ (Forall (fun l => is_start_line l = false) [endLine] ->
        exists c,
          calls = toolCalls st1 ++ [c]
          /\ continues c2 c
          /\ p' = {| idCounter := idCounter p2 + 1 |}).
Proof.
  apply (second_start_discards_first still_clock print_integer twoStarts
           [] [argLine] [endLine] firstStart secondStart newParser).
  - vm_compute. reflexivity.
  - vm_compute. reflexivity.
  - vm_compute. reflexivity.
  - constructor; [vm_compute; reflexivity|constructor].
Defined.

(** On that text the result is the second call alone, closed, without the
    argument that was given to the first. *)
Example twoStarts_result :
  parseJSONFormat still_clock print_integer twoStarts newParser =
  (Returns [{| id := js "tool-call-1700000000000-1";
               toolName := JString (js "second");
               arguments := emptyObject;
               rawText := secondStart ++ [LF] ++ endLine;
               format := format_json |}],
   {| idCounter := 2 |}).
Proof. vm_compute. reflexivity. Qed.

(** A name that [JSON.parse] rounds to zero is falsy: the line opens no
    call, and the counter stays. *)
Example name_that_rounds_to_zero :
  is_start_line (js "{$type$:$function_call_start$,$name$:1e-400}") = false
  /\ parseJSONFormat still_clock print_integer
       (js "{$type$:$function_call_start$,$name$:1e-400}") newParser
     = (Returns [], newParser)
  /\ is_start_line (js "{$type$:$function_call_start$,$name$:5e-324}") = true.
Proof. repeat split; vm_compute; reflexivity. Qed.

(** A number is the double nearest to its literal. *)
Example literal_rounds_to_double :
  JSON_parse (js "9007199254740993") = JSON_parse (js "9007199254740992")
  /\ JSON_parse (js "9007199254740993")
     = Returns (JNumber (SpecFloat.S754_finite false 4503599627370496 1))
  /\ JSON_parse (js "0.1")
     = Returns (JNumber (SpecFloat.S754_finite false 7205759403792794 (-56)))
  /\ JSON_parse (js "-0") = Returns (JNumber (SpecFloat.S754_zero true))
  /\ JSON_parse (js "1e400") = Returns (JNumber (SpecFloat.S754_infinity false)).
Proof. repeat split; vm_compute; reflexivity. Qed.

(** An argument named __proto__ binds no key of the arguments: its
    object becomes their prototype. *)
Example argument_named_proto :
  match parseJSONFormat still_clock print_integer
          (join [LF] [js "{$type$:$function_call_start$,$name$:$t$}";
                      js "{$type$:$function_call_arg$,$name$:$__proto__$,$value$:{$a$:1}}";
                      js "{$type$:$function_call_arg$,$name$:$2$,$value$:true}";
                      js "{$type$:$function_call_arg$,$name$:$b$,$value$:null}";
                      js "{$type$:$function_call_arg$,$name$:$1$,$value$:false}"])
          newParser with
  | (Returns calls, _) => map arguments calls
  | (Throws _, _) => []
  end
  = [{| own := [(js "1", JBool false); (js "2", JBool true); (js "b", JNull)];
        proto := ParsedObject [(js "a", JNumber (to_double false 1 0))] |}].
Proof. vm_compute. reflexivity. Qed.

(** ** The ledger of processed elements *)

Section ScanFacts.

Variable Date_now : N -> N.
Variable Number_toString : number -> str.

Local Abbreviation parse := (parseMessage Date_now Number_toString).
Local Abbreviation scan1 := (scanBlock Date_now Number_toString).


Lemma scanBlock_effect (ext : Extension) (b : HTMLElement) :
  exists ext', scan1 ext b = Returns ext'
               /\ block_effect Date_now Number_toString ext b ext'.
Proof.
  unfold scanBlock. case_bool_decide as Hin.
  { exists ext. split; [done|constructor]. }
  destruct (negb _ && negb _).
  { exists ext. split; [done|constructor]. }
  destruct (safe_parseMessage Date_now Number_toString
              (default [] (textContent b)) (parser ext)) as (calls & p' & E & _).
  rewrite E. destruct calls as [|c calls].
  - eexists. split; [reflexivity|]. by apply block_empty.
  - eexists. split; [reflexivity|]. by apply block_handed.
Qed.

(** An element already in the ledger is skipped without being parsed. *)
Lemma scanBlock_processed (ext : Extension) (b : HTMLElement) :
  node b ∈ processedElements ext -> scan1 ext b = Returns ext.
Proof. intros Hin. unfold scanBlock. by rewrite bool_decide_eq_true_2. Qed.

Lemma handed_app_other (n m : nat) (l : list (DetectedToolCall * nat))
    (calls : list DetectedToolCall) :
  m <> n ->
  map fst (filter (fun x => snd x = n) (l ++ map (fun c => (c, m)) calls))
  = map fst (filter (fun x => snd x = n) l).
Proof.
  intros Hne. rewrite filter_app, map_app.
  replace (filter _ (map _ calls)) with (@nil (DetectedToolCall * nat)).
  - by rewrite app_nil_r.
  - induction calls as [|c calls IH]; [done|]. simpl.
    rewrite filter_cons_False; [exact IH|]. simpl. congruence.
Qed.

Lemma handed_app_same (n : nat) (l : list (DetectedToolCall * nat))
    (calls : list DetectedToolCall) :
  map fst (filter (fun x => snd x = n) (l ++ map (fun c => (c, n)) calls))
  = map fst (filter (fun x => snd x = n) l) ++ calls.
Proof.
  rewrite filter_app, map_app. f_equal.
  induction calls as [|c calls IH]; [done|]. simpl.
  rewrite filter_cons_True by done. simpl. by rewrite IH.
Qed.


Local Abbreviation ledger_step' := (ledger_step Date_now Number_toString).

Lemma ledger_step_refl (Q : HTMLElement -> Prop) (ext : Extension) :
  ledger_step' Q ext ext.
Proof. split; [done|]. intros n. by left. Qed.

Lemma ledger_step_weaken (Q Q' : HTMLElement -> Prop) (a b : Extension) :
  (forall x, Q x -> Q' x) -> ledger_step' Q a b -> ledger_step' Q' a b.
Proof.
  intros HQ [Hsub Honce]. split; [done|]. intros n.
  destruct (Honce n) as [E|(H1 & H2 & x & p & p' & c & calls & Hx & D)]; [by left|].
  right. repeat split; [done..|]. exists x, p, p', c, calls. split; [by apply HQ|done].
Qed.

Lemma ledger_step_trans (Q : HTMLElement -> Prop) (a b c : Extension) :
  ledger_step' Q a b -> ledger_step' Q b c -> ledger_step' Q a c.
Proof.
  intros [Hab Oab] [Hbc Obc]. split; [by etrans|]. intros n.
  destruct (Oab n) as [E1|(Hn1 & Hn1' & D1)], (Obc n) as [E2|(Hn2 & Hn2' & D2)].
  - left. congruence.
  - right. repeat split; [|done|by rewrite <- E1].
    intros Hn. apply Hn2. by apply Hab.
  - right. repeat split; [done| |by rewrite E2]. by apply Hbc.
  - done.
Qed.

Lemma block_effect_ledger (ext ext' : Extension) (b : HTMLElement) :
  block_effect Date_now Number_toString ext b ext' ->
  ledger_step' (fun x => x = b) ext ext'.
Proof.
  intros [|p' Hn E|c calls p' Hn E].
  - apply ledger_step_refl.
  - split; [done|]. intros n. by left.
  - split; simpl; [apply union_subseteq_r|]. intros n. unfold once, handed; simpl.
    destruct (decide (node b = n)) as [<-|Hne].
    + right. repeat split; [done| |].
      { by apply elem_of_union_l, elem_of_singleton. }
      exists b, (parser ext), p', c, calls. repeat split; [exact E|].
      exact (handed_app_same (node b) (injected ext) (c :: calls)).
    + left. exact (handed_app_other n (node b) (injected ext) (c :: calls) Hne).
Qed.

Lemma scanForToolCalls_ledger (blocks : list HTMLElement) (ext : Extension) :
  exists ext',
    scanForToolCalls Date_now Number_toString blocks ext = Returns ext'
    /\ ledger_step' (fun x => x ∈ blocks) ext ext'.
Proof.
  unfold scanForToolCalls. revert ext.
  induction blocks as [|b blocks IH]; intros ext; simpl.
  - exists ext. split; [done|apply ledger_step_refl].
  - destruct (scanBlock_effect ext b) as (ext1 & E1 & H1). rewrite E1. simpl.
    destruct (IH ext1) as (ext' & E & H). exists ext'. split; [done|].
    eapply ledger_step_trans.
    + eapply ledger_step_weaken; [|by eapply block_effect_ledger].
      intros x ->. apply list_elem_of_here.
    + eapply ledger_step_weaken; [|exact H].
      intros x Hx. by apply list_elem_of_further.
Qed.

(** C1, as the code has it: the ledger is the set of processed elements,
    one entry per buffer element and none per identity. Over any sequence
    of scans, on whatever snapshots of the page, every scan returns, the
    ledger only grows (a mark, once set, stays), an element that is in the
    ledger is skipped without being parsed and receives nothing more, and
    what the consumer receives for any one element is nothing or the
    result of a single parse of one snapshot of that element. *)
Theorem element_handed_over_at_most_once :
  forall (snapshots : list (list HTMLElement)) (ext : Extension),
  exists ext',
    scans Date_now Number_toString snapshots ext = Returns ext'
    /\ processedElements ext ⊆ processedElements ext'
    /\ (forall b, node b ∈ processedElements ext' -> scan1 ext' b = Returns ext')
    /\ (forall n, n ∈ processedElements ext -> handed n ext' = handed n ext)
    /\ (forall n,
          handed n ext' = handed n ext
          \/ exists blocks b p p' c calls,
               blocks ∈ snapshots /\ b ∈ blocks /\ node b = n
               /\ parse (default [] (textContent b)) p = (Returns (c :: calls), p')
               /\ handed n ext' = handed n ext ++ c :: calls).
Proof.
  intros snapshots ext.
  assert (H : exists ext',
             scans Date_now Number_toString snapshots ext = Returns ext'
             /\ ledger_step' (fun x => exists blocks, blocks ∈ snapshots /\ x ∈ blocks)
                  ext ext').
  { unfold scans. revert ext.
    induction snapshots as [|blocks snapshots IH]; intros ext; simpl.
    - exists ext. split; [done|apply ledger_step_refl].
    - destruct (scanForToolCalls_ledger blocks ext) as (ext1 & E1 & H1).
      rewrite E1. simpl. destruct (IH ext1) as (ext' & E & H).
      exists ext'. split; [done|]. eapply ledger_step_trans.
      + eapply ledger_step_weaken; [|exact H1].
        intros x Hx. exists blocks. split; [apply list_elem_of_here|done].
      + eapply ledger_step_weaken; [|exact H].
        intros x (bs & Hbs & Hx). exists bs. split; [by apply list_elem_of_further|done]. }
  destruct H as (ext' & E & Hsub & Honce). exists ext'.
  split; [done|]. split; [done|]. split; [apply scanBlock_processed|]. split.
  - intros n Hn. destruct (Honce n) as [?|(Hnot & _)]; done.
  - intros n.
    destruct (Honce n)
      as [?|(_ & _ & b & p & p' & c & calls & (bs & Hbs & Hb) & Hnode & Hparse & Hh)];
      [by left|].
    right. by exists bs, b, p, p', c, calls.
Qed.

(** An element whose text shows neither tag is skipped. *)
Lemma scanBlock_skips_untagged (ext : Extension) (b : HTMLElement) :
  includes (default [] (textContent b)) (js "<function_calls>") = false ->
  includes (default [] (textContent b)) (js "<invoke") = false ->
  scan1 ext b = Returns ext.
Proof.
  intros H1 H2. unfold scanBlock. rewrite H1, H2. simpl. by case_bool_decide.
Qed.

(** A scan hands every call of a result that is not empty to the
    consumer, and enters the element in the ledger. *)
Lemma scanBlock_hands_over (ext : Extension) (b : HTMLElement) (c : DetectedToolCall)
    (calls : list DetectedToolCall) (p' : ToolCallParser) :
  node b ∉ processedElements ext ->
  includes (default [] (textContent b)) (js "<function_calls>")
  || includes (default [] (textContent b)) (js "<invoke") = true ->
  parse (default [] (textContent b)) (parser ext) = (Returns (c :: calls), p') ->
  scan1 ext b =
  Returns {| parser := p';
             processedElements := {[node b]} ∪ processedElements ext;
             injected := injected ext ++ map (fun x => (x, node b)) (c :: calls) |}.
Proof.
  intros Hn Hgate E. unfold scanBlock.
  rewrite bool_decide_eq_false_2 by done.
  destruct (includes _ (js "<function_calls>")), (includes _ (js "<invoke"));
    simpl in *; try done; by rewrite E.
Qed.

End ScanFacts.

Lemma element_handed_over_at_most_once_witness :
  exists ext',
    scans still_clock print_integer
      [[blockOf 7 xmlStreaming]; [blockOf 7 xmlComplete]] newExtension = Returns ext'
    /\ processedElements newExtension ⊆ processedElements ext'
    /\ (forall b, node b ∈ processedElements ext' ->
                  scanBlock still_clock print_integer ext' b = Returns ext')
    /\ (forall n, n ∈ processedElements newExtension ->
                  handed n ext' = handed n newExtension)
    /\ (forall n,
          handed n ext' = handed n newExtension
          \/ exists blocks b p p' c calls,
               blocks ∈ [[blockOf 7 xmlStreaming]; [blockOf 7 xmlComplete]]
               /\ b ∈ blocks /\ node b = n
               /\ parseMessage still_clock print_integer (default [] (textContent b)) p
                  = (Returns (c :: calls), p')
               /\ handed n ext' = handed n newExtension ++ c :: calls).
Proof.
  apply (element_handed_over_at_most_once still_clock print_integer
           [[blockOf 7 xmlStreaming]; [blockOf 7 xmlComplete]] newExtension).
Defined.

(** A buffer that grows from the streaming text of scenario 2 to the
    complete text of scenario 1 between two scans: the first scan hands
    over the streaming call and marks the element, the second scan skips
    the element, so the consumer has the call once, with the partial
    argument. *)
Example growing_buffer_two_scans :
  handed_over (scans still_clock print_integer
                 [[blockOf 7 xmlStreaming]; [blockOf 7 xmlComplete]] newExtension)
  = [({| id := js "1"; toolName := JString (js "read_file");
         arguments := {| own := [(js "path", JString (js "/tmp/te"))];
                         proto := ObjectPrototype |};
         rawText := js "<invoke name=$read_file$ call_id=$1$><parameter name=$path$>/tmp/te";
         format := format_xml |}, 7%nat)].
Proof. vm_compute. reflexivity. Qed.

(** One scan of one element whose text holds two invocations with the
    same call_id hands the consumer two calls with that identity. *)
Lemma same_identity_handed_twice :
  map (fun x => (id (fst x), snd x))
    (handed_over (scanForToolCalls still_clock print_integer
                    [blockOf 7 xmlSameIdTwice] newExtension))
  = [(js "1", 7%nat); (js "1", 7%nat)].
Proof. vm_compute. reflexivity. Qed.

(** The streaming call of scenario 2, which has neither closing tag, is
    handed to the consumer by the first scan that sees it. *)
Lemma streaming_candidate_is_handed_over :
  handed_over (scanForToolCalls still_clock print_integer
                 [blockOf 7 xmlStreaming] newExtension)
  = [({| id := js "1"; toolName := JString (js "read_file");
         arguments := {| own := [(js "path", JString (js "/tmp/te"))];
                         proto := ObjectPrototype |};
         rawText := js "<invoke name=$read_file$ call_id=$1$><parameter name=$path$>/tmp/te";
         format := format_xml |}, 7%nat)]
  /\ includes xmlStreaming (js "</invoke>") = false
  /\ includes xmlStreaming (js "</function_calls>") = false.
Proof. repeat split; vm_compute; reflexivity. Qed.

(** ** The completeness flag of the classifier *)

Section ClassifierFacts.

Variable Number_toString : number -> str.
Variable extractLanguageTag : str -> LanguageTagResult.

Lemma containsJSONFunctionCalls_type (block : HTMLElement) (r : FunctionInfo) :
  containsJSONFunctionCalls Number_toString block = Returns r ->
  detectedBlockType r = Some (js "json") \/ detectedBlockType r = None.
Proof.
  unfold containsJSONFunctionCalls.
  destruct (negb _); [intros [= <-]; by right|].
  destruct (ofold _ _ _) as [state|e]; simpl; [|done].
  destruct (_ || _); intros [= <-]; [by left|by right].
Qed.

(** C3, as the code has it: for every block that the classifier reports
    as XML, [isComplete] is true if and only if the examined text
    contains the opening tag of the container and contains its closing
    tag; the closing tag of the invocation is not looked at. *)
Theorem xml_complete_iff_container_tags :
  forall (block : HTMLElement) (fi : FunctionInfo),
    containsFunctionCalls Number_toString extractLanguageTag block = Returns fi ->
    detectedBlockType fi = Some (js "xml") ->
    isComplete fi = true <->
    includes (examinedContent extractLanguageTag (trimmedText block))
      (js "<function_calls>") = true
    /\ includes (examinedContent extractLanguageTag (trimmedText block))
         (js "</function_calls>") = true.
Proof.
  intros block fi. unfold containsFunctionCalls.
  destruct (containsJSONFunctionCalls Number_toString block) as [r|e] eqn:Hj;
    simpl; [|done].
  destruct (containsJSONFunctionCalls_type block r Hj) as [Ht|Ht].
  - destruct (hasFunctionCalls r).
    + destruct (extractJSONFunctionInfo _ _); simpl; [|done].
      intros [= <-]; simpl. rewrite Ht. intros H. vm_compute in H. discriminate H.
    + destruct (_ && _); [intros [= <-]; done|].
      destruct (_ || _); intros [= <-]; simpl; [|done].
      intros _. apply andb_true_iff.
  - destruct (hasFunctionCalls r).
    + destruct (extractJSONFunctionInfo _ _); simpl; [|done].
      intros [= <-]; simpl. by rewrite Ht.
    + destruct (_ && _); [intros [= <-]; done|].
      destruct (_ || _); intros [= <-]; simpl; [|done].
      intros _. apply andb_true_iff.
Qed.

End ClassifierFacts.

Lemma xml_complete_iff_container_tags_witness :
  exists fi,
    containsFunctionCalls print_integer extractLanguageTag_spec
      (blockOf 0 xmlComplete) = Returns fi
    /\ (isComplete fi = true <->
        includes (examinedContent extractLanguageTag_spec
                    (trimmedText (blockOf 0 xmlComplete))) (js "<function_calls>") = true
        /\ includes (examinedContent extractLanguageTag_spec
                       (trimmedText (blockOf 0 xmlComplete))) (js "</function_calls>") = true).
Proof.
  eexists. split.
  - vm_compute. reflexivity.
  - apply (xml_complete_iff_container_tags print_integer extractLanguageTag_spec
             (blockOf 0 xmlComplete)); vm_compute; reflexivity.
Defined.

(** A container that is closed around an invocation that is not: the
    text has no closing invoke tag, and the classifier reports the block
    as complete. *)
Lemma complete_without_closing_invoke :
  includes xmlInvokeUnclosed (js "</invoke>") = false
  /\ complete_flag (containsFunctionCalls print_integer extractLanguageTag_spec
                      (blockOf 0 xmlInvokeUnclosed)) = Some true.
Proof. split; vm_compute; reflexivity. Qed.

(** ** The JSON lines of parsers/jsonFunctionParser.ts *)

(** The JSON reader of [ToolCallParser] does not cut a physical line:
    for the line of scenario 5 it yields no invocation. *)
Lemma single_line_yields_nothing_in_tool_parser :
  parseMessage still_clock print_integer jsonOneLine newParser = (Returns [], newParser).
Proof. vm_compute. reflexivity. Qed.

(** C8, as the code has it: the single physical line of scenario 5 holds
    two objects back to back. [containsJSONFunctionCalls] cuts it at the
    boundary between the closing and the opening brace and puts the two
    braces back, which gives the two objects as two lines, and reports
    one function call, complete (a start and an end), named t. The JSON
    reader of [ToolCallParser] has no such cut: the line as a whole is no
    JSON, it is skipped, and the parser yields no invocation. *)
Theorem scenario5_single_line_json :
  forall (Date_now : N -> N) (Number_toString : number -> str) (n : nat)
         (p : ToolCallParser),
    jsonLines jsonOneLine =
      [js "{$type$:$function_call_start$,$name$:$t$}"; js "{$type$:$function_call_end$}"]
    /\ containsJSONFunctionCalls Number_toString (blockOf n jsonOneLine) =
       Returns {| hasFunctionCalls := true; isComplete := true; hasInvoke := true;
                  hasParameters := false; hasClosingTags := true;
                  languageTag := None; detectedBlockType := Some (js "json");
                  partialTagDetected := false;
                  invokeName := Some (JString (js "t")); callId := None;
                  fi_textContent := None; description := None |}
    /\ parseMessage Date_now Number_toString jsonOneLine p = (Returns [], p).
Proof. intros. repeat split; vm_compute; reflexivity. Qed.

(** *** Assignments to an object *)

Lemma record_get_None (r : record) (k : str) : record_get r k = None -> k ∉ map fst r.
Proof.
  induction r as [|[k0 v0] r IH]; simpl; [intros _; apply not_elem_of_nil|].
  destruct (str_eqb k0 k) eqn:E0; [done|]. intros Hk.
  apply not_elem_of_cons. split; [|by apply IH].
  intros ->. by rewrite str_eqb_refl in E0.
Qed.


Lemma assign_own_key (o : object) (k : str) (v : value) :
  k <> js "__proto__" ->
  own (assign o k v) = record_set (own o) k v /\ proto (assign o k v) = proto o.
Proof.
  intros Hk. unfold assign. by rewrite (str_eqb_neq k (js "__proto__")).
Qed.

Lemma assign_setter (o : object) (v : value) :
  reaches_Object_prototype o (js "__proto__") = true ->
  own (assign o (js "__proto__") v) = own o
  /\ proto (assign o (js "__proto__") v)
     = match v with
       | JObject props => ParsedObject props
       | JArray l => ParsedArray l
       | JNull => NullPrototype
       | _ => proto o
       end.
Proof.
  intros Hr. unfold assign. rewrite str_eqb_refl, Hr. by destruct v.
Qed.

Lemma assign_get_ne (o : object) (k k' : str) (v : value) :
  k' <> k -> record_get (own (assign o k v)) k' = record_get (own o) k'.
Proof.
  intros Hne. unfold assign.
  destruct (str_eqb k (js "__proto__") && reaches_Object_prototype o k).
  - by destruct v.
  - simpl. by apply record_get_set_ne.
Qed.

Lemma assign_get_eq (o : object) (k : str) (v : value) :
  k <> js "__proto__" -> record_get (own (assign o k v)) k = Some v.
Proof.
  intros Hk. destruct (assign_own_key o k v Hk) as [-> _]. apply record_get_set_eq.
Qed.

Lemma enumerated_before_later (k h x : str) :
  enumerated_before k h = true -> enumerated_before x h = false ->
  enumerated_before k x = true.
Proof.
  unfold enumerated_before.
  destruct (array_index k) as [a|], (array_index h) as [b|], (array_index x) as [c|];
    try done.
  intros H1%N.ltb_lt H2%N.ltb_ge. apply N.ltb_lt. lia.
Qed.

Lemma enumerated_before_earlier (k h x : str) :
  enumerated_before k h = true -> enumerated_before x h = false ->
  enumerated_before x k = false.
Proof.
  unfold enumerated_before.
  destruct (array_index k) as [a|], (array_index h) as [b|], (array_index x) as [c|];
    try done.
  intros H1%N.ltb_lt H2%N.ltb_ge. apply N.ltb_ge. lia.
Qed.

Lemma enumerated_before_asym (k h : str) :
  enumerated_before k h = true -> enumerated_before h k = false.
Proof.
  unfold enumerated_before.
  destruct (array_index k) as [a|], (array_index h) as [b|]; try done.
  intros H1%N.ltb_lt. apply N.ltb_ge. lia.
Qed.

Lemma forallb_insert_keys (P : str -> bool) (r : record) (k : str) (v : value) :
  forallb P (map fst (record_insert r k v)) = P k && forallb P (map fst r).
Proof.
  induction r as [|[k0 v0] r IH]; simpl; [done|].
  destruct (enumerated_before k k0); simpl; [done|].
  rewrite IH. by destruct (P k), (P k0).
Qed.

Lemma record_insert_order (r : record) (k : str) (v : value) :
  enumeration_order (map fst r) = true ->
  enumeration_order (map fst (record_insert r k v)) = true.
Proof.
  induction r as [|[k0 v0] r IH]; simpl; [done|].
  intros [H0 Hr]%andb_true_iff.
  destruct (enumerated_before k k0) eqn:E; simpl.
  - rewrite H0, Hr, (enumerated_before_asym _ _ E). simpl.
    rewrite !andb_true_r. apply forallb_forall. intros x Hx.
    rewrite forallb_forall in H0. specialize (H0 x Hx).
    apply negb_true_iff in H0. apply negb_true_iff.
    by apply (enumerated_before_earlier k k0 x).
  - rewrite forallb_insert_keys, E, H0. simpl. by apply IH.
Qed.

Lemma record_set_order (r : record) (k : str) (v : value) :
  enumeration_order (map fst r) = true ->
  enumeration_order (map fst (record_set r k v)) = true.
Proof.
  unfold record_set. destruct (hasOwnProperty r k).
  - by rewrite record_update_keys.
  - apply record_insert_order.
Qed.

(** The place of a new key that is an array index: after the array
    indices that are not greater, before every other key. *)
Lemma record_insert_place (r : record) (k : str) (v : value) (n : N) :
  array_index k = Some n ->
  enumeration_order (map fst r) = true ->
  exists r1 r2,
    r = r1 ++ r2
    /\ record_insert r k v = r1 ++ (k, v) :: r2
    /\ Forall (fun e => exists m, array_index (fst e) = Some m /\ m <= n) r1
    /\ Forall (fun e => enumerated_before k (fst e) = true) r2.
Proof.
  intros Hk. induction r as [|[k0 v0] r IH]; simpl.
  - intros _. by exists [], [].
  - intros [H0 Hr]%andb_true_iff. destruct (enumerated_before k k0) eqn:E.
    + exists [], ((k0, v0) :: r). do 3 (split; [done|]).
      constructor; [done|]. apply Forall_forall. intros [x vx] Hx. simpl.
      apply (enumerated_before_later k k0 x E).
      rewrite forallb_forall in H0. apply negb_true_iff, H0.
      apply in_map_iff. exists (x, vx). split; [done|]. by apply list_elem_of_In.
    + destruct (IH Hr) as (r1 & r2 & -> & -> & H1 & H2).
      exists ((k0, v0) :: r1), r2. do 2 (split; [done|]). split; [|done].
      constructor; [|done]. simpl. unfold enumerated_before in E. rewrite Hk in E.
      destruct (array_index k0) as [m|]; [|done].
      exists m. split; [done|]. apply N.ltb_ge in E. lia.
Qed.

Lemma assign_order (o : object) (k : str) (v : value) :
  enumeration_order (map fst (own o)) = true ->
  enumeration_order (map fst (own (assign o k v))) = true.
Proof.
  intros Ho. unfold assign.
  destruct (str_eqb k (js "__proto__") && reaches_Object_prototype o k).
  - by destruct v.
  - simpl. by apply record_set_order.
Qed.

Lemma assign_NoDup (o : object) (k : str) (v : value) :
  NoDup (map fst (own o)) -> NoDup (map fst (own (assign o k v))).
Proof.
  intros Ho. unfold assign.
  destruct (str_eqb k (js "__proto__") && reaches_Object_prototype o k).
  - by destruct v.
  - simpl. rewrite record_set_keys. unfold hasOwnProperty.
    destruct (record_get (own o) k) eqn:E; [done|].
    apply NoDup_cons. split; [by apply record_get_None|done].
Qed.

Lemma ofold_invariant {A S} (P : S -> Prop) (l : list A) (body : S -> A -> outcome S)
    (acc r : S) :
  (forall s x s', P s -> body s x = Returns s' -> P s') ->
  P acc -> ofold l body acc = Returns r -> P r.
Proof.
  intros Hb. revert acc; induction l as [|x l IH]; intros acc Hacc; simpl.
  - by intros [= <-].
  - destruct (body acc x) as [s'|e] eqn:E; simpl; [|done].
    apply IH. by eapply Hb.
Qed.

Lemma extractJSONParameters_keys (Number_toString : number -> str) (content : str)
    (r : object) :
  extractJSONParameters Number_toString content = Returns r -> well_kept r.
Proof.
  assert (Hassign : forall o k v, well_kept o -> well_kept (assign o k v)).
  { intros o k v [H1 H2]. split; [by apply assign_order|by apply assign_NoDup]. }
  unfold extractJSONParameters. destruct content as [|c0 content].
  { intros [= <-]. split; [done|constructor]. }
  destruct (ofold (split_lines (c0 :: content)) (parameter_step Number_toString) emptyObject)
    as [o|e] eqn:E1; simpl; [|done].
  intros E2. eapply ofold_invariant; [| |exact E2].
  - intros s m s' Hs. unfold fallback_step.
    destruct (call_hasOwnProperty s (group m 1)) as [has|e]; simpl; [|done].
    destruct has; simpl; intros [= <-]; [done|by apply Hassign].
  - eapply ofold_invariant; [| |exact E1].
    + intros s line s' Hs. unfold parameter_step.
      destruct (parameter_entry Number_toString line) as [[[k v]|]|e]; simpl; try done.
      * intros [= <-]. by apply Hassign.
      * by intros [= <-].
    + split; [done|constructor].
Qed.

Section JsonParameters.

Variable Date_now : N -> N.
Variable Number_toString : number -> str.

Local Abbreviation entry := (parameter_entry Number_toString).
Local Abbreviation first_pass := (parameter_step Number_toString).

Lemma ofold_app {A S} (a b : list A) (body : S -> A -> outcome S) (acc : S) :
  ofold (a ++ b) body acc = let* acc' := ofold a body acc in ofold b body acc'.
Proof.
  revert acc; induction a as [|x a IH]; intros acc; simpl; [done|].
  destruct (body acc x); simpl; [apply IH|done].
Qed.

Lemma first_pass_returns (lines : list str) (o : object) :
  Forall (fun l => exists e, entry l = Returns e) lines ->
  exists o', ofold lines first_pass o = Returns o'.
Proof.
  revert o; induction lines as [|l lines IH]; intros o Hl; simpl; [by eexists|].
  inversion Hl as [|? ? [e He] Hrest]; subst.
  unfold parameter_step at 1. rewrite He. simpl.
  destruct e as [[k v]|]; simpl; by apply IH.
Qed.

Lemma first_pass_keeps (k : str) (lines : list str) (o : object) :
  Forall (fun l => exists e, entry l = Returns e /\ forall v, e <> Some (k, v)) lines ->
  exists o', ofold lines first_pass o = Returns o'
             /\ record_get (own o') k = record_get (own o) k.
Proof.
  revert o; induction lines as [|l lines IH]; intros o Hl; simpl; [by eexists|].
  inversion Hl as [|? ? (e & He & Hk) Hrest]; subst.
  unfold parameter_step at 1. rewrite He. simpl.
  destruct e as [[k' v']|]; simpl; [|by apply IH].
  destruct (IH (assign o k' v') Hrest) as (o' & E & G).
  exists o'. split; [done|]. rewrite G. apply assign_get_ne.
  intros ->. by apply (Hk v').
Qed.

(** The second pass leaves a key that is set as it is, and throws nothing
    but a [TypeError]. *)
Lemma fallback_keeps (k : str) (v : value) (ms : list rmatch_result) (o : object) :
  record_get (own o) k = Some v ->
  match ofold ms fallback_step o with
  | Returns r => record_get (own r) k = Some v
  | Throws e => e = TypeError
  end.
Proof.
  revert o; induction ms as [|m ms IH]; intros o Hk; simpl; [done|].
  unfold fallback_step at 1, call_hasOwnProperty.
  destruct (reaches_Object_prototype o (js "hasOwnProperty")); simpl; [|done].
  destruct (hasOwnProperty (own o) (group m 1)) eqn:Hm; simpl; [by apply IH|].
  apply IH. rewrite assign_get_ne; [done|].
  intros ->. unfold hasOwnProperty in Hm. by rewrite Hk in Hm.
Qed.

(** While no match names the method, the method stays within reach, and
    the second pass returns. *)
Lemma fallback_returns (ms : list rmatch_result) (o : object) :
  reaches_Object_prototype o (js "hasOwnProperty") = true ->
  Forall (fun m => group m 1 <> js "hasOwnProperty") ms ->
  exists r, ofold ms fallback_step o = Returns r.
Proof.
  revert o; induction ms as [|m ms IH]; intros o Hr Hms; simpl; [by eexists|].
  inversion Hms as [|? ? Hm Hrest]; subst.
  unfold fallback_step at 1, call_hasOwnProperty. rewrite Hr. simpl.
  destruct (hasOwnProperty (own o) (group m 1)); simpl; [by apply IH|].
  apply IH; [|done]. clear IH Hrest Hms.
  unfold reaches_Object_prototype in *. apply andb_true_iff in Hr as [Hown Hp].
  unfold assign.
  destruct (str_eqb (group m 1) (js "__proto__") && _); simpl.
  - by rewrite Hown, Hp.
  - rewrite hasOwnProperty_set, (str_eqb_neq _ _ Hm). by rewrite Hown, Hp.
Qed.

Lemma fallback_throws (m : rmatch_result) (ms : list rmatch_result) (o : object) :
  reaches_Object_prototype o (js "hasOwnProperty") = false ->
  ofold (m :: ms) fallback_step o = Throws TypeError.
Proof.
  intros Hr. simpl. unfold fallback_step at 1, call_hasOwnProperty. by rewrite Hr.
Qed.

(** A function_call_arg line with a name and a value sets the argument of
    that name on the open call of the parser. *)
Lemma arg_line_sets_argument st line p parsed cur c k v :
  startsWith (trim line) (js "{") = true ->
  JSON_parse (trim line) = Returns parsed ->
  get parsed (js "type") = Returns (Some (JString (js "function_call_arg"))) ->
  get parsed (js "name") = Returns (Some (JString (c :: k))) ->
  get parsed (js "value") = Returns (Some v) ->
  currentCall st = Some cur ->
  parseJSONFormat_line Date_now Number_toString st line p =
  (Returns {| toolCalls := toolCalls st;
              currentCall :=
                Some {| id := id cur; toolName := toolName cur;
                        arguments := assign (arguments cur) (c :: k) v;
                        rawText := rawText cur ++ [LF] ++ trim line;
                        format := format cur |} |}, p).
Proof.
  intros Hs Hp Ht Hn Hv Hc. unfold parseJSONFormat_line. rewrite Hs. cbn [negb].
  unfold try_catch_M, parseJSONFormat_try, bind, lift.
  rewrite Hp, Ht, Hn, Hv. unfold is_string.
  rewrite (str_eqb_neq (js "function_call_arg") (js "function_call_start"))
    by (vm_compute; discriminate).
  cbn [andb]. rewrite Hc, str_eqb_refl. reflexivity.
Qed.

(** C7, as the code has it. The three lines of scenario 4 are one
    complete call for [containsJSONFunctionCalls] (a start with name t
    and call_id 1, a parameter, an end), and [extractJSONParameters]
    returns for them the object whose one property x is the number 5, no
    string. [ToolCallParser], whose JSON reader takes its arguments from
    function_call_arg lines (with name and value) and does not know the
    parameter lines, yields for these three lines one complete invocation
    without arguments.

    In [extractJSONParameters] a line that parses to a parameter entry is
    the assignment of its value (the empty string for a missing or null
    value) to its key on the object of the parameters, in the order of
    the lines; in the parser a function_call_arg line is the same
    assignment on the arguments of the open call. The assignment is that
    of JavaScript:
    - for a key other than __proto__ it defines the own property: the key
      then has the new value, the other keys keep theirs, and the
      prototype stays; a key that is set keeps its place, a new key that
      is no array index goes after all the keys, a new key that is an
      array index goes before every key that is none, after the array
      indices that are not greater (so the keys b and 1, in this order,
      are enumerated as 1, b); the own keys stay in the order of
      enumeration, each once, and so are the keys of every object that
      [extractJSONParameters] returns;
    - for the key __proto__, as long as the lookup reaches the accessor
      of [Object.prototype], it binds no key: an object, an array or null
      becomes the prototype, any other value is dropped.
    So, after the first pass, a key other than __proto__ has the value of
    the last entry that names it. The second pass, over the matches of
    the pattern for entries with a string value in the whole content,
    calls the method hasOwnProperty of the object for every match,
    outside any [try]: it leaves a key that is set as it is, and it ends
    the function with a [TypeError] at the first match for which the
    method is out of reach, as it is when an entry has set the key
    hasOwnProperty (a single parameter line with that key and a string
    value does it) or has replaced the prototype by an object with a
    property of that name. The function
    returns when the method is within reach after the first pass and no
    match has the key hasOwnProperty, and also when there is no match. *)
Theorem json_parameters_accumulate :
  (forall n,
      containsJSONFunctionCalls Number_toString (blockOf n jsonThreeLines) =
      Returns {| hasFunctionCalls := true; isComplete := true; hasInvoke := true;
                 hasParameters := true; hasClosingTags := true;
                 languageTag := None; detectedBlockType := Some (js "json");
                 partialTagDetected := false;
                 invokeName := Some (JString (js "t")); callId := Some (js "1");
                 fi_textContent := None; description := None |})
  /\ extractJSONParameters Number_toString jsonThreeLines =
     Returns {| own := [(js "x", JNumber (to_double false 5 0))];
                proto := ObjectPrototype |}
  /\ (forall p,
        parseMessage Date_now Number_toString jsonThreeLines p =
        (Returns [{| id := generated_id Date_now (idCounter p);
                     toolName := JString (js "t");
                     arguments := emptyObject;
                     rawText := js "{$type$:$function_call_start$,$name$:$t$,$call_id$:$1$}"
                                  ++ [LF] ++ js "{$type$:$function_call_end$}";
                     format := format_json |}],
         {| idCounter := idCounter p + 1 |}))
  /\ (forall line parsed c key val,
        parseJSONLine line = Returns (Some parsed) ->
        get parsed (js "type") = Returns (Some (JString (js "parameter"))) ->
        get parsed (js "key") = Returns (Some (JString (c :: key))) ->
        get parsed (js "value") = Returns val ->
        entry line = Returns (Some (c :: key, nullish_or_empty val)))
  /\ (forall params line k v,
        entry line = Returns (Some (k, v)) ->
        first_pass params line = Returns (assign params k v))
  /\ (forall (o : object) k v,
        k <> js "__proto__" ->
        own (assign o k v) = record_set (own o) k v
        /\ proto (assign o k v) = proto o
        /\ record_get (own (assign o k v)) k = Some v
        /\ (forall k', k' <> k ->
              record_get (own (assign o k v)) k' = record_get (own o) k')
        /\ (hasOwnProperty (own o) k = true ->
            map fst (own (assign o k v)) = map fst (own o))
        /\ (hasOwnProperty (own o) k = false -> array_index k = None ->
            map fst (own (assign o k v)) = map fst (own o) ++ [k])
        /\ (forall n,
              hasOwnProperty (own o) k = false -> array_index k = Some n ->
              enumeration_order (map fst (own o)) = true ->
              exists r1 r2,
                own o = r1 ++ r2
                /\ own (assign o k v) = r1 ++ (k, v) :: r2
                /\ Forall (fun e => exists m, array_index (fst e) = Some m /\ m <= n) r1
                /\ Forall (fun e => enumerated_before k (fst e) = true) r2))
  /\ (forall (o : object) k v, well_kept o -> well_kept (assign o k v))
  /\ (forall content r,
        extractJSONParameters Number_toString content = Returns r -> well_kept r)
  /\ (forall (o : object) v,
        reaches_Object_prototype o (js "__proto__") = true ->
        own (assign o (js "__proto__") v) = own o
        /\ proto (assign o (js "__proto__") v)
           = match v with
             | JObject props => ParsedObject props
             | JArray l => ParsedArray l
             | JNull => NullPrototype
             | _ => proto o
             end)
  /\ (forall content before line after k v,
        content <> [] ->
        split_lines content = before ++ line :: after ->
        Forall (fun l => exists e, entry l = Returns e) before ->
        entry line = Returns (Some (k, v)) ->
        k <> js "__proto__" ->
        Forall (fun l => exists e, entry l = Returns e /\ forall v', e <> Some (k, v')) after ->
        exists o,
          ofold (split_lines content) first_pass emptyObject = Returns o
          /\ record_get (own o) k = Some v
          /\ extractJSONParameters Number_toString content
             = ofold (matchAll parameterPattern content) fallback_step o
          /\ match extractJSONParameters Number_toString content with
             | Returns r => record_get (own r) k = Some v
             | Throws e => e = TypeError
             end
          /\ (reaches_Object_prototype o (js "hasOwnProperty") = true ->
              Forall (fun m => group m 1 <> js "hasOwnProperty")
                (matchAll parameterPattern content) ->
              exists r,
                extractJSONParameters Number_toString content = Returns r
                /\ record_get (own r) k = Some v)
          /\ (matchAll parameterPattern content = [] ->
              extractJSONParameters Number_toString content = Returns o)
          /\ (reaches_Object_prototype o (js "hasOwnProperty") = false ->
              matchAll parameterPattern content <> [] ->
              extractJSONParameters Number_toString content = Throws TypeError))
  /\ extractJSONParameters Number_toString
       (js "{$type$:$parameter$,$key$:$hasOwnProperty$,$value$:$a$}")
     = Throws TypeError
  /\ extractJSONParameters Number_toString
       (join [LF] [js "{$type$:$parameter$,$key$:$__proto__$,$value$:{$hasOwnProperty$:1}}";
                   js "{$type$:$parameter$,$key$:$x$,$value$:$a$}"])
     = Throws TypeError
  /\ extractJSONParameters Number_toString
       (js "{$type$:$parameter$,$key$:$__proto__$,$value$:5}")
     = Returns emptyObject
  /\ extractJSONParameters Number_toString
       (join [LF] [js "{$type$:$parameter$,$key$:$b$,$value$:true}";
                   js "{$type$:$parameter$,$key$:$1$,$value$:false}";
                   js "{$type$:$parameter$,$key$:$b$,$value$:null}"])
     = Returns {| own := [(js "1", JBool false); (js "b", JString [])];
                  proto := ObjectPrototype |}
  /\ (forall st line p parsed cur c k v,
        startsWith (trim line) (js "{") = true ->
        JSON_parse (trim line) = Returns parsed ->
        get parsed (js "type") = Returns (Some (JString (js "function_call_arg"))) ->
        get parsed (js "name") = Returns (Some (JString (c :: k))) ->
        get parsed (js "value") = Returns (Some v) ->
        currentCall st = Some cur ->
        parseJSONFormat_line Date_now Number_toString st line p =
        (Returns {| toolCalls := toolCalls st;
                    currentCall :=
                      Some {| id := id cur; toolName := toolName cur;
                              arguments := assign (arguments cur) (c :: k) v;
                              rawText := rawText cur ++ [LF] ++ trim line;
                              format := format cur |} |}, p)).
Proof.
  split; [intros n; vm_compute; reflexivity|].
  split; [vm_compute; reflexivity|].
  split; [intros p; vm_compute; reflexivity|].
  split.
  { intros line parsed c key val Hp Ht Hk Hv. unfold parameter_entry.
    rewrite Hp. cbn [obind]. rewrite Ht. cbn [obind]. rewrite Hk.
    cbn [obind is_string truthy]. rewrite str_eqb_refl.
    cbn [andb]. rewrite Hv. reflexivity. }
  split.
  { intros params line k v He. unfold parameter_step. by rewrite He. }
  split.
  { intros o k v Hk. destruct (assign_own_key o k v Hk) as [Eo Ep].
    split; [done|]. split; [done|]. split; [by apply assign_get_eq|].
    split; [intros k' Hne; by apply assign_get_ne|].
    rewrite Eo. split; [apply record_set_keys_old|].
    split; [apply record_set_keys_new|].
    intros n Hn Hi Ho. unfold record_set. rewrite Hn. by apply record_insert_place. }
  split.
  { intros o k v [H1 H2]. split; [by apply assign_order|by apply assign_NoDup]. }
  split; [apply extractJSONParameters_keys|].
  split; [apply assign_setter|].
  split.
  { intros content before line after k v Hne Hsplit Hb He Hk Ha.
    destruct (first_pass_returns before emptyObject Hb) as (o1 & E1).
    destruct (first_pass_keeps k after (assign o1 k v) Ha) as (o2 & E2 & G2).
    rewrite assign_get_eq in G2 by done.
    assert (Efirst : ofold (split_lines content) first_pass emptyObject = Returns o2).
    { rewrite Hsplit, ofold_app, E1. simpl. unfold parameter_step at 1.
      rewrite He. simpl. exact E2. }
    assert (Eall : extractJSONParameters Number_toString content
                   = ofold (matchAll parameterPattern content) fallback_step o2).
    { unfold extractJSONParameters. destruct content as [|c0 content]; [done|].
      by rewrite Efirst. }
    exists o2. split; [done|]. split; [done|]. split; [done|]. rewrite Eall.
    split; [by apply fallback_keeps|]. split; [|split].
    - intros Hr Hms. destruct (fallback_returns _ o2 Hr Hms) as (r & Er).
      exists r. split; [done|].
      pose proof (fallback_keeps k v (matchAll parameterPattern content) o2 G2) as H.
      by rewrite Er in H.
    - by intros ->.
    - intros Hr Hms. destruct (matchAll parameterPattern content) as [|m ms]; [done|].
      by apply fallback_throws. }
  split; [vm_compute; reflexivity|].
  split; [vm_compute; reflexivity|].
  split; [vm_compute; reflexivity|].
  split; [vm_compute; reflexivity|].
  apply arg_line_sets_argument.
Qed.

End JsonParameters.

Lemma json_parameters_accumulate_witness :
  exists o,
    ofold (split_lines jsonThreeLines) (parameter_step print_integer) emptyObject
      = Returns o
    /\ record_get (own o) (js "x") = Some (JNumber (to_double false 5 0))
    /\ extractJSONParameters print_integer jsonThreeLines
       = ofold (matchAll parameterPattern jsonThreeLines) fallback_step o
    /\ match extractJSONParameters print_integer jsonThreeLines with
       | Returns r => record_get (own r) (js "x") = Some (JNumber (to_double false 5 0))
       | Throws e => e = TypeError
       end
    /\ (reaches_Object_prototype o (js "hasOwnProperty") = true ->
        Forall (fun m => group m 1 <> js "hasOwnProperty")
          (matchAll parameterPattern jsonThreeLines) ->
        exists r,
          extractJSONParameters print_integer jsonThreeLines = Returns r
          /\ record_get (own r) (js "x") = Some (JNumber (to_double false 5 0)))
    /\ (matchAll parameterPattern jsonThreeLines = [] ->
        extractJSONParameters print_integer jsonThreeLines = Returns o)
    /\ (reaches_Object_prototype o (js "hasOwnProperty") = false ->
        matchAll parameterPattern jsonThreeLines <> [] ->
        extractJSONParameters print_integer jsonThreeLines = Throws TypeError).
Proof.
  destruct (json_parameters_accumulate still_clock print_integer)
    as (_ & _ & _ & _ & _ & _ & _ & _ & _ & H & _).
  apply (H jsonThreeLines
           [js "{$type$:$function_call_start$,$name$:$t$,$call_id$:$1$}"]
           (js "{$type$:$parameter$,$key$:$x$,$value$:5}")
           [js "{$type$:$function_call_end$}"]).
  - vm_compute. discriminate.
  - vm_compute. reflexivity.
  - constructor; [|constructor]. eexists. vm_compute. reflexivity.
  - vm_compute. reflexivity.
  - vm_compute. discriminate.
  - constructor; [|constructor]. eexists. split; [vm_compute; reflexivity|].
    intros v'. discriminate.
Defined.

(** The parser reads the three lines of scenario 4 as one complete
    invocation, and leaves its arguments empty: x is not bound. *)
Lemma parameter_lines_not_read_by_tool_parser :
  parseMessage still_clock print_integer jsonThreeLines newParser =
  (Returns [{| id := js "tool-call-1700000000000-0";
               toolName := JString (js "t");
               arguments := emptyObject;
               rawText := js "{$type$:$function_call_start$,$name$:$t$,$call_id$:$1$}"
                            ++ [LF] ++ js "{$type$:$function_call_end$}";
               format := format_json |}],
   {| idCounter := 1 |}).
Proof. vm_compute. reflexivity. Qed.

(** The same call in the dialect of the parser: the argument x is bound
    to the number 5, and a later line for x replaces the value. *)
Example function_call_arg_lines :
  forall (Date_now : N -> N) (Number_toString : number -> str),
    match parseMessage Date_now Number_toString
            (join [LF] [js "{$type$:$function_call_start$,$name$:$t$}";
                        js "{$type$:$function_call_arg$,$name$:$x$,$value$:5}";
                        js "{$type$:$function_call_arg$,$name$:$y$,$value$:true}";
                        js "{$type$:$function_call_arg$,$name$:$x$,$value$:$six$}";
                        js "{$type$:$function_call_end$}"]) newParser with
    | (Returns calls, _) => map arguments calls
    | (Throws _, _) => []
    end = [{| own := [(js "x", JString (js "six")); (js "y", JBool true)];
              proto := ObjectPrototype |}].
Proof. intros. vm_compute. reflexivity. Qed.

(** [containsJSONFunctionCalls] reads [call_id?.toString()] outside any
    [try]: a start line whose call_id is an object with a property named
    toString makes it throw. *)
Example call_id_toString_throws :
  forall (Number_toString : number -> str),
    containsJSONFunctionCalls Number_toString
      (blockOf 0 (join [LF]
                    [js "{$type$:$function_call_start$,$name$:$t$,$call_id$:{$toString$:1}}";
                     js "{$type$:$function_call_end$}"]))
    = Throws TypeError.
Proof. intros. vm_compute. reflexivity. Qed.

(** * Further properties

    Properties of the functions of the section on more of the sources, and
    further properties of the parser and of the scan. *)

(** ** The matcher is sound for the relation *)


Lemma rmatch_star (n : nat) (g : bool) (a : re) k s c :
  rmatch n (Star g a) k s c = star_loop (rmatch n a) g k (length s) s c.
Proof. reflexivity. Qed.


Lemma rmatch_sound (n : nat) (r : re) :
  forall k s c res,
    rmatch n r k s c = Some res ->
    exists s1 s2 c1, s = s1 ++ s2 /\ rmatches n r s1 s2 c c1 /\ k s2 c1 = Some res.
Proof.
  induction r as [|p|a IHa b IHb|a IHa b IHb|g a IHa|i a IHa| |]; intros k s c res;
    [simpl..|idtac|simpl|simpl|simpl].
  - intros H. exists [], s, c. repeat split; [constructor|done].
  - destruct s as [|x s']; [done|]. destruct (p x) eqn:Hp; [|done].
    intros H. exists [x], s', c. repeat split; [by constructor|done].
  - intros H. apply IHa in H as (s1 & s2 & c1 & -> & Ha & H).
    apply IHb in H as (s3 & s4 & c2 & -> & Hb & H).
    exists (s1 ++ s3), s4, c2. rewrite <- app_assoc. repeat split; [|done].
    by econstructor.
  - destruct (rmatch n a k s c) as [x|] eqn:E.
    + intros [= <-]. apply IHa in E as (s1 & s2 & c1 & -> & Ha & H).
      exists s1, s2, c1. repeat split; [by apply rm_alt_l|done].
    + intros H. apply IHb in H as (s1 & s2 & c1 & -> & Hb & H).
      exists s1, s2, c1. repeat split; [by apply rm_alt_r|done].
  - rewrite rmatch_star. generalize (length s) at 1. intros fuel. revert s c res.
    induction fuel as [|f IHf]; intros s c res.
    + intros H. exists [], s, c. repeat split; [constructor|done].
    + cbn [star_loop].
      assert (Hagain : forall x,
                rmatch n a (fun s' c' =>
                  if Nat.ltb (length s') (length s)
                  then star_loop (rmatch n a) g k f s' c' else None) s c = Some x ->
                exists s1 s2 c1, s = s1 ++ s2 /\ rmatches n (Star g a) s1 s2 c c1
                                 /\ k s2 c1 = Some x).
      { intros x H. apply IHa in H as (s1 & s2 & c1 & -> & Ha & H).
        destruct (Nat.ltb _ _); [|done].
        apply IHf in H as (s3 & s4 & c2 & -> & Hs & H).
        exists (s1 ++ s3), s4, c2. rewrite <- app_assoc. repeat split; [|done].
        by econstructor. }
      destruct g.
      * destruct (rmatch n a _ s c) as [x|] eqn:E.
        -- intros [= <-]. by apply Hagain.
        -- intros H. exists [], s, c. repeat split; [constructor|done].
      * destruct (k s c) as [x|] eqn:E.
        -- intros [= <-]. exists [], s, c. repeat split; [constructor|done].
        -- intros H. by apply Hagain.
  - intros H. apply IHa in H as (s1 & s2 & c1 & -> & Ha & H).
    exists s1, s2, (set_cap i (Some s1) c1). repeat split; [by constructor|].
    rewrite length_app in H.
    replace (length s1 + length s2 - length s2)%nat with (length s1) in H by lia.
    by rewrite take_app_length in H.
  - destruct (Nat.eqb (length s) n) eqn:E; [|done]. apply Nat.eqb_eq in E.
    intros H. exists [], s, c. repeat split; [by constructor|done].
  - destruct s; [|done]. intros H. exists [], [], c. repeat split; [constructor|done].
Qed.

Lemma match_at_sound (n : nat) (r : re) (pos : nat) (s : str) (m : rmatch_result) :
  match_at n r pos s = Some m ->
  exists rest,
    s = m_text m ++ rest
    /\ rmatches n r (m_text m) rest [] (m_caps m)
    /\ m_index m = pos /\ m_end m = (pos + length (m_text m))%nat.
Proof.
  unfold match_at. destruct (rmatch n r _ s []) as [[rest c]|] eqn:E; [|done].
  apply rmatch_sound in E as (s1 & s2 & c1 & -> & Hm & [= <- <-]).
  intros [= <-]. simpl. exists s2.
  rewrite length_app.
  replace (length s1 + length s2 - length s2)%nat with (length s1) by lia.
  rewrite take_app_length. split; [done|]. split; [done|]. split; [done|]. done.
Qed.

Lemma search_sound (n : nat) (r : re) (pos : nat) (s : str) (m : rmatch_result) :
  search n r pos s = Some m ->
  exists pre rest,
    s = pre ++ m_text m ++ rest
    /\ rmatches n r (m_text m) rest [] (m_caps m)
    /\ m_index m = (pos + length pre)%nat.
Proof.
  revert pos; induction s as [|x s IH]; intros pos; simpl.
  - destruct (match_at n r pos []) as [m'|] eqn:E; [|done]. intros [= ->].
    apply match_at_sound in E as (rest & E & Hm & Hi & _).
    exists [], rest. simpl. repeat split; [done..|lia].
  - destruct (match_at n r pos (x :: s)) as [m'|] eqn:E.
    + intros [= ->]. apply match_at_sound in E as (rest & E & Hm & Hi & _).
      exists [], rest. simpl. repeat split; [done..|lia].
    + intros H. apply IH in H as (pre & rest & -> & Hm & Hi).
      exists (x :: pre), rest. simpl. repeat split; [done|lia].
Qed.

Lemma matchAll_from_sound (fuel n : nat) (r : re) (pos : nat) (s : str) (m : rmatch_result) :
  m ∈ matchAll_from fuel n r pos s ->
  exists pre rest,
    s = pre ++ m_text m ++ rest /\ rmatches n r (m_text m) rest [] (m_caps m).
Proof.
  revert pos s; induction fuel as [|f IH]; intros pos s; simpl; [by intros ?%elem_of_nil|].
  destruct (search n r pos s) as [m'|] eqn:E; [|by intros ?%elem_of_nil].
  intros [->|H]%elem_of_cons.
  - apply search_sound in E as (pre & rest & -> & Hm & _). by exists pre, rest.
  - destruct (Nat.ltb _ _); [by apply elem_of_nil in H|].
    apply IH in H as (pre & rest & E' & Hm).
    exists (take ((if Nat.eqb (m_end m') (m_index m') then S (m_end m') else m_end m') - pos) s
              ++ pre), rest.
    split; [|done]. rewrite <- app_assoc, <- E'. by rewrite take_drop.
Qed.

Lemma matchAll_sound (r : re) (s : str) (m : rmatch_result) :
  m ∈ matchAll r s ->
  exists pre rest,
    s = pre ++ m_text m ++ rest
    /\ rmatches (length s) r (m_text m) rest [] (m_caps m).
Proof. apply matchAll_from_sound. Qed.

Lemma exec_sound (r : re) (s : str) (m : rmatch_result) :
  exec r s = Some m ->
  exists pre rest,
    s = pre ++ m_text m ++ rest
    /\ rmatches (length s) r (m_text m) rest [] (m_caps m)
    /\ m_index m = length pre.
Proof. intros H. apply search_sound in H as (pre & rest & ? & ? & ?). by exists pre, rest. Qed.

Lemma startsWith_spec (s p : str) : startsWith s p = true <-> exists post, s = p ++ post.
Proof.
  revert s; induction p as [|x p IH]; intros s.
  - destruct s; simpl; (split; [intros _; by eexists|done]).
  - destruct s as [|y s]; simpl; [split; [done|by intros [? ?]]|].
    rewrite andb_true_iff, IH. split.
    + intros [->%N.eqb_eq [post ->]]. by exists post.
    + intros [post [= -> ->]]. split; [apply N.eqb_refl|by exists post].
Qed.

Lemma includes_spec (s p : str) : includes s p = true <-> piece_of p s.
Proof.
  induction s as [|y s IH].
  - change (includes [] p) with (startsWith [] p || false).
    rewrite orb_false_r, startsWith_spec. split.
    + intros [post E]. by exists [], post.
    + intros (pre & post & E). destruct pre; [by exists post|done].
  - change (includes (y :: s) p) with (startsWith (y :: s) p || includes s p).
    rewrite orb_true_iff, startsWith_spec, IH. split.
    + intros [[post E]|(pre & post & ->)]; [by exists [], post|by exists (y :: pre), post].
    + intros (pre & post & E). destruct pre as [|z pre].
      * left. by exists post.
      * right. injection E as -> ->. by exists pre, post.
Qed.

Lemma piece_of_trans (a b c : str) : piece_of a b -> piece_of b c -> piece_of a c.
Proof.
  intros (p1 & q1 & ->) (p2 & q2 & ->). exists (p2 ++ p1), (q1 ++ q2).
  by rewrite <- !app_assoc.
Qed.

Lemma seq_cons_inv (n : nat) (a : re) (l : list re) s rest c c' :
  rmatches n (seq (a :: l)) s rest c c' ->
  exists s1 s2 c1,
    s = s1 ++ s2 /\ rmatches n a s1 (s2 ++ rest) c c1 /\ rmatches n (seq l) s2 rest c1 c'.
Proof.
  destruct l as [|b l]; simpl.
  - intros H. exists s, [], c'. rewrite app_nil_r. repeat split; [done|constructor].
  - intros H. inversion H; subst. by eexists _, _, _.
Qed.

Lemma chr_inv (n : nat) (p : char -> bool) s rest c c' :
  rmatches n (Chr p) s rest c c' -> exists x, s = [x] /\ p x = true /\ c' = c.
Proof. intros H. inversion H; subst. by eexists. Qed.

Lemma lit_inv (n : nat) (t : str) s rest c c' :
  rmatches n (lit t) s rest c c' -> s = t /\ c' = c.
Proof.
  unfold lit. revert s c; induction t as [|x t IH]; intros s c H.
  - inversion H; by subst.
  - change (map chr (x :: t)) with (chr x :: map chr t) in H.
    apply seq_cons_inv in H as (s1 & s2 & c1 & -> & H1 & H2).
    apply chr_inv in H1 as (y & -> & Hy & ->). apply N.eqb_eq in Hy. subst y.
    apply IH in H2 as [-> ->]. done.
Qed.

Lemma star_chr_inv (n : nat) (g : bool) (p : char -> bool) s rest c c' :
  rmatches n (Star g (Chr p)) s rest c c' ->
  c' = c /\ Forall (fun x => p x = true) s.
Proof.
  intros H. remember (Star g (Chr p)) as r eqn:Er.
  induction H; try discriminate; injection Er as -> ->.
  - by split.
  - apply chr_inv in H as (x & -> & Hx & ->).
    destruct (IHrmatches2 eq_refl) as [-> Hall]. split; [done|by constructor].
Qed.

Lemma plus_chr_inv (n : nat) (p : char -> bool) s rest c c' :
  rmatches n (plus (Chr p)) s rest c c' ->
  c' = c /\ s <> [] /\ Forall (fun x => p x = true) s.
Proof.
  unfold plus. intros H. inversion H; subst.
  match goal with H1 : rmatches _ (Chr _) _ _ _ _ |- _ =>
    apply chr_inv in H1 as (x & -> & Hx & ->) end.
  match goal with H2 : rmatches _ (Star _ _) _ _ _ _ |- _ =>
    apply star_chr_inv in H2 as [-> Hall] end.
  repeat split; [done|by constructor].
Qed.

Lemma group_inv (n i : nat) (a : re) s rest c c' :
  rmatches n (Group i a) s rest c c' ->
  exists c1, rmatches n a s rest c c1 /\ c' = set_cap i (Some s) c1.
Proof. intros H. inversion H; subst. by eexists. Qed.

Lemma cap_set_cap (i j : nat) (v : option str) (c : caps) :
  cap (set_cap i v c) j = if decide (i = j) then v else cap c j.
Proof.
  unfold cap. revert j c; induction i as [|i IH]; intros j c.
  - destruct c, j; simpl; try done; by destruct v.
  - destruct c as [|x c], j as [|j]; simpl; try done.
    + rewrite IH. destruct (decide (i = j)), (decide (S i = S j)); try done; try lia.
    + rewrite IH. destruct (decide (i = j)), (decide (S i = S j)); try done; lia.
Qed.

Lemma cap_set_cap_eq (i : nat) (v : option str) (c : caps) : cap (set_cap i v c) i = v.
Proof. rewrite cap_set_cap. by destruct (decide (i = i)). Qed.

Lemma cap_set_cap_ne (i j : nat) (v : option str) (c : caps) :
  i <> j -> cap (set_cap i v c) j = cap c j.
Proof. intros H. rewrite cap_set_cap. by destruct (decide (i = j)). Qed.

Ltac caps_simpl :=
  repeat first [rewrite cap_set_cap_eq | rewrite cap_set_cap_ne by lia];
  cbn [default from_option Datatypes.id].

Lemma group_cap (m : rmatch_result) (i : nat) : group m i = default [] (cap (m_caps m) i).
Proof. unfold group, cap. by destruct (m_caps m !! i) as [[?|]|]. Qed.

(** ** Inversion of the patterns *)

Lemma eps_inv (n : nat) s rest c c' : rmatches n Eps s rest c c' -> s = [] /\ c' = c.
Proof. intros H. by inversion H. Qed.

Lemma eol_inv (n : nat) s rest c c' :
  rmatches n Eol s rest c c' -> s = [] /\ rest = [] /\ c' = c.
Proof. intros H. by inversion H. Qed.

Lemma bol_inv (n : nat) s rest c c' :
  rmatches n Bol s rest c c' -> s = [] /\ length rest = n /\ c' = c.
Proof. intros H. by inversion H. Qed.

Lemma alt_inv (n : nat) (a b : re) s rest c c' :
  rmatches n (Alt a b) s rest c c' -> rmatches n a s rest c c' \/ rmatches n b s rest c c'.
Proof. intros H. inversion H; subst; [by left|by right]. Qed.

Lemma opt_inv (n : nat) (a : re) s rest c c' :
  rmatches n (opt a) s rest c c' -> rmatches n a s rest c c' \/ (s = [] /\ c' = c).
Proof. intros [H|H]%alt_inv; [by left|right; by apply eps_inv in H]. Qed.

Lemma not_chr_Forall (x : char) (s : str) :
  Forall (fun y => negb (char_eqb y x) = true) s -> Forall (fun y => y <> x) s.
Proof.
  intros H. eapply Forall_impl; [exact H|].
  intros y Hy ->. unfold char_eqb in Hy. by rewrite N.eqb_refl in Hy.
Qed.

Lemma plus_not_chr_inv (n : nat) (x : char) s rest c c' :
  rmatches n (plus (not_chr x)) s rest c c' ->
  c' = c /\ s <> [] /\ Forall (fun y => y <> x) s.
Proof.
  intros H. apply plus_chr_inv in H as (-> & Hne & Hall).
  repeat split; [done|]. by apply not_chr_Forall.
Qed.

Ltac rx_step :=
  match goal with
  | H : rmatches _ (lit _) _ _ _ _ |- _ => apply lit_inv in H as [-> ->]
  | H : rmatches _ (plus (not_chr _)) _ _ _ _ |- _ =>
      let Hne := fresh "Hne" in let Hall := fresh "Hall" in
      apply plus_not_chr_inv in H as (-> & Hne & Hall)
  | H : rmatches _ (plus _) _ _ _ _ |- _ =>
      let Hne := fresh "Hne" in let Hall := fresh "Hall" in
      apply plus_chr_inv in H as (-> & Hne & Hall)
  | H : rmatches _ (star _) _ _ _ _ |- _ =>
      let Hall := fresh "Hall" in apply star_chr_inv in H as (-> & Hall)
  | H : rmatches _ (star_lazy _) _ _ _ _ |- _ =>
      let Hall := fresh "Hall" in apply star_chr_inv in H as (-> & Hall)
  | H : rmatches _ (Group _ _) _ _ _ _ |- _ =>
      let H1 := fresh "Hg" in apply group_inv in H as (? & H1 & ->)
  | H : rmatches _ (chr _) _ _ _ _ |- _ =>
      let Hx := fresh "Hx" in
      apply chr_inv in H as (? & -> & Hx & ->); apply N.eqb_eq in Hx; subst
  | H : rmatches _ Eol _ _ _ _ |- _ =>
      let Hr := fresh "Hrest" in
      apply eol_inv in H as (-> & Hr & ->); simpl in Hr;
      repeat (apply app_eq_nil in Hr as [? Hr]); subst
  | H : rmatches _ Eps _ _ _ _ |- _ => apply eps_inv in H as [? ?]; simplify_eq
  | H : rmatches _ (seq (_ :: _)) _ _ _ _ |- _ =>
      let H1 := fresh "Hs" in let H2 := fresh "Hs" in
      apply seq_cons_inv in H as (? & ? & ? & -> & H1 & H2)
  | H : rmatches _ (seq []) _ _ _ _ |- _ => apply eps_inv in H as [? ?]; simplify_eq
  end.

Ltac rx_inv :=
  repeat rx_step;
  repeat first [rewrite app_nil_r | rewrite app_nil_l
               | match goal with
                 | H : context [?a ++ []] |- _ => rewrite (app_nil_r a) in H
                 | H : context [@app char [] ?a] |- _ => rewrite (app_nil_l a) in H
                 end].

Lemma piece_of_refl (s : str) : piece_of s s.
Proof. exists [], []. by rewrite app_nil_r. Qed.

Lemma piece_of_app_l (a b s : str) : piece_of (a ++ b) s -> piece_of a s.
Proof. intros (pre & post & ->). exists pre, (b ++ post). by rewrite <- app_assoc. Qed.

Lemma piece_of_app_r (a b s : str) : piece_of (a ++ b) s -> piece_of b s.
Proof.
  intros (pre & post & ->). exists (pre ++ a), post. by rewrite <- !app_assoc.
Qed.

Lemma piece_of_middle (pre a post : str) : piece_of a (pre ++ a ++ post).
Proof. by exists pre, post. Qed.

(** What a match of the container pattern is made of. *)
Lemma functionCalls_match (n : nat) s rest c c' :
  rmatches n functionCallsRegex s rest c c' ->
  exists g, s = js "<function_calls>" ++ g ++ js "</function_calls>"
            /\ c' = set_cap 1 (Some g) c.
Proof.
  unfold functionCallsRegex. intros H. rx_inv. by eexists.
Qed.

Lemma incompleteFunctionCalls_match (n : nat) s rest c c' :
  rmatches n incompleteFunctionCallsRegex s rest c c' ->
  exists g, s = js "<function_calls>" ++ g /\ rest = [] /\ c' = set_cap 1 (Some g) c.
Proof.
  unfold incompleteFunctionCallsRegex. intros H. rx_inv. by eexists.
Qed.

Lemma piece_of_here (b y : str) : piece_of b (b ++ y).
Proof. by exists [], y. Qed.

Lemma piece_of_skip (b x y : str) : piece_of b y -> piece_of b (x ++ y).
Proof. intros (pre & post & ->). exists (x ++ pre), post. by rewrite <- app_assoc. Qed.

Lemma piece_of_cons (b : str) (x : char) (y : str) : piece_of b y -> piece_of b (x :: y).
Proof. apply (piece_of_skip b [x] y). Qed.

Lemma piece_of_prefix (b y : str) : b `prefix_of` y -> piece_of b y.
Proof. intros [k ->]. by exists [], k. Qed.

Ltac prefix_tac :=
  lazymatch goal with
  | |- ?a `prefix_of` ?a => reflexivity
  | |- [] `prefix_of` _ => apply prefix_nil
  | |- (?a ++ _) `prefix_of` (?a ++ _) => apply prefix_app; prefix_tac
  | |- ?a `prefix_of` (?a ++ _) => apply prefix_app_r; reflexivity
  end.

Ltac piece_tac :=
  lazymatch goal with
  | |- piece_of ?a ?a => apply piece_of_refl
  | |- piece_of (?a ++ _) (?a ++ _) =>
      first [ solve [apply piece_of_prefix; prefix_tac] | apply piece_of_skip; piece_tac ]
  | |- piece_of ?a (?a ++ _) => apply piece_of_here
  | |- piece_of _ (_ ++ _) => apply piece_of_skip; piece_tac
  | |- piece_of _ (_ :: _) => apply piece_of_cons; piece_tac
  end.

Ltac piece := rewrite <- ?app_assoc; piece_tac.

Lemma cap_nil (i : nat) : cap [] i = None.
Proof. by destruct i. Qed.

(** What a match of the invoke pattern of [ToolCallParser] is made of. *)
Lemma invoke_match (n : nat) s rest c' :
  rmatches n invokeRegex s rest [] c' ->
  exists name body tail,
    s = js "<invoke" ++ tail
    /\ cap c' 1 = Some name /\ attribute_text name
    /\ (cap c' 2 = None \/ exists cid, cap c' 2 = Some cid /\ attribute_text cid)
    /\ cap c' 3 = Some body /\ piece_of body s.
Proof.
  unfold invokeRegex. intros H. repeat rx_step.
  match goal with H : rmatches _ (opt _) _ _ _ _ |- _ =>
    apply opt_inv in H as [H|[-> ->]] end;
  match goal with H : rmatches _ (Alt _ _) _ _ _ _ |- _ =>
    apply alt_inv in H as [H|H] end;
  rx_inv; rewrite <- ?app_assoc;
  (eexists _, _, _; split; [reflexivity|]);
  rewrite !cap_set_cap; simpl; rewrite ?cap_set_cap, ?cap_nil; simpl;
  (split; [reflexivity|]); (split; [by split|]);
  (split; [first [by left | right; eexists; split; [reflexivity|by split]]|]);
  (split; [reflexivity|]); piece.
Qed.

(** ** The calls of the XML reader *)

Lemma digits_only_no_quote (s : str) : digits_only s -> Forall (fun x => x <> DQUOTE) s.
Proof.
  intros H. eapply Forall_impl; [exact H|]. intros x Hx ->. unfold DQUOTE in Hx. lia.
Qed.

Lemma generated_id_attribute (Date_now : N -> N) (k : N) :
  attribute_text (generated_id Date_now k).
Proof.
  unfold generated_id. split; [done|].
  repeat (apply Forall_app; split);
    try (apply digits_only_no_quote, N_to_str_digits);
    vm_compute; repeat constructor; discriminate.
Qed.

Lemma xml_call_of_piece (content text : str) (c : DetectedToolCall) :
  piece_of content text -> xml_call_of content c -> xml_call_of text c.
Proof.
  intros Hp (? & ? & ? & ? & ?). do 4 (split; [done|]). by eapply piece_of_trans.
Qed.

Lemma for_of_extend {A} (P : DetectedToolCall -> Prop) (l : list A)
    (body : list DetectedToolCall -> A -> M (list DetectedToolCall)) :
  (forall acc x p, x ∈ l ->
     exists new p', body acc x p = (Returns (acc ++ new), p') /\ Forall P new) ->
  forall acc p,
    exists new p', for_of l body acc p = (Returns (acc ++ new), p') /\ Forall P new.
Proof.
  induction l as [|x l IH]; intros Hb acc p; simpl.
  - exists [], p. by rewrite app_nil_r.
  - destruct (Hb acc x p) as (new1 & p1 & E1 & H1); [apply list_elem_of_here|].
    destruct (IH (fun acc y p Hy => Hb acc y p (list_elem_of_further _ _ _ Hy))
                (acc ++ new1) p1) as (new2 & p2 & E2 & H2).
    exists (new1 ++ new2), p2. unfold bind. rewrite E1, E2, <- app_assoc.
    split; [done|]. by apply Forall_app.
Qed.

Lemma parseInvoke_shape (Date_now : N -> N) (content : str)
    (calls : list DetectedToolCall) (m : rmatch_result) (p : ToolCallParser) :
  m ∈ matchAll invokeRegex content ->
  exists c p', parseInvoke Date_now calls m p = (Returns (calls ++ [c]), p')
               /\ xml_call_of content c.
Proof.
  intros Hm. apply matchAll_sound in Hm as (pre & rest & Ec & Hm).
  apply invoke_match in Hm as (name & body & tail & Et & H1 & Hname & H2 & H3 & Hbody).
  unfold parseInvoke, bind.
  assert (Hid : exists i p1,
             match group m 2 with [] => generateId Date_now | c => ret c end p
             = (Returns i, p1) /\ attribute_text i).
  { rewrite (group_cap m 2). destruct H2 as [->|(cid & -> & Hcid)]; simpl.
    - eexists _, _. split; [reflexivity|apply generated_id_attribute].
    - destruct cid as [|x cid]; [by destruct Hcid|]. by eexists _, _. }
  destruct Hid as (i & p1 & -> & Hi).
  destruct (safe_for_of (matchAll parameterRegex (group m 3)) parseParameter emptyObject
              safe_parseParameter p1) as (args & p2 & -> & _).
  eexists _, _. split; [reflexivity|]. unfold xml_call_of; simpl.
  split; [done|]. split.
  { exists name. split; [|done]. by rewrite (group_cap m 1), H1. }
  split; [done|]. split.
  { rewrite Et. by apply startsWith_spec; eexists. }
  rewrite Ec. piece.
Qed.

Lemma parseInvokeBlocks_shape (Date_now : N -> N) (content : str)
    (calls : list DetectedToolCall) (p : ToolCallParser) :
  exists new p', parseInvokeBlocks Date_now content calls p = (Returns (calls ++ new), p')
                 /\ Forall (xml_call_of content) new.
Proof.
  apply for_of_extend. intros acc m p0 Hm.
  destruct (parseInvoke_shape Date_now content acc m p0 Hm) as (c & p' & E & Hc).
  exists [c], p'. split; [done|]. by constructor.
Qed.

Lemma for_of_map {A B S} (f : A -> B) (l : list A) (body : S -> B -> M S)
    (acc : S) (p : ToolCallParser) :
  for_of (map f l) body acc p = for_of l (fun s a => body s (f a)) acc p.
Proof.
  revert acc p; induction l as [|x l IH]; intros acc p; simpl; [done|].
  unfold bind. destruct (body acc (f x) p) as [[?|?] ?]; [apply IH|done].
Qed.

(** The XML reader is the invoke loop over pieces of the text: the
    contents of the closed containers, or else the content of the open
    one. *)
Lemma parseXMLFormat_blocks (Date_now : N -> N) (text : str) (p : ToolCallParser) :
  exists contents,
    Forall (fun content => piece_of content text) contents
    /\ parseXMLFormat Date_now text p
       = for_of contents (fun toolCalls content =>
                            parseInvokeBlocks Date_now content toolCalls) [] p.
Proof.
  unfold parseXMLFormat.
  destruct (matchAll functionCallsRegex text) as [|m0 ms] eqn:Em.
  - destruct (exec incompleteFunctionCallsRegex text) as [m|] eqn:Ee.
    + apply exec_sound in Ee as (pre & rest & Et & Hm & _).
      apply incompleteFunctionCalls_match in Hm as (g & Eg & -> & Hc).
      exists [group m 1]. split.
      * constructor; [|constructor].
        rewrite (group_cap m 1), Hc, cap_set_cap. simpl. rewrite Et, Eg. piece.
      * simpl. unfold bind.
        by destruct (parseInvokeBlocks Date_now (group m 1) [] p) as [[?|?] ?].
    + by exists [].
  - rewrite <- Em. exists (map (fun m => group m 1) (matchAll functionCallsRegex text)).
    split.
    + apply Forall_fmap, Forall_forall. intros m Hm.
      apply matchAll_sound in Hm as (pre & rest & Et & Hm).
      apply functionCalls_match in Hm as (g & Eg & Hc). simpl.
      rewrite (group_cap m 1), Hc, cap_set_cap. simpl. rewrite Et, Eg. piece.
    + by rewrite for_of_map.
Qed.

Lemma invoke_loop_shape (Date_now : N -> N) (text : str) (contents : list str) :
  Forall (fun content => piece_of content text) contents ->
  forall acc p,
    exists new p',
      for_of contents (fun toolCalls content =>
                         parseInvokeBlocks Date_now content toolCalls) acc p
      = (Returns (acc ++ new), p')
      /\ Forall (xml_call_of text) new.
Proof.
  intros Hc. apply for_of_extend. intros acc content p Hin.
  rewrite Forall_forall in Hc.
  destruct (parseInvokeBlocks_shape Date_now content acc p) as (new & p' & E & H).
  exists new, p'. split; [done|].
  eapply Forall_impl; [exact H|]. intros c. apply xml_call_of_piece. by apply Hc.
Qed.

Lemma no_container_no_match (text : str) :
  includes text (js "<function_calls>") = false ->
  matchAll functionCallsRegex text = [] /\ exec incompleteFunctionCallsRegex text = None.
Proof.
  intros Hn. split.
  - destruct (matchAll functionCallsRegex text) as [|m ms] eqn:Em; [done|].
    assert (Hm : m ∈ matchAll functionCallsRegex text) by (rewrite Em; apply list_elem_of_here).
    apply matchAll_sound in Hm as (pre & rest & Et & Hm).
    apply functionCalls_match in Hm as (g & Eg & _).
    assert (includes text (js "<function_calls>") = true); [|congruence].
    apply includes_spec. rewrite Et, Eg. piece.
  - destruct (exec incompleteFunctionCallsRegex text) as [m|] eqn:Ee; [|done].
    apply exec_sound in Ee as (pre & rest & Et & Hm & _).
    apply incompleteFunctionCalls_match in Hm as (g & Eg & _).
    assert (includes text (js "<function_calls>") = true); [|congruence].
    apply includes_spec. rewrite Et, Eg. piece.
Qed.

(** X2: without the opening tag of the container the XML reader finds
    nothing and leaves the parser as it was, so that [parseMessage] is
    the JSON reader; a text that passes the test of the scan on the
    invoke tag alone is of this kind. *)
Theorem xml_needs_container :
  forall (Date_now : N -> N) (Number_toString : number -> str) (text : str)
         (p : ToolCallParser),
    includes text (js "<function_calls>") = false ->
    parseXMLFormat Date_now text p = (Returns [], p)
    /\ parseMessage Date_now Number_toString text p
       = parseJSONFormat Date_now Number_toString text p.
Proof.
  intros Date_now Number_toString text p Hn.
  destruct (no_container_no_match text Hn) as [Em Ee].
  assert (Hx : parseXMLFormat Date_now text p = (Returns [], p)).
  { unfold parseXMLFormat. by rewrite Em, Ee. }
  split; [done|]. unfold parseMessage, bind. rewrite Hx.
  by destruct (parseJSONFormat Date_now Number_toString text p) as [[?|?] ?].
Qed.

Lemma xml_needs_container_witness :
  includes (js "<invoke name=$read_file$ call_id=$1$></invoke>") (js "<function_calls>") = false
  /\ parseXMLFormat still_clock (js "<invoke name=$read_file$ call_id=$1$></invoke>") newParser
     = (Returns [], newParser).
Proof.
  split; [reflexivity|].
  apply (xml_needs_container still_clock print_integer
           (js "<invoke name=$read_file$ call_id=$1$></invoke>") newParser).
  reflexivity.
Defined.

(** ** The calls that are not closed *)

(** *** The matcher on texts of a known shape *)

Lemma startsWith_app (w s : str) : startsWith (w ++ s) w = true.
Proof.
  induction w as [|x w IH]; simpl; [by destruct s|].
  unfold char_eqb. by rewrite N.eqb_refl.
Qed.

Lemma rmatch_seq_cons (n : nat) (a : re) (l : list re) k s c :
  rmatch n (seq (a :: l)) k s c = rmatch n a (fun s' c' => rmatch n (seq l) k s' c') s c.
Proof. destruct l; [|done]. simpl. by destruct a. Qed.

Lemma rmatch_lit (n : nat) (w : str) k s c :
  rmatch n (lit w) k s c = if startsWith s w then k (drop (length w) s) c else None.
Proof.
  unfold lit. revert s; induction w as [|x w IH]; intros s.
  - simpl. by destruct s.
  - change (map chr (x :: w)) with (chr x :: map chr w). rewrite rmatch_seq_cons.
    destruct s as [|y s]; [done|]. simpl. unfold char_eqb.
    destruct (N.eqb x y); simpl; [apply IH|done].
Qed.

Lemma rmatch_lit_here (n : nat) (w : str) k s c :
  rmatch n (lit w) k (w ++ s) c = k s c.
Proof. by rewrite rmatch_lit, startsWith_app, drop_app_length. Qed.

Lemma rmatch_lit_first_fails (n : nat) (w : str) (l : list re) k s c :
  startsWith s w = false -> rmatch n (seq (lit w :: l)) k s c = None.
Proof. intros H. by rewrite rmatch_seq_cons, rmatch_lit, H. Qed.

(** A greedy repetition of a class takes a whole run of the class, when
    the rest of the pattern then succeeds. *)
Lemma star_loop_class (n : nat) (p : char -> bool) k (w rest : str) c x (fuel : nat) :
  forallb p w = true ->
  match rest with y :: _ => p y = false | [] => True end ->
  k rest c = Some x ->
  (length (w ++ rest) <= fuel)%nat ->
  star_loop (rmatch n (Chr p)) true k fuel (w ++ rest) c = Some x.
Proof.
  intros Hw Hrest Hk. revert fuel; induction w as [|a w IH]; intros fuel Hf.
  - destruct fuel as [|f]; simpl; [done|].
    destruct rest as [|y rest]; [done|]. by rewrite Hrest.
  - simpl in Hw. apply andb_true_iff in Hw as [Ha Hw].
    destruct fuel as [|f]; [simpl in Hf; lia|].
    cbn [star_loop app rmatch]. rewrite Ha.
    replace (length (w ++ rest) <? length (a :: w ++ rest))%nat with true
      by (symmetry; apply Nat.ltb_lt; simpl; lia).
    fold (star_loop (rmatch n (Chr p)) true k).
    rewrite IH; [done|done|]. simpl in Hf. lia.
Qed.

Lemma rmatch_plus_class (n : nat) (p : char -> bool) k (w rest : str) c x :
  w <> [] ->
  forallb p w = true ->
  match rest with y :: _ => p y = false | [] => True end ->
  k rest c = Some x ->
  rmatch n (plus (Chr p)) k (w ++ rest) c = Some x.
Proof.
  intros Hne Hw Hrest Hk. destruct w as [|a w]; [done|].
  simpl in Hw. apply andb_true_iff in Hw as [Ha Hw].
  unfold plus. cbn [rmatch app]. rewrite Ha.
  change (rmatch n (Star true (Chr p)) k (w ++ rest) c = Some x).
  rewrite rmatch_star. by apply star_loop_class.
Qed.

Lemma rmatch_class_fails (n : nat) (p : char -> bool) (l : list re) k (y : char) s c :
  p y = false -> rmatch n (seq (plus (Chr p) :: l)) k (y :: s) c = None.
Proof. intros H. rewrite rmatch_seq_cons. unfold plus. cbn [rmatch]. by rewrite H. Qed.

(** A lazy repetition takes nothing when the rest of the pattern
    succeeds at once. *)
Lemma rmatch_lazy_now (n : nat) (a : re) k s c x :
  k s c = Some x -> rmatch n (star_lazy a) k s c = Some x.
Proof.
  intros Hk. unfold star_lazy. rewrite rmatch_star.
  destruct (length s); simpl; by rewrite Hk.
Qed.

(** A lazy repetition of any character goes on to the first place where
    the rest of the pattern succeeds. *)
Lemma star_loop_lazy_any (n : nat) k (w rest : str) c x (fuel : nat) :
  (forall a b, w = a ++ b -> b <> [] -> k (b ++ rest) c = None) ->
  k rest c = Some x ->
  (length (w ++ rest) <= fuel)%nat ->
  star_loop (rmatch n any_char) false k fuel (w ++ rest) c = Some x.
Proof.
  intros Hw Hk. revert fuel; induction w as [|a w IH]; intros fuel Hf.
  - destruct fuel as [|f]; simpl; by rewrite Hk.
  - destruct fuel as [|f]; [simpl in Hf; lia|].
    cbn [star_loop]. rewrite (Hw [] (a :: w)) by done.
    cbn [app any_char rmatch].
    replace (length (w ++ rest) <? length (a :: w ++ rest))%nat with true
      by (symmetry; apply Nat.ltb_lt; simpl; lia).
    fold (star_loop (rmatch n (Chr (fun _ => true))) false k).
    apply IH; [|simpl in Hf; lia].
    intros a' b -> Hb. by apply (Hw (a :: a') b).
Qed.

Lemma rmatch_lazy_any_end (n : nat) k (s : str) c x :
  (forall a b, s = a ++ b -> b <> [] -> k b c = None) ->
  k [] c = Some x ->
  rmatch n (star_lazy any_char) k s c = Some x.
Proof.
  intros Hs Hk. rewrite <- (app_nil_r s). unfold star_lazy. rewrite rmatch_star.
  apply star_loop_lazy_any; [|done|done].
  intros a b Hab Hb. rewrite app_nil_r. by apply (Hs a b).
Qed.

Lemma rmatch_group (n i : nat) (a : re) k s c :
  rmatch n (Group i a) k s c
  = rmatch n a (fun s' c' => k s' (set_cap i (Some (take (length s - length s') s)) c')) s c.
Proof. reflexivity. Qed.

Lemma rmatch_alt (n : nat) (a b : re) k s c :
  rmatch n (Alt a b) k s c
  = match rmatch n a k s c with Some x => Some x | None => rmatch n b k s c end.
Proof. reflexivity. Qed.

Lemma rmatch_chr_here (n : nat) (x : char) k s c :
  rmatch n (chr x) k (x :: s) c = k s c.
Proof. simpl. unfold char_eqb. by rewrite N.eqb_refl. Qed.

Lemma take_matched (w r : str) : take (length (w ++ r) - length r) (w ++ r) = w.
Proof.
  rewrite length_app. replace (length w + length r - length r)%nat with (length w) by lia.
  by rewrite take_app_length.
Qed.

Lemma includes_suffix (s w a b : str) :
  includes s w = false -> s = a ++ b -> startsWith b w = false.
Proof.
  intros Hn ->. induction a as [|x a IH]; simpl in Hn.
  - destruct b; simpl in Hn; by apply orb_false_iff in Hn as [? _].
  - apply orb_false_iff in Hn as [_ Hn]. by apply IH.
Qed.

Lemma first_index_from_spec (w s : str) (pos i : nat) :
  first_index_from w s pos = Some i ->
  exists pre rest,
    s = pre ++ rest /\ i = (pos + length pre)%nat /\ startsWith rest w = true
    /\ forall a b, pre = a ++ b -> b <> [] -> startsWith (b ++ rest) w = false.
Proof.
  revert pos; induction s as [|y s IH]; intros pos; cbn [first_index_from].
  - destruct (startsWith [] w) eqn:E; [|done]. intros [= <-].
    exists [], []. split; [done|]. split; [simpl; lia|]. split; [done|].
    intros a b Hab Hb. by destruct a, b.
  - destruct (startsWith (y :: s) w) eqn:E.
    + intros [= <-]. exists [], (y :: s). split; [done|]. split; [simpl; lia|].
      split; [done|]. intros a b Hab Hb. by destruct a, b.
    + intros H. apply IH in H as (pre & rest & -> & -> & Hr & Hp).
      exists (y :: pre), rest. split; [done|]. split; [simpl; lia|]. split; [done|].
      intros a b Hab Hb. destruct a as [|a0 a]; simpl in Hab.
      * subst b. exact E.
      * injection Hab as -> ->. by apply (Hp a b).
Qed.

Lemma first_index_split (w s pre rest : str) :
  first_index w s = Some (length pre) ->
  s = pre ++ rest ->
  startsWith rest w = true
  /\ forall a b, pre = a ++ b -> b <> [] -> startsWith (b ++ rest) w = false.
Proof.
  intros Hi Hs. apply first_index_from_spec in Hi as (pre' & rest' & E & Hl & Hr & Hp).
  simpl in Hl. rewrite Hs in E. apply app_inj_1 in E as [-> ->]; [|done].
  by split.
Qed.

(** The search goes past the places where the pattern fails. *)
Lemma search_skip (n : nat) (r : re) (pre s : str) (pos : nat) (m : rmatch_result) :
  (forall a b, pre = a ++ b -> b <> [] ->
               rmatch n r (fun s' c' => Some (s', c')) (b ++ s) [] = None) ->
  match_at n r (pos + length pre) s = Some m ->
  search n r pos (pre ++ s) = Some m.
Proof.
  revert pos; induction pre as [|y pre IH]; intros pos Hpre Hm.
  - simpl in *. rewrite Nat.add_0_r in Hm. destruct s; simpl; by rewrite Hm.
  - cbn [app search]. unfold match_at at 1.
    assert (H0 : rmatch n r (fun s' c' => Some (s', c')) (y :: pre ++ s) [] = None)
      by (by apply (Hpre [] (y :: pre))).
    rewrite H0. apply IH.
    + intros a b -> Hb. by apply (Hpre (y :: a) b).
    + by replace (S pos + length pre)%nat with (pos + length (y :: pre))%nat
        by (simpl; lia).
Qed.

Lemma match_at_whole (n : nat) (r : re) (pos : nat) (s : str) (c : caps) :
  rmatch n r (fun s' c' => Some (s', c')) s [] = Some ([], c) ->
  match_at n r (0 + pos) s
  = Some {| m_index := pos; m_end := (pos + length s)%nat; m_text := s; m_caps := c |}.
Proof.
  intros H. unfold match_at. rewrite H. cbn [length].
  by rewrite Nat.sub_0_r, firstn_all.
Qed.

(** *** The patterns of the XML reader on a call that is not closed *)

(** The end of the invoke pattern on a body without closing tag: the
    body is taken to the end of the text. *)
Lemma invoke_tail (n : nat) (body : str) (c : caps) :
  includes body (js "</invoke>") = false ->
  rmatch n (seq [star_lazy (not_chr 62); chr 62; Group 3 (star_lazy any_char);
                 Alt (lit (js "</invoke>")) Eol])
    (fun s' c' => Some (s', c')) (js ">" ++ body) c
  = Some ([], set_cap 3 (Some body) c).
Proof.
  intros Hb. rewrite rmatch_seq_cons. apply rmatch_lazy_now.
  rewrite rmatch_seq_cons. change (js ">" ++ body) with (62 :: body).
  rewrite rmatch_chr_here, rmatch_seq_cons, rmatch_group.
  apply rmatch_lazy_any_end.
  - intros a b Hab Hne. cbn [seq]. rewrite rmatch_alt, rmatch_lit.
    rewrite (includes_suffix body _ a b Hb Hab).
    destruct b; [done|reflexivity].
  - cbn [seq]. rewrite rmatch_alt, rmatch_lit. cbn [startsWith js].
    simpl. by rewrite Nat.sub_0_r, firstn_all.
Qed.

Lemma blank_spec (sp : str) : blank sp = true -> sp <> [] /\ forallb is_space sp = true.
Proof. unfold blank. intros [H1 H2]%andb_true_iff. split; [|done]. by destruct sp. Qed.

Lemma attribute_value_spec (v : str) :
  attribute_value v = true ->
  v <> [] /\ forallb (fun x => negb (char_eqb x DQUOTE)) v = true.
Proof.
  unfold attribute_value. intros [H1 H2]%andb_true_iff. split; [|done]. by destruct v.
Qed.

(** The invoke pattern on an opening tag and a body without closing tag. *)
Lemma invoke_tag_match (n : nat) (sp name : str) (cid : option (str * str)) (body : str) :
  well_formed_tag sp name cid = true ->
  includes body (js "</invoke>") = false ->
  rmatch n invokeRegex (fun s' c' => Some (s', c')) (openInvokeTag sp name cid ++ body) []
  = Some ([], set_cap 3 (Some body)
                (match cid with
                 | Some (_, i) => set_cap 2 (Some i) (set_cap 1 (Some name) [])
                 | None => set_cap 1 (Some name) []
                 end)).
Proof.
  intros Hwf Hbody. unfold well_formed_tag in Hwf.
  apply andb_true_iff in Hwf as [[Hsp Hname]%andb_true_iff Hcid].
  apply blank_spec in Hsp as [Hsp1 Hsp2].
  apply attribute_value_spec in Hname as [Hn1 Hn2].
  unfold invokeRegex, openInvokeTag. rewrite <- !app_assoc.
  rewrite rmatch_seq_cons, rmatch_lit_here, rmatch_seq_cons.
  apply rmatch_plus_class; [done|done|exact eq_refl|]. cbv beta.
  rewrite rmatch_seq_cons, rmatch_lit_here, rmatch_seq_cons, rmatch_group.
  apply rmatch_plus_class; [done|done|exact eq_refl|]. cbv beta.
  rewrite take_matched.
  rewrite rmatch_seq_cons. change ([DQUOTE] ++ ?x) with (DQUOTE :: x).
  rewrite rmatch_chr_here, rmatch_seq_cons. unfold opt. rewrite rmatch_alt.
  destruct cid as [[sp' i]|].
  - apply andb_true_iff in Hcid as [Hsp' Hi].
    apply blank_spec in Hsp' as [Hs1 Hs2].
    apply attribute_value_spec in Hi as [Hi1 Hi2].
    rewrite <- !app_assoc.
    match goal with
    | |- match ?t with Some _ => _ | None => _ end = _ =>
        assert (E : t = Some ([], set_cap 3 (Some body)
                                    (set_cap 2 (Some i) (set_cap 1 (Some name) []))))
    end.
    { rewrite rmatch_seq_cons.
      apply rmatch_plus_class; [done|done|exact eq_refl|]. cbv beta.
      rewrite rmatch_seq_cons, rmatch_lit_here, rmatch_seq_cons, rmatch_group.
      apply rmatch_plus_class; [done|done|exact eq_refl|]. cbv beta.
      rewrite take_matched. cbn [seq]. change ([DQUOTE] ++ ?x) with (DQUOTE :: x).
      rewrite rmatch_chr_here. by apply invoke_tail. }
    by rewrite E.
  - cbn [app]. change (js ">" ++ body) with (62 :: body). unfold ws.
    rewrite rmatch_class_fails by reflexivity.
    cbn [rmatch]. change (62 :: body) with (js ">" ++ body).
    by apply invoke_tail.
Qed.

Lemma openInvokeTag_starts (sp name : str) (cid : option (str * str)) :
  exists x tail, openInvokeTag sp name cid = x :: tail.
Proof. by eexists _, _. Qed.

(** The one match of the invoke pattern in a content whose first invoke
    tag is not closed. *)
Lemma unclosed_invoke_match (gap sp name : str) (cid : option (str * str)) (body : str) :
  first_index (js "<invoke") (gap ++ openInvokeTag sp name cid ++ body)
    = Some (length gap) ->
  well_formed_tag sp name cid = true ->
  includes body (js "</invoke>") = false ->
  exists m,
    matchAll invokeRegex (gap ++ openInvokeTag sp name cid ++ body) = [m]
    /\ m_text m = openInvokeTag sp name cid ++ body
    /\ group m 1 = name
    /\ group m 2 = match cid with Some (_, i) => i | None => [] end
    /\ group m 3 = body.
Proof.
  intros Hi Hwf Hbody.
  destruct (first_index_split _ _ gap (openInvokeTag sp name cid ++ body) Hi eq_refl)
    as [_ Hgap].
  set (tag := openInvokeTag sp name cid) in *.
  set (s := gap ++ tag ++ body).
  pose proof (invoke_tag_match (length s) sp name cid body Hwf Hbody) as Hm.
  fold tag in Hm.
  set (caps := set_cap 3 (Some body)
                 match cid with
                 | Some (_, i) => set_cap 2 (Some i) (set_cap 1 (Some name) [])
                 | None => set_cap 1 (Some name) []
                 end) in *.
  set (m := {| m_index := length gap;
               m_end := (length gap + length (tag ++ body))%nat;
               m_text := tag ++ body;
               m_caps := caps |}).
  assert (Hsearch : search (length s) invokeRegex 0 s = Some m).
  { apply search_skip.
    - intros a b Hab Hb. apply rmatch_lit_first_fails. by apply (Hgap a b).
    - by apply match_at_whole. }
  assert (Htext : m_text m = tag ++ body) by done.
  assert (Hend : m_end m = length s).
  { unfold m, s; cbn [m_end]. rewrite !length_app. lia. }
  assert (Hlen : (m_index m < m_end m)%nat).
  { unfold m; cbn [m_end m_index].
    destruct (openInvokeTag_starts sp name cid) as (x & tail & E).
    fold tag in E. rewrite E. simpl. lia. }
  exists m. split; [|split; [done|]].
  - unfold matchAll. cbn [matchAll_from]. rewrite Hsearch.
    replace (m_end m =? m_index m)%nat with false
      by (symmetry; apply Nat.eqb_neq; lia).
    rewrite Hend. f_equal.
    replace (length s + 0 <? length s)%nat with false
      by (symmetry; apply Nat.ltb_ge; lia).
    rewrite Nat.sub_0_r, drop_all.
    destruct (length s) as [|f]; [done|]. cbn [matchAll_from search].
    unfold match_at, invokeRegex. by rewrite rmatch_lit_first_fails.
  - unfold group, m, caps; cbn [m_caps]. by destruct cid as [[sp' i]|].
Qed.

Lemma no_closed_container (text : str) :
  includes text (js "</function_calls>") = false ->
  matchAll functionCallsRegex text = [].
Proof.
  intros Hn. destruct (matchAll functionCallsRegex text) as [|m ms] eqn:Em; [done|].
  assert (Hm : m ∈ matchAll functionCallsRegex text) by (rewrite Em; apply list_elem_of_here).
  apply matchAll_sound in Hm as (pre & rest & Et & Hm).
  apply functionCalls_match in Hm as (g & Eg & _).
  assert (includes text (js "</function_calls>") = true); [|congruence].
  apply includes_spec. rewrite Et, Eg. piece.
Qed.

(** The open container: the content is the text after the first opening
    tag. *)
Lemma open_container_match (pre content : str) :
  first_index (js "<function_calls>") (pre ++ js "<function_calls>" ++ content)
    = Some (length pre) ->
  exists m,
    exec incompleteFunctionCallsRegex (pre ++ js "<function_calls>" ++ content) = Some m
    /\ group m 1 = content.
Proof.
  intros Hi.
  destruct (first_index_split _ _ pre (js "<function_calls>" ++ content) Hi eq_refl)
    as [_ Hpre].
  set (s := pre ++ js "<function_calls>" ++ content).
  assert (Hm : rmatch (length s) incompleteFunctionCallsRegex
                 (fun s' c' => Some (s', c')) (js "<function_calls>" ++ content) []
               = Some ([], set_cap 1 (Some content) [])).
  { unfold incompleteFunctionCallsRegex.
    rewrite rmatch_seq_cons, rmatch_lit_here, rmatch_seq_cons, rmatch_group.
    apply rmatch_lazy_any_end.
    - intros a b _ Hb. by destruct b.
    - simpl. by rewrite Nat.sub_0_r, firstn_all. }
  eexists. split.
  - unfold exec. apply search_skip.
    + intros a b Hab Hb. apply rmatch_lit_first_fails. by apply (Hpre a b).
    + apply match_at_whole. exact Hm.
  - reflexivity.
Qed.

Lemma parseParameter_pure (args : object) (m : rmatch_result) (p : ToolCallParser) :
  exists args', parseParameter args m p = (Returns args', p).
Proof.
  unfold parseParameter, bind, lift, ret. rewrite parseValue_returns. by eexists.
Qed.

Lemma parameters_pure (ms : list rmatch_result) (args : object) (p : ToolCallParser) :
  exists args', for_of ms parseParameter args p = (Returns args', p).
Proof.
  revert args; induction ms as [|m ms IH]; intros args; simpl; [by eexists|].
  unfold bind. destruct (parseParameter_pure args m p) as (a1 & ->). apply IH.
Qed.

(** Without a closed container, the XML reader reads the content after
    the first opening tag of the container, to the end of the text. *)
Lemma open_container_read (Date_now : N -> N) (text pre content : str)
    (p : ToolCallParser) :
  text = pre ++ js "<function_calls>" ++ content ->
  first_index (js "<function_calls>") text = Some (length pre) ->
  includes text (js "</function_calls>") = false ->
  parseXMLFormat Date_now text p = parseInvokeBlocks Date_now content [] p.
Proof.
  intros Ht Hfc Hnc. rewrite Ht in Hfc.
  destruct (open_container_match pre _ Hfc) as (m0 & Em0 & Hcontent).
  unfold parseXMLFormat. by rewrite (no_closed_container text Hnc), Ht, Em0, Hcontent.
Qed.

(** With a closed container, the XML reader reads the contents of the
    closed containers and nothing else. *)
Lemma closed_containers_only (Date_now : N -> N) (text : str) (p : ToolCallParser) :
  matchAll functionCallsRegex text <> [] ->
  exists calls p',
    parseXMLFormat Date_now text p = (Returns calls, p')
    /\ Forall (in_closed_container text) calls.
Proof.
  intros Hne. unfold parseXMLFormat.
  destruct (matchAll functionCallsRegex text) as [|m0 ms] eqn:Em; [done|].
  rewrite <- Em.
  destruct (for_of_extend (in_closed_container text) (matchAll functionCallsRegex text)
              (fun toolCalls m => parseInvokeBlocks Date_now (group m 1) toolCalls))
    with (acc := @nil DetectedToolCall) (p := p) as (new & p' & E & Hnew).
  - intros acc m p0 Hm.
    destruct (parseInvokeBlocks_shape Date_now (group m 1) acc p0) as (new & p' & E & H).
    exists new, p'. split; [done|].
    apply matchAll_sound in Hm as (pre & rest & Et & Hm).
    apply functionCalls_match in Hm as (g & Eg & Hc).
    eapply Forall_impl; [exact H|]. intros c (_ & _ & _ & _ & Hpiece).
    exists g. split.
    + rewrite Et, Eg. piece.
    + by rewrite (group_cap m 1), Hc, cap_set_cap in Hpiece.
  - by exists new, p'.
Qed.

(** In a text without a closed container, whose open container begins
    with an invoke tag and a body without closing tag, the XML reader
    finds that one call, and its raw text runs to the end of the text. *)
Lemma unclosed_invoke_parsed (Date_now : N -> N) (Number_toString : number -> str)
    (text pre gap sp name : str) (cid : option (str * str)) (body : str)
    (p : ToolCallParser) :
  text = pre ++ js "<function_calls>" ++ gap ++ openInvokeTag sp name cid ++ body ->
  first_index (js "<function_calls>") text = Some (length pre) ->
  first_index (js "<invoke") (gap ++ openInvokeTag sp name cid ++ body)
    = Some (length gap) ->
  well_formed_tag sp name cid = true ->
  includes text (js "</function_calls>") = false ->
  includes body (js "</invoke>") = false ->
  let p' := match cid with
            | Some _ => p
            | None => {| idCounter := idCounter p + 1 |}
            end in
  exists args,
    for_of (matchAll parameterRegex body) parseParameter emptyObject p' = (Returns args, p')
    /\ parseMessage Date_now Number_toString text p =
       (Returns [{| id := match cid with
                          | Some (_, i) => i
                          | None => generated_id Date_now (idCounter p)
                          end;
                    toolName := JString name; arguments := args;
                    rawText := openInvokeTag sp name cid ++ body;
                    format := format_xml |}], p').
Proof.
  intros Ht Hfc Hinv Hwf Hnc Hbody p'.
  destruct (parameters_pure (matchAll parameterRegex body) emptyObject p') as (args & Eargs).
  exists args. split; [done|].
  destruct (unclosed_invoke_match gap sp name cid body Hinv Hwf Hbody)
    as (m & Em & Htext & Hg1 & Hg2 & Hg3).
  rewrite Ht in Hfc.
  destruct (open_container_match pre _ Hfc) as (m0 & Em0 & Hcontent).
  unfold parseMessage, parseXMLFormat, bind.
  rewrite (no_closed_container text Hnc), Ht, Em0, Hcontent.
  unfold parseInvokeBlocks. rewrite Em. cbn [for_of]. unfold bind, parseInvoke, bind.
  rewrite Hg1, Hg2, Hg3, Htext.
  destruct cid as [[sp' i]|].
  - assert (Hi : i <> []).
    { unfold well_formed_tag in Hwf. apply andb_true_iff in Hwf as [_ Hwf].
      apply andb_true_iff in Hwf as [_ Hi]. by apply attribute_value_spec in Hi as [? _]. }
    destruct i as [|x i]; [done|]. unfold ret at 1. subst p'. cbv beta iota.
    by rewrite Eargs.
  - unfold generateId. subst p'. cbv beta iota. by rewrite Eargs.
Qed.

(** A start line followed by lines that neither open nor close a call:
    its call is open at the end of the loop, and is the last call of the
    result. *)
Lemma unclosed_json_call (Date_now : N -> N) (Number_toString : number -> str)
    (text : str) (pre : list str) (l : str) (post : list str) (p : ToolCallParser) :
  split_lines text = pre ++ l :: post ->
  is_start_line l = true ->
  Forall (fun l' => is_start_line l' = false /\ is_end_line l' = false) post ->
  exists st1 p1 c,
    for_of pre (parseJSONFormat_line Date_now Number_toString) json_loop_init p
      = (Returns st1, p1)
    /\ for_of (split_lines text) (parseJSONFormat_line Date_now Number_toString)
         json_loop_init p
       = (Returns {| toolCalls := toolCalls st1; currentCall := Some c |},
          {| idCounter := idCounter p1 + 1 |})
    /\ parseJSONFormat Date_now Number_toString text p
       = (Returns (toolCalls st1 ++ [c]), {| idCounter := idCounter p1 + 1 |})
    /\ (includes text (js "<function_calls>") = false ->
        parseMessage Date_now Number_toString text p
        = (Returns (toolCalls st1 ++ [c]), {| idCounter := idCounter p1 + 1 |}))
    /\ id c = generated_id Date_now (idCounter p1)
    /\ (exists parsed,
          JSON_parse (trim l) = Returns parsed
          /\ get parsed (js "name") = Returns (Some (toolName c)))
    /\ format c = format_json
    /\ exists more, rawText c = trim l ++ more.
Proof.
  intros Hsplit Hs Hpost.
  destruct (safe_for_of pre (parseJSONFormat_line Date_now Number_toString)
              json_loop_init
              (safe_parseJSONFormat_line Date_now Number_toString) p)
    as (st1 & p1 & E1 & _).
  destruct (start_line_step Date_now Number_toString st1 l p1 Hs)
    as (parsed & name & Hp & Hn & Ht & E2).
  destruct (open_call_stays Date_now Number_toString post (toolCalls st1)
              {| id := generated_id Date_now (idCounter p1); toolName := name;
                 arguments := emptyObject; rawText := trim l; format := format_json |}
              {| idCounter := idCounter p1 + 1 |} Hpost)
    as (c & E3 & Hid & Hname & Hformat & more & Hraw).
  simpl in Hid, Hname, Hformat, Hraw.
  assert (Hloop : for_of (split_lines text) (parseJSONFormat_line Date_now Number_toString)
                    json_loop_init p
                  = (Returns {| toolCalls := toolCalls st1; currentCall := Some c |},
                     {| idCounter := idCounter p1 + 1 |})).
  { rewrite Hsplit, for_of_app, E1. simpl. unfold bind at 1. by rewrite E2. }
  assert (Hjson : parseJSONFormat Date_now Number_toString text p
                  = (Returns (toolCalls st1 ++ [c]), {| idCounter := idCounter p1 + 1 |})).
  { unfold parseJSONFormat, bind. rewrite Hloop. cbn [currentCall toolCalls].
    by rewrite Hname, Ht. }
  exists st1, p1, c. split; [done|]. split; [done|]. split; [done|]. split.
  { intros Hno. destruct (no_container_no_match text Hno) as [Em Ee].
    unfold parseMessage, bind, parseXMLFormat. rewrite Em, Ee. cbn [ret].
    by rewrite Hjson. }
  split; [done|]. split; [exists parsed; by rewrite Hname|].
  split; [done|by exists more].
Qed.

(** C2, as the code has it: the parser has one output list, and its
    records carry no mark of completeness; for an element that is not in
    the ledger and whose text shows the opening tag of a container or of
    an invocation, a scan hands every call of a result that is not empty
    to the consumer, and enters the element in the ledger (an element
    whose text shows neither tag is skipped). Calls whose closing marker
    is missing are in the list of the parser in these cases.
    - The streaming XML call of scenario 2 is returned, with the part of
      its argument that has arrived.
    - In a text without closing tag of the container, the content after
      the first opening tag is read to the end of the text. If the first
      invoke tag of that content has a name (after white space) and then
      nothing or a call_id (after white space), and no closing tag of the
      invocation follows, the result is one call: it has that name, the
      call_id or else a generated identity, the arguments of the
      parameters of the rest of the text, and as raw text the tag and the
      whole rest of the text, further invoke tags included.
    - In a content that has been selected, every match of the invoke
      pattern gives one call with the text of the match.
    - When the text has a closed container, the raw text of every call
      of the XML reader lies in the content of a closed container.
    - A function_call_start line followed only by lines that neither
      open nor close a call leaves its call open at the end of the loop,
      and this call is then the last call of the result of the JSON
      reader, after the calls pushed before the line; this is the result
      of [parseMessage] when the text has no opening tag of a container.
    Other calls that are not closed are not in the list: an open
    container that follows a closed one is not read, and of two
    invocations that are not closed the second is part of the raw text of
    the first (an open JSON call that another start line follows is
    the case of C10). *)
Theorem unclosed_candidate_is_output :
  forall (Date_now : N -> N) (Number_toString : number -> str),
    (forall p,
        parseMessage Date_now Number_toString xmlStreaming p =
        (Returns [{| id := js "1"; toolName := JString (js "read_file");
                     arguments := {| own := [(js "path", JString (js "/tmp/te"))];
                                     proto := ObjectPrototype |};
                     rawText := js "<invoke name=$read_file$ call_id=$1$><parameter name=$path$>/tmp/te";
                     format := format_xml |}], p))
    /\ (forall text pre gap sp name cid body p,
          text = pre ++ js "<function_calls>" ++ gap ++ openInvokeTag sp name cid ++ body ->
          first_index (js "<function_calls>") text = Some (length pre) ->
          first_index (js "<invoke") (gap ++ openInvokeTag sp name cid ++ body)
            = Some (length gap) ->
          well_formed_tag sp name cid = true ->
          includes text (js "</function_calls>") = false ->
          includes body (js "</invoke>") = false ->
          let p' := match cid with
                    | Some _ => p
                    | None => {| idCounter := idCounter p + 1 |}
                    end in
          exists args,
            for_of (matchAll parameterRegex body) parseParameter emptyObject p'
              = (Returns args, p')
            /\ parseMessage Date_now Number_toString text p =
               (Returns [{| id := match cid with
                                  | Some (_, i) => i
                                  | None => generated_id Date_now (idCounter p)
                                  end;
                            toolName := JString name; arguments := args;
                            rawText := openInvokeTag sp name cid ++ body;
                            format := format_xml |}], p'))
    /\ (forall text pre content p,
          text = pre ++ js "<function_calls>" ++ content ->
          first_index (js "<function_calls>") text = Some (length pre) ->
          includes text (js "</function_calls>") = false ->
          parseXMLFormat Date_now text p = parseInvokeBlocks Date_now content [] p)
    /\ (forall content calls p,
          exists new p',
            parseInvokeBlocks Date_now content calls p = (Returns (calls ++ new), p')
            /\ map rawText new = map m_text (matchAll invokeRegex content))
    /\ (forall text p,
          matchAll functionCallsRegex text <> [] ->
          exists calls p',
            parseXMLFormat Date_now text p = (Returns calls, p')
            /\ Forall (in_closed_container text) calls)
    /\ (forall text pre l post p,
          split_lines text = pre ++ l :: post ->
          is_start_line l = true ->
          Forall (fun l' => is_start_line l' = false /\ is_end_line l' = false) post ->
          exists st1 p1 c,
            for_of pre (parseJSONFormat_line Date_now Number_toString) json_loop_init p
              = (Returns st1, p1)
            /\ for_of (split_lines text) (parseJSONFormat_line Date_now Number_toString)
                 json_loop_init p
               = (Returns {| toolCalls := toolCalls st1; currentCall := Some c |},
                  {| idCounter := idCounter p1 + 1 |})
            /\ parseJSONFormat Date_now Number_toString text p
               = (Returns (toolCalls st1 ++ [c]), {| idCounter := idCounter p1 + 1 |})
            /\ (includes text (js "<function_calls>") = false ->
                parseMessage Date_now Number_toString text p
                = (Returns (toolCalls st1 ++ [c]), {| idCounter := idCounter p1 + 1 |}))
            /\ id c = generated_id Date_now (idCounter p1)
            /\ (exists parsed,
                  JSON_parse (trim l) = Returns parsed
                  /\ get parsed (js "name") = Returns (Some (toolName c)))
            /\ format c = format_json
            /\ exists more, rawText c = trim l ++ more)
    /\ (forall ext b c calls p',
          node b ∉ processedElements ext ->
          includes (default [] (textContent b)) (js "<function_calls>")
          || includes (default [] (textContent b)) (js "<invoke") = true ->
          parseMessage Date_now Number_toString (default [] (textContent b)) (parser ext)
            = (Returns (c :: calls), p') ->
          scanBlock Date_now Number_toString ext b =
          Returns {| parser := p';
                     processedElements := {[node b]} ∪ processedElements ext;
                     injected := injected ext ++ map (fun x => (x, node b)) (c :: calls) |})
    /\ (forall ext b,
          includes (default [] (textContent b)) (js "<function_calls>") = false ->
          includes (default [] (textContent b)) (js "<invoke") = false ->
          scanBlock Date_now Number_toString ext b = Returns ext)
    /\ (forall p,
          parseMessage Date_now Number_toString xmlClosedThenOpen p =
          (Returns [{| id := js "1"; toolName := JString (js "a");
                       arguments := emptyObject;
                       rawText := js "<invoke name=$a$ call_id=$1$></invoke>";
                       format := format_xml |}], p))
    /\ (forall p,
          parseMessage Date_now Number_toString xmlTwoUnclosed p =
          (Returns [{| id := generated_id Date_now (idCounter p);
                       toolName := JString (js "a");
                       arguments := {| own := [(js "x", JString (js "1<invoke name=$b$>"))];
                                       proto := ObjectPrototype |};
                       rawText := js "<invoke name=$a$><parameter name=$x$>1<invoke name=$b$>";
                       format := format_xml |}],
           {| idCounter := idCounter p + 1 |})).
Proof.
  intros Date_now Number_toString.
  split; [intros p; vm_compute; reflexivity|].
  split; [apply unclosed_invoke_parsed|].
  split; [apply open_container_read|].
  split; [apply parseInvokeBlocks_result|].
  split; [apply closed_containers_only|].
  split; [apply unclosed_json_call|].
  split; [apply scanBlock_hands_over|].
  split; [apply scanBlock_skips_untagged|].
  split; intros p; vm_compute; reflexivity.
Qed.

Lemma unclosed_candidate_is_output_witness :
  (exists args,
      for_of (matchAll parameterRegex (js "<parameter name=$path$>/tmp/te"))
        parseParameter emptyObject newParser = (Returns args, newParser)
      /\ parseMessage still_clock print_integer xmlStreaming newParser =
         (Returns [{| id := js "1"; toolName := JString (js "read_file");
                      arguments := args;
                      rawText := openInvokeTag (js " ") (js "read_file")
                                   (Some (js " ", js "1"))
                                   ++ js "<parameter name=$path$>/tmp/te";
                      format := format_xml |}], newParser))
  /\ (exists st1 p1 c,
        for_of [] (parseJSONFormat_line still_clock print_integer) json_loop_init newParser
          = (Returns st1, p1)
        /\ for_of (split_lines (join [LF] [firstStart; argLine]))
             (parseJSONFormat_line still_clock print_integer) json_loop_init newParser
           = (Returns {| toolCalls := toolCalls st1; currentCall := Some c |},
              {| idCounter := idCounter p1 + 1 |})
        /\ parseJSONFormat still_clock print_integer (join [LF] [firstStart; argLine])
             newParser
           = (Returns (toolCalls st1 ++ [c]), {| idCounter := idCounter p1 + 1 |})
        /\ (includes (join [LF] [firstStart; argLine]) (js "<function_calls>") = false ->
            parseMessage still_clock print_integer (join [LF] [firstStart; argLine])
              newParser
            = (Returns (toolCalls st1 ++ [c]), {| idCounter := idCounter p1 + 1 |}))
        /\ id c = generated_id still_clock (idCounter p1)
        /\ (exists parsed,
              JSON_parse (trim firstStart) = Returns parsed
              /\ get parsed (js "name") = Returns (Some (toolName c)))
        /\ format c = format_json
        /\ exists more, rawText c = trim firstStart ++ more).
Proof.
  destruct (unclosed_candidate_is_output still_clock print_integer)
    as (_ & Hxml & _ & _ & _ & Hjson & _).
  split.
  - apply (Hxml xmlStreaming [] [] (js " ") (js "read_file") (Some (js " ", js "1"))
             (js "<parameter name=$path$>/tmp/te") newParser);
      vm_compute; reflexivity.
  - apply (Hjson (join [LF] [firstStart; argLine]) [] firstStart [argLine] newParser).
    + vm_compute. reflexivity.
    + vm_compute. reflexivity.
    + constructor; [split; vm_compute; reflexivity|constructor].
Defined.

(** ** The counter and the identities of the JSON reader *)

Section JsonReader.

Variable Date_now : N -> N.
Variable Number_toString : number -> str.

Lemma line_effect_count st p line st' p' :
  line_effect Date_now st p line st' p' ->
  idCounter p' = idCounter p + (if is_start_line line then 1 else 0)
  /\ (length (held st') <= length (held st) + (if is_start_line line then 1 else 0))%nat.
Proof.
  unfold held. destruct 1 as [Hs|name Hs _|cur key val Hs Hcur|cur Hs _ Hcur];
    rewrite Hs; simpl; rewrite ?Hcur, ?length_app; simpl.
  - split; lia.
  - split; [done|]. destruct (currentCall st); simpl; lia.
  - split; lia.
  - split; lia.
Qed.

Lemma loop_count (lines : list str) st p :
  exists st' p',
    for_of lines (parseJSONFormat_line Date_now Number_toString) st p = (Returns st', p')
    /\ idCounter p' = idCounter p + N.of_nat (length (List.filter is_start_line lines))
    /\ (length (held st') <= length (held st) + length (List.filter is_start_line lines))%nat.
Proof.
  revert st p; induction lines as [|l lines IH]; intros st p; simpl.
  - exists st, p. split; [done|]. split; lia.
  - destruct (parseJSONFormat_line_effect Date_now Number_toString st l p)
      as (st1 & p1 & E1 & He).
    apply line_effect_count in He as [Hc Hl].
    destruct (IH st1 p1) as (st' & p' & E & Hc' & Hl').
    exists st', p'. unfold bind. rewrite E1, E. split; [done|].
    destruct (is_start_line l); simpl; split; lia.
Qed.

(** X3: the JSON reader of [ToolCallParser] takes one identity from the
    counter for every line that opens a call, also for a call that a
    later start line discards: after the parse the counter has gone up by
    exactly the number of start lines, and the result has at most that
    many calls (none when no line opens a call). *)
Theorem json_counter_counts_start_lines :
  forall (text : str) (p : ToolCallParser),
  exists calls,
    parseJSONFormat Date_now Number_toString text p
    = (Returns calls, {| idCounter := idCounter p + N.of_nat (length (start_lines text)) |})
    /\ (length calls <= length (start_lines text))%nat.
Proof.
  intros text p. unfold parseJSONFormat, bind, start_lines.
  destruct (loop_count (split_lines text) json_loop_init p)
    as (st & [k] & -> & Hc & Hl).
  simpl in Hc. subst k. unfold held in Hl. simpl in Hl.
  rewrite length_app in Hl.
  destruct (currentCall st) as [cur|].
  - destruct (truthy (Some (toolName cur))); eexists; (split; [reflexivity|]);
      simpl in Hl; rewrite ?length_app; simpl; lia.
  - eexists. split; [reflexivity|]. simpl in Hl. lia.
Qed.

Lemma line_effect_inv (k0 : N) st p line st' p' :
  line_effect Date_now st p line st' p' ->
  k0 <= idCounter p ->
  loop_inv Date_now k0 st p -> loop_inv Date_now k0 st' p'.
Proof.
  intros He Hk (ks & oc & Hks & Hoc & Hnd & Hb & Hj).
  destruct He as [Hs|name Hs Hname|cur key val Hs Hcur|cur Hs _ Hcur].
  - by exists ks, oc.
  - apply NoDup_app in Hnd as (Hnd & _ & _). apply Forall_app in Hb as [Hb _].
    apply Forall_app in Hj as [Hj _].
    exists ks, (Some (idCounter p)). simpl. split; [done|]. split; [done|]. split.
    { apply NoDup_app. split; [done|]. split; [|apply NoDup_singleton].
      intros k Hin ->%list_elem_of_singleton.
      rewrite Forall_forall in Hb. specialize (Hb _ Hin). lia. }
    split.
    { apply Forall_app. split.
      - eapply Forall_impl; [exact Hb|]. simpl. intros; lia.
      - constructor; [simpl; lia|constructor]. }
    unfold held. simpl. apply Forall_app. split; [done|].
    constructor; [by split|constructor].
  - exists ks, oc. simpl. rewrite Hcur in Hoc. simpl in Hoc.
    split; [done|]. split; [done|]. split; [done|]. split; [done|].
    unfold held in *. rewrite Hcur in Hj. simpl.
    apply Forall_app in Hj as [Hj Hc]. apply Forall_app. split; [done|].
    inversion Hc as [|? ? [? ?] _]; subst. constructor; [by split|constructor].
  - rewrite Hcur in Hoc. destruct oc as [k|]; [|done]. simpl in Hoc.
    injection Hoc as Hoc.
    exists (ks ++ [k]), None. simpl. rewrite !map_app, Hks. simpl. rewrite Hoc.
    rewrite app_nil_r. split; [done|]. split; [done|]. split; [done|]. split; [done|].
    unfold held in *. rewrite Hcur in Hj. simpl. rewrite app_nil_r.
    apply Forall_app in Hj as [Hj Hc]. apply Forall_app. split; [done|].
    inversion Hc as [|? ? [? ?] _]; subst. constructor; [by split|constructor].
Qed.

Lemma loop_inv_after (k0 : N) (lines : list str) st p :
  k0 <= idCounter p ->
  loop_inv Date_now k0 st p ->
  exists st' p',
    for_of lines (parseJSONFormat_line Date_now Number_toString) st p = (Returns st', p')
    /\ loop_inv Date_now k0 st' p'.
Proof.
  revert st p; induction lines as [|l lines IH]; intros st p Hk Hinv; simpl.
  - by exists st, p.
  - destruct (parseJSONFormat_line_effect Date_now Number_toString st l p)
      as (st1 & p1 & E1 & He).
    pose proof (line_effect_counter _ _ _ _ _ _ He) as Hle.
    destruct (IH st1 p1) as (st' & p' & E & Hinv'); [lia| |].
    + by eapply line_effect_inv.
    + exists st', p'. unfold bind. by rewrite E1, E.
Qed.

(** The final test of [parseJSONFormat] never fails: the result is what
    the loop holds at its end. *)
Lemma parseJSONFormat_held (text : str) (p : ToolCallParser) :
  exists st p',
    parseJSONFormat Date_now Number_toString text p = (Returns (held st), p')
    /\ loop_inv Date_now (idCounter p) st p'.
Proof.
  unfold parseJSONFormat, bind.
  destruct (loop_inv_after (idCounter p) (split_lines text) json_loop_init p)
    as (st & p' & -> & Hinv); [lia| |].
  { exists [], None. simpl. repeat split; constructor. }
  exists st, p'. split; [|done].
  destruct Hinv as (ks & oc & _ & _ & _ & _ & Hj).
  unfold held in *. destruct (currentCall st) as [cur|]; [|by rewrite app_nil_r].
  apply Forall_app in Hj as [_ Hc]. inversion Hc as [|? ? [_ Ht] _]; subst.
  by rewrite Ht.
Qed.

Lemma held_identities (k0 : N) (st : json_loop) (p : ToolCallParser) :
  loop_inv Date_now k0 st p ->
  exists ks,
    map id (held st) = map (generated_id Date_now) ks
    /\ Forall (fun k => k0 <= k < idCounter p) ks
    /\ NoDup ks.
Proof.
  intros (ks & oc & Hks & Hoc & Hnd & Hb & _). exists (ks ++ olist oc).
  split; [|by split]. unfold held. rewrite !map_app, Hks. f_equal.
  destruct (currentCall st), oc; simpl in *; congruence.
Qed.

End JsonReader.

(** X1: whatever the text and the state of the parser, the XML reader of
    [ToolCallParser] returns, and every call it returns has the format
    xml, a tool name and an identity that are non-empty texts without a
    double quote (the identity is the call_id attribute or a generated
    one), and a raw text that begins with the invoke tag and is a piece
    of the text read. *)
Theorem xml_calls_shape :
  forall (Date_now : N -> N) (text : str) (p : ToolCallParser),
  exists calls p',
    parseXMLFormat Date_now text p = (Returns calls, p')
    /\ Forall (xml_call_of text) calls.
Proof.
  intros Date_now text p.
  destruct (parseXMLFormat_blocks Date_now text p) as (contents & Hc & ->).
  destruct (invoke_loop_shape Date_now text contents Hc [] p) as (new & p' & E & H).
  exists new, p'. by split.
Qed.

(** X4: the calls of the JSON reader carry generated identities, made at
    counts between the counter before and the counter after the parse;
    the identities are pairwise different, whatever the clock reads; each
    call has the format json and a truthy name. *)
Theorem json_identities_distinct :
  forall (Date_now : N -> N) (Number_toString : number -> str) (text : str)
         (p : ToolCallParser),
  exists calls p' ks,
    parseJSONFormat Date_now Number_toString text p = (Returns calls, p')
    /\ map id calls = map (generated_id Date_now) ks
    /\ Forall (fun k => idCounter p <= k < idCounter p') ks
    /\ NoDup (map id calls)
    /\ Forall json_call calls.
Proof.
  intros Date_now Number_toString text p.
  destruct (parseJSONFormat_held Date_now Number_toString text p) as (st & p' & E & Hinv).
  destruct (held_identities Date_now _ _ _ Hinv) as (ks & Hids & Hb & Hnd).
  exists (held st), p', ks. split; [done|]. split; [done|]. split; [done|]. split.
  - rewrite Hids. apply NoDup_fmap_2; [|done]. intros j k. apply generated_id_inj.
  - by destruct Hinv as (? & ? & _ & _ & _ & _ & Hj).
Qed.

(** X5: the result of [parseMessage] is of one kind: a non-empty list of
    calls of the XML reader, or calls of the JSON reader with pairwise
    different identities; the two are never mixed. *)
Theorem parseMessage_one_format :
  forall (Date_now : N -> N) (Number_toString : number -> str) (text : str)
         (p : ToolCallParser),
  exists calls p',
    parseMessage Date_now Number_toString text p = (Returns calls, p')
    /\ ((calls <> [] /\ Forall (xml_call_of text) calls)
        \/ (Forall json_call calls /\ NoDup (map id calls))).
Proof.
  intros Date_now Number_toString text p. unfold parseMessage, bind.
  destruct (parseXMLFormat_blocks Date_now text p) as (contents & Hc & ->).
  destruct (invoke_loop_shape Date_now text contents Hc [] p)
    as ([|c calls] & p1 & -> & Hx); simpl.
  - destruct (parseJSONFormat_held Date_now Number_toString text p1)
      as (st & p' & -> & Hinv).
    destruct (held_identities Date_now _ _ _ Hinv) as (ks & Hids & _ & Hnd).
    exists (held st), p'. split; [done|]. right. split.
    + by destruct Hinv as (? & ? & _ & _ & _ & _ & Hj).
    + rewrite Hids. apply NoDup_fmap_2; [|done]. intros j k. apply generated_id_inj.
  - exists (c :: calls), p1. split; [done|]. by left.
Qed.

(** ** The earlier parser *)

Section Earlier.

Variable Date_now : N -> N.
Variable Number_toString : number -> str.

Lemma counts_app (k : N) (a b : nat) :
  counts k (a + b) = counts k a ++ counts (k + N.of_nat a) b.
Proof.
  revert k; induction a as [|a IH]; intros k; simpl.
  - by rewrite N.add_0_r.
  - rewrite IH. do 3 f_equal. lia.
Qed.

(** A loop whose body pushes calls with consecutive generated
    identities does so as a whole. *)
Lemma for_of_consecutive {A} (l : list A)
    (body : list DetectedToolCall -> A -> M (list DetectedToolCall)) :
  (forall acc x p,
     exists new,
       body acc x p
       = (Returns (acc ++ new), {| idCounter := idCounter p + N.of_nat (length new) |})
       /\ map id new = map (generated_id Date_now) (counts (idCounter p) (length new))
       /\ Forall (fun c => format c = format_xml) new) ->
  forall acc p,
    exists new,
      for_of l body acc p
      = (Returns (acc ++ new), {| idCounter := idCounter p + N.of_nat (length new) |})
      /\ map id new = map (generated_id Date_now) (counts (idCounter p) (length new))
      /\ Forall (fun c => format c = format_xml) new.
Proof.
  intros Hb. induction l as [|x l IH]; intros acc p; simpl.
  - exists []. simpl. rewrite app_nil_r, N.add_0_r. by destruct p.
  - destruct (Hb acc x p) as (new1 & E1 & H1 & F1).
    destruct (IH (acc ++ new1) {| idCounter := idCounter p + N.of_nat (length new1) |})
      as (new2 & E2 & H2 & F2).
    exists (new1 ++ new2). unfold bind. rewrite E1, E2, <- app_assoc. simpl.
    rewrite length_app, Nat2N.inj_add, N.add_assoc. split; [done|]. split.
    + rewrite counts_app, !map_app. simpl in H2. by rewrite H1, H2.
    + by apply Forall_app.
Qed.

Lemma earlier_parseInvoke (acc : list DetectedToolCall) (m : rmatch_result)
    (p : ToolCallParser) :
  exists new,
    EarlierParser.parseInvoke Date_now acc m p
    = (Returns (acc ++ new), {| idCounter := idCounter p + N.of_nat (length new) |})
    /\ map id new = map (generated_id Date_now) (counts (idCounter p) (length new))
    /\ Forall (fun c => format c = format_xml) new.
Proof.
  unfold EarlierParser.parseInvoke, bind.
  assert (Hargs : exists args,
             for_of (matchAll EarlierParser.parameterRegex (group m 2)) parseParameter emptyObject p
             = (Returns args, p)).
  { generalize emptyObject.
    induction (matchAll EarlierParser.parameterRegex (group m 2)) as [|x l IH];
      intros args; simpl; [by eexists|].
    unfold bind, parseParameter at 1, lift, ret. rewrite parseValue_returns. apply IH. }
  destruct Hargs as (args & ->). simpl.
  eexists [_]. split; [reflexivity|]. split; [done|]. by repeat constructor.
Qed.

(** X6: the XML reader of the earlier parser never reads call_id: the
    calls it returns carry the identities generated at the consecutive
    counts from the counter on, in order, the counter goes up by the
    number of calls, and every call has the format xml. *)
Theorem earlier_xml_identities_are_generated :
  forall (text : str) (p : ToolCallParser),
  exists calls,
    EarlierParser.parseXMLFormat Date_now text p
    = (Returns calls, {| idCounter := idCounter p + N.of_nat (length calls) |})
    /\ map id calls = map (generated_id Date_now) (counts (idCounter p) (length calls))
    /\ Forall (fun c => format c = format_xml) calls.
Proof.
  intros text p. unfold EarlierParser.parseXMLFormat.
  destruct (for_of_consecutive (matchAll functionCallsRegex text)
              (fun toolCalls m =>
                 for_of (matchAll EarlierParser.invokeRegex (group m 1))
                   (EarlierParser.parseInvoke Date_now) toolCalls))
    with (acc := @nil DetectedToolCall) (p := p) as (new & E & H & F).
  - intros acc m p0. apply for_of_consecutive. apply earlier_parseInvoke.
  - by exists new.
Qed.

Lemma earlier_invoke_match (n : nat) s rest c c' :
  rmatches n EarlierParser.invokeRegex s rest c c' -> piece_of (js "</invoke>") s.
Proof. unfold EarlierParser.invokeRegex. intros H. rx_inv. piece. Qed.

Lemma for_of_nothing {A} (l : list A)
    (body : list DetectedToolCall -> A -> M (list DetectedToolCall)) :
  (forall acc x p, x ∈ l -> body acc x p = (Returns acc, p)) ->
  forall acc p, for_of l body acc p = (Returns acc, p).
Proof.
  induction l as [|x l IH]; intros Hb acc p; simpl; [done|].
  unfold bind. rewrite Hb by apply list_elem_of_here.
  apply IH. intros acc' y p' Hy. apply Hb. by apply list_elem_of_further.
Qed.

(** X7: the earlier parser reads closed blocks only: a text that lacks
    the closing tag of the container or the closing tag of the invocation
    gives no XML call and leaves the counter alone, and [parseMessage]
    is then the JSON reader. The later parser returns the open call of
    such a text (claim C2). *)
Theorem earlier_xml_needs_closed_blocks :
  forall (text : str) (p : ToolCallParser),
    includes text (js "</function_calls>") && includes text (js "</invoke>") = false ->
    EarlierParser.parseXMLFormat Date_now text p = (Returns [], p)
    /\ EarlierParser.parseMessage Date_now Number_toString text p
       = parseJSONFormat Date_now Number_toString text p.
Proof.
  intros text p Hn.
  assert (Hx : EarlierParser.parseXMLFormat Date_now text p = (Returns [], p)).
  { unfold EarlierParser.parseXMLFormat.
    apply for_of_nothing. intros acc m p0 Hm.
    apply matchAll_sound in Hm as (pre & rest & Et & Hm).
    apply functionCalls_match in Hm as (g & Eg & Hc).
    assert (Hclose : includes text (js "</function_calls>") = true).
    { apply includes_spec. rewrite Et, Eg. piece. }
    rewrite Hclose in Hn. simpl in Hn.
    destruct (matchAll EarlierParser.invokeRegex (group m 1)) as [|mi ms] eqn:Ei; [done|].
    assert (Hmi : mi ∈ matchAll EarlierParser.invokeRegex (group m 1))
      by (rewrite Ei; apply list_elem_of_here).
    apply matchAll_sound in Hmi as (pre' & rest' & Eg' & Hmi).
    apply earlier_invoke_match in Hmi.
    assert (includes text (js "</invoke>") = true); [|congruence].
    apply includes_spec. eapply piece_of_trans; [exact Hmi|].
    rewrite (group_cap m 1), Hc, cap_set_cap in Eg'. simpl in Eg'.
    rewrite Et, Eg, Eg'. piece. }
  split; [exact Hx|]. unfold EarlierParser.parseMessage, bind. rewrite Hx.
  by destruct (parseJSONFormat Date_now Number_toString text p) as [[?|?] ?].
Qed.

End Earlier.

Lemma earlier_xml_needs_closed_blocks_witness :
  includes xmlStreaming (js "</function_calls>") && includes xmlStreaming (js "</invoke>")
  = false
  /\ EarlierParser.parseXMLFormat still_clock xmlStreaming newParser
     = (Returns [], newParser)
  /\ EarlierParser.parseMessage still_clock print_integer xmlStreaming newParser
     = parseJSONFormat still_clock print_integer xmlStreaming newParser.
Proof.
  split; [reflexivity|].
  apply (earlier_xml_needs_closed_blocks still_clock print_integer xmlStreaming newParser).
  reflexivity.
Defined.

(** ** The lines of parsers/jsonFunctionParser.ts *)

Lemma parseJSONLine_some (line : str) (v : value) :
  parseJSONLine line = Returns (Some v) ->
  exists props t,
    v = JObject props
    /\ record_get props (js "type") = Some (JString t) /\ t <> []
    /\ JSON_parse (stripLanguageTags (trim line)) = Returns v.
Proof.
  unfold parseJSONLine.
  destruct (trim line) as [|x l] eqn:Et; [done|].
  destruct (stripLanguageTags (x :: l)) as [|y l'] eqn:Es; [done|].
  destruct (JSON_parse (y :: l')) as [parsed|e]; simpl; [|done].
  destruct parsed as [| | | | |props]; simpl; try done.
  destruct (record_get props (js "type")) as [[| | |[|z t]| |]|] eqn:Eg; try done.
  intros [= <-]. by exists props, (z :: t).
Qed.

(** X8: [parseJSONLine] accepts a line exactly when the line, after
    trimming and [stripLanguageTags], is not empty and is the JSON text of
    an object whose own property type is a non-empty string; what it
    returns then is that object. *)
Theorem parseJSONLine_object_with_type :
  forall (line : str) (v : value),
    parseJSONLine line = Returns (Some v) <->
    (trim line <> [] /\ stripLanguageTags (trim line) <> []
     /\ JSON_parse (stripLanguageTags (trim line)) = Returns v
     /\ exists props t,
          v = JObject props
          /\ record_get props (js "type") = Some (JString t) /\ t <> []).
Proof.
  intros line v. split.
  - intros H. pose proof H as H'.
    apply parseJSONLine_some in H' as (props & t & -> & Eg & Ht & Ep).
    unfold parseJSONLine in H.
    destruct (trim line) as [|x l]; [done|].
    destruct (stripLanguageTags (x :: l)) as [|y l']; [done|].
    split; [done|]. split; [done|]. split; [done|]. by exists props, t.
  - intros (Ht & Hs & Ep & props & t & -> & Eg & Hne). unfold parseJSONLine.
    destruct (trim line) as [|x l]; [done|].
    destruct (stripLanguageTags (x :: l)) as [|y l']; [done|].
    rewrite Ep. simpl. rewrite Eg. by destruct t.
Qed.

Lemma parseJSONLine_object_with_type_witness :
  parseJSONLine endLine
  = Returns (Some (JObject [(js "type", JString (js "function_call_end"))]))
  /\ (trim endLine <> [] /\ stripLanguageTags (trim endLine) <> []
      /\ JSON_parse (stripLanguageTags (trim endLine))
         = Returns (JObject [(js "type", JString (js "function_call_end"))])
      /\ exists props t,
           JObject [(js "type", JString (js "function_call_end"))] = JObject props
           /\ record_get props (js "type") = Some (JString t) /\ t <> []).
Proof.
  assert (H : parseJSONLine endLine
              = Returns (Some (JObject [(js "type", JString (js "function_call_end"))])))
    by (vm_compute; reflexivity).
  split; [exact H|].
  exact (proj1 (parseJSONLine_object_with_type endLine _) H).
Defined.

Lemma parseJSONLine_returns (line : str) : exists r, parseJSONLine line = Returns r.
Proof.
  unfold parseJSONLine.
  destruct (trim line) as [|x l]; [by eexists|].
  destruct (stripLanguageTags (x :: l)) as [|y l']; [by eexists|].
  destruct (JSON_parse (y :: l')) as [parsed|e]; simpl; [|by eexists].
  destruct (get parsed (js "type")) as [[[| | |[|z t]| |]|]|e]; simpl; by eexists.
Qed.

Lemma streaming_step_flags (acc : bool * bool) (line : str) :
  streaming_step acc line
  = Returns (fst acc || line_has_type (js "function_call_start") line,
             snd acc || (negb (line_has_type (js "function_call_start") line)
                         && line_has_type (js "function_call_end") line)).
Proof.
  destruct acc as [hasStart hasEnd]. unfold streaming_step, line_has_type. simpl.
  destruct (parseJSONLine_returns line) as [[v|] E]; rewrite E; simpl.
  - apply parseJSONLine_some in E as (props & t & -> & Eg & _ & _). simpl.
    destruct (is_string (record_get props (js "type")) (js "function_call_start"));
      [by rewrite orb_true_r, orb_false_r|].
    destruct (is_string (record_get props (js "type")) (js "function_call_end"));
      simpl; by rewrite ?orb_true_r, ?orb_false_r.
  - by rewrite !orb_false_r.
Qed.

Lemma is_string_two (v : option value) (a b : str) :
  is_string v a = true -> is_string v b = true -> a = b.
Proof.
  destruct v as [[| | |s| |]|]; simpl; try done.
  intros ->%str_eqb_eq ->%str_eqb_eq. done.
Qed.

Lemma streaming_fold (lines : list str) (acc : bool * bool) :
  ofold lines streaming_step acc
  = Returns (fst acc || existsb (line_has_type (js "function_call_start")) lines,
             snd acc || existsb (line_has_type (js "function_call_end")) lines).
Proof.
  revert acc; induction lines as [|l lines IH]; intros acc; simpl.
  - destruct acc. by rewrite !orb_false_r.
  - rewrite streaming_step_flags. simpl. rewrite IH. simpl.
    rewrite <- !orb_assoc. do 2 f_equal.
    destruct (line_has_type (js "function_call_start") l) eqn:Es; simpl; [|done].
    destruct (line_has_type (js "function_call_end") l) eqn:Ee; simpl; [|done].
    exfalso. unfold line_has_type in Es, Ee.
    destruct (parseJSONLine l) as [[[| | | | |props]|]|]; try done.
    by pose proof (is_string_two _ _ _ Es Ee).
Qed.

(** X10: [isJSONFunctionStreaming] never throws, and its answer does not
    depend on the order of the lines: it is true exactly when some line
    is accepted with type function_call_start and no line is accepted
    with type function_call_end, be it before the start. *)
Theorem isJSONFunctionStreaming_closed_form :
  forall content : str,
    isJSONFunctionStreaming content
    = Returns (existsb (line_has_type (js "function_call_start")) (split_lines content)
               && negb (existsb (line_has_type (js "function_call_end"))
                          (split_lines content))).
Proof. intros content. unfold isJSONFunctionStreaming. by rewrite streaming_fold. Qed.

(** ** [stripLanguageTags] on a line of JSON *)

Lemma lit_i_inv (n : nat) (t : str) s rest c c' :
  rmatches n (lit_i t) s rest c c' ->
  c' = c /\ Forall2 (fun x y => fold_case x = fold_case y) s t.
Proof.
  unfold lit_i. revert s c; induction t as [|x t IH]; intros s c H.
  - inversion H; subst. by split.
  - change (map chr_i (x :: t)) with (chr_i x :: map chr_i t) in H.
    apply seq_cons_inv in H as (s1 & s2 & c1 & -> & H1 & H2).
    apply chr_inv in H1 as (y & -> & Hy & ->). apply N.eqb_eq in Hy.
    apply IH in H2 as [-> H2]. split; [done|]. by constructor.
Qed.

Lemma alt_list_inv (n : nat) (l : list re) s rest c c' :
  rmatches n (alt l) s rest c c' ->
  (l = [] /\ s = []) \/ exists a, a ∈ l /\ rmatches n a s rest c c'.
Proof.
  induction l as [|a l IH]; simpl.
  - intros H. left. by inversion H.
  - destruct l as [|b l].
    + intros H. right. exists a. split; [apply list_elem_of_here|done].
    + intros [H|H]%alt_inv; right.
      * exists a. split; [apply list_elem_of_here|done].
      * destruct (IH H) as [[? _]|(a' & Hin & Ha)]; [done|].
        exists a'. split; [by apply list_elem_of_further|done].
Qed.

Lemma is_letter_fold (x y : char) :
  fold_case x = fold_case y -> is_letter y = true -> is_letter x = true.
Proof. unfold is_letter. by intros ->. Qed.

Lemma starts_with_alternatives (i : nat) (l : list str) :
  l <> [] -> letter_first l = true ->
  starts_with (fun y => is_letter y = true) (Group i (alt (map lit_i l))).
Proof.
  intros Hne Hl n a b c1 c2 H. apply group_inv in H as (c & H & _).
  apply alt_list_inv in H as [[E _]|(r & Hin & H)].
  { destruct l; [done|discriminate E]. }
  apply list_elem_of_fmap in Hin as (t & -> & Hin).
  unfold letter_first in Hl. rewrite forallb_forall in Hl.
  apply list_elem_of_In in Hin. specialize (Hl t Hin).
  apply lit_i_inv in H as [_ H].
  destruct H as [|x y a' t' Hxy _]; [done|].
  exists x, a'. split; [done|]. by eapply is_letter_fold.
Qed.

Lemma starts_with_lit_i (t : str) :
  letter_first [t] = true -> starts_with (fun y => is_letter y = true) (lit_i t).
Proof.
  intros Ht n a b c1 c2 H. apply lit_i_inv in H as [_ H].
  destruct H as [|x y a' t' Hxy _]; [done|].
  exists x, a'. split; [done|]. simpl in Ht. rewrite andb_true_r in Ht.
  by eapply is_letter_fold.
Qed.

Lemma starts_with_fence : starts_with (fun y => y = 96) (lit (js "```")).
Proof.
  intros n a b c1 c2 H. apply lit_inv in H as [-> _]. by eexists _, _.
Qed.

Lemma anchored_none (P : char -> Prop) (r : re) (l : list re) (s : str) :
  starts_with P r ->
  match s with x :: _ => ~ P x | [] => True end ->
  exec (seq (Bol :: r :: l)) s = None.
Proof.
  intros Hr Hs.
  destruct (exec _ _) as [m|] eqn:E; [|done]. exfalso.
  apply exec_sound in E as (pre & rest & Es & Hm & _).
  apply seq_cons_inv in Hm as (s1 & s2 & c1 & Em & Hb & Hm).
  apply bol_inv in Hb as (-> & Hlen & ->).
  rewrite Em in Es. simpl in Es.
  assert (Hpre : pre = []).
  { apply (f_equal length) in Es. rewrite !length_app in Es.
    rewrite length_app in Hlen. destruct pre; [done|]. simpl in Es. lia. }
  subst pre. simpl in Es.
  apply seq_cons_inv in Hm as (a & b & c2 & -> & Ha & _).
  apply Hr in Ha as (y & a' & -> & Hy).
  rewrite Es in Hs. simpl in Hs. by apply Hs.
Qed.

Lemma replace_first_none (r : re) (by_ s : str) :
  exec r s = None -> replace_first r by_ s = s.
Proof. unfold replace_first. by intros ->. Qed.

(** X9: a line that begins, after trimming, with an opening brace goes
    through [stripLanguageTags] untouched: none of the three patterns,
    all anchored at the start, matches it. *)
Theorem stripLanguageTags_keeps_json_line :
  forall line : str,
    startsWith (trim line) (js "{") = true ->
    stripLanguageTags line = trim line.
Proof.
  intros line [t Hs]%startsWith_spec. unfold stripLanguageTags. rewrite Hs.
  change (js "{" ++ t) with (123 :: t).
  rewrite (replace_first_none fenceRegex).
  2: { apply (anchored_none _ _ _ _ starts_with_fence). simpl. lia. }
  rewrite (replace_first_none languageTagRegex).
  2: { apply (anchored_none _ _ _ _ (starts_with_alternatives 1 languages ltac:(done) eq_refl)).
       simpl. by vm_compute. }
  apply replace_first_none.
  apply (anchored_none _ _ _ _ (starts_with_lit_i (js "copy") eq_refl)).
  simpl. by vm_compute.
Qed.

Lemma stripLanguageTags_keeps_json_line_witness :
  startsWith (trim (js "  {$type$:$parameter$}  ")) (js "{") = true
  /\ stripLanguageTags (js "  {$type$:$parameter$}  ") = trim (js "  {$type$:$parameter$}  ").
Proof.
  split; [reflexivity|].
  apply (stripLanguageTags_keeps_json_line (js "  {$type$:$parameter$}  ")). reflexivity.
Defined.

(** ** The one-line reader of [containsJSONFunctionCalls] *)

Lemma matchAll_nil (r : re) (s : str) :
  (forall m, m ∈ matchAll r s -> False) -> matchAll r s = [].
Proof.
  destruct (matchAll r s) as [|m ms]; [done|].
  intros H. destruct (H m). apply list_elem_of_here.
Qed.

Lemma no_boundary (a b : str) :
  125 ∉ a -> 123 ∉ b -> matchAll boundaryRegex (a ++ b) = [].
Proof.
  intros Ha Hb. apply matchAll_nil. intros m Hm.
  apply matchAll_sound in Hm as (pre & rest & Es & Hm).
  destruct m as [mi me mt mc]; simpl in Es, Hm.
  unfold boundaryRegex in Hm. rx_inv. rewrite <- !app_assoc in Es.
  match type of Es with
  | _ = pre ++ [125] ++ ?w ++ [123] ++ rest =>
      change (a ++ b = pre ++ [125] ++ w ++ [123] ++ rest) in Es;
      replace (pre ++ [125] ++ w ++ [123] ++ rest)
        with ((pre ++ [125] ++ w) ++ [123] ++ rest) in Es
        by (by rewrite <- !app_assoc)
  end.
  apply app_eq_inv in Es as [(k & E1 & E2)|(k & E1 & E2)].
  - apply Ha. rewrite E1. rewrite !elem_of_app, list_elem_of_singleton. tauto.
  - apply Hb. rewrite E2. rewrite !elem_of_app, list_elem_of_singleton. tauto.
Qed.

(** X13: the one-line reader of [containsJSONFunctionCalls] on a line
    that holds at least two opening braces and, after its first closing
    brace, no opening brace (one object with an object inside): no
    boundary is found, and the only line handed to the loop is the
    content with one more closing brace. *)
Theorem single_line_nested_object_gets_a_brace :
  forall a b : str,
    length (split_lines (a ++ b)) = 1%nat ->
    (1 < count_open_braces (a ++ b))%nat ->
    125 ∉ a -> 123 ∉ b ->
    jsonLines (a ++ b) = [a ++ b ++ js "}"].
Proof.
  intros a b Hone Hbraces Ha Hb. unfold jsonLines.
  rewrite Hone. apply Nat.ltb_lt in Hbraces. rewrite Hbraces. simpl.
  unfold splitSingleLine, split_re. rewrite no_boundary by done. simpl.
  by rewrite <- app_assoc.
Qed.

Lemma absent (x : char) (s : str) :
  forallb (fun y => negb (N.eqb y x)) s = true -> x ∉ s.
Proof.
  induction s as [|y s IH]; simpl; [intros _; apply not_elem_of_nil|].
  intros [Hy Hs]%andb_true_iff. apply not_elem_of_cons. split; [|by apply IH].
  intros ->. by rewrite N.eqb_refl in Hy.
Qed.

Lemma present (x : char) (s : str) : existsb (N.eqb x) s = true -> x ∈ s.
Proof.
  induction s as [|y s IH]; simpl; [done|].
  intros [->%N.eqb_eq|Hs]%orb_true_iff; [apply list_elem_of_here|].
  by apply list_elem_of_further, IH.
Qed.

Lemma single_line_nested_object_gets_a_brace_witness :
  (length (split_lines (nestedHead ++ nestedTail)) = 1%nat
   /\ (1 < count_open_braces (nestedHead ++ nestedTail))%nat
   /\ (125 ∉ nestedHead) /\ (123 ∉ nestedTail))
  /\ jsonLines (nestedHead ++ nestedTail) = [nestedHead ++ nestedTail ++ js "}"].
Proof.
  assert (H1 : length (split_lines (nestedHead ++ nestedTail)) = 1%nat) by reflexivity.
  assert (H2 : (1 < count_open_braces (nestedHead ++ nestedTail))%nat)
    by (apply Nat.ltb_lt; reflexivity).
  assert (H3 : 125 ∉ nestedHead) by (by apply absent).
  assert (H4 : 123 ∉ nestedTail) by (by apply absent).
  split; [done|].
  exact (single_line_nested_object_gets_a_brace nestedHead nestedTail H1 H2 H3 H4).
Defined.

(** ** [unescapeValue] *)

Lemma replace_all_none (r : re) (by_ s : str) :
  matchAll r s = [] -> replace_all r by_ s = s.
Proof. unfold replace_all. by intros ->. Qed.

Lemma lit_absent (t v : str) (x : char) :
  x ∈ t -> x ∉ v -> matchAll (lit t) v = [].
Proof.
  intros Ht Hv. apply matchAll_nil. intros m Hm.
  apply matchAll_sound in Hm as (pre & rest & Es & Hm).
  apply lit_inv in Hm as [Em _]. apply Hv. rewrite Es, Em.
  rewrite !elem_of_app. tauto.
Qed.

(** X16: the chain of replacements that undoes the escapes of a value
    recovered by the pattern of [extractJSONParameters] leaves a value
    without a backslash as it is. *)
Theorem unescapeValue_without_backslash :
  forall v : str, 92 ∉ v -> unescapeValue v = v.
Proof.
  intros v Hv. unfold unescapeValue.
  assert (H : forall t by_, 92 ∈ t -> replace_all (lit t) by_ v = v).
  { intros t by_ Ht. apply replace_all_none. by apply (lit_absent t v 92). }
  rewrite !H; [done|..]; by apply present.
Qed.

Lemma unescapeValue_without_backslash_witness :
(92 ∉ js "/tmp/test.txt") /\ unescapeValue (js "/tmp/test.txt") = js "/tmp/test.txt".
Proof.
  assert (H : 92 ∉ js "/tmp/test.txt") by (by apply absent).
  split; [done|]. exact (unescapeValue_without_backslash (js "/tmp/test.txt") H).
Defined.

(** ** The extractors of parsers/functionParser.ts *)

Lemma record_set_Forall (P : str * value -> Prop) (r : record) (k : str) (v : value) :
  Forall P r -> P (k, v) -> Forall P (record_set r k v).
Proof.
  intros Hr Hk. unfold record_set. destruct (hasOwnProperty r k).
  - induction Hr as [|[k' v'] r Hx Hr IH]; simpl; [constructor|].
    destruct (str_eqb k' k) eqn:E.
    + apply str_eqb_eq in E. subst k'. by constructor.
    + by constructor.
  - induction Hr as [|[k' v'] r Hx Hr IH]; simpl; [by repeat constructor|].
    destruct (enumerated_before k k'); by repeat constructor.
Qed.

Lemma record_set_NoDup (r : record) (k : str) (v : value) :
  NoDup (map fst r) -> NoDup (map fst (record_set r k v)).
Proof.
  intros Hr. rewrite record_set_keys. unfold hasOwnProperty.
  destruct (record_get r k) eqn:E; [done|].
  apply NoDup_cons. split; [by apply record_get_None|done].
Qed.

Lemma Forall_not_elem (x : char) (s : str) : Forall (fun y => y <> x) s -> x ∉ s.
Proof. rewrite Forall_forall. intros H Hin. by apply (H x). Qed.

Lemma param_match (content : str) (m : rmatch_result) :
  m ∈ matchAll paramRegex content ->
  parameter_of content (group m 1, JString (group m 2)).
Proof.
  intros Hm. apply matchAll_sound in Hm as (pre & rest & Es & Hm).
  destruct m as [mi me mt mc]. rewrite !group_cap. cbn [m_caps m_text] in *.
  unfold paramRegex in Hm. rx_inv.
  caps_simpl. unfold parameter_of. cbn [fst snd].
  eexists. split; [reflexivity|]. split; [by split|]. split.
  - by apply Forall_not_elem, not_chr_Forall.
  - piece.
Qed.

(** X17: every entry of [extractXMLParameters] is the name and the text
    of a closed parameter element of the content; the name is a
    non-empty text without a double quote, the text holds no opening
    angle bracket (a value in a CDATA section is never extracted); no key
    occurs twice, and [__proto__] is never a key. *)
Theorem extractXMLParameters_entries :
  forall content : str,
    Forall (parameter_of content) (extractXMLParameters content)
    /\ NoDup (map fst (extractXMLParameters content))
    /\ js "__proto__" ∉ map fst (extractXMLParameters content).
Proof.
  intros content. unfold extractXMLParameters.
  assert (H : forall ms r,
             (forall m, m ∈ ms -> m ∈ matchAll paramRegex content) ->
             Forall (parameter_of content) r /\ NoDup (map fst r)
             /\ js "__proto__" ∉ map fst r ->
             let r' := fold_left (fun parameters m =>
                                    assign_text parameters (group m 1) (group m 2)) ms r in
             Forall (parameter_of content) r' /\ NoDup (map fst r')
             /\ js "__proto__" ∉ map fst r').
  { induction ms as [|m ms IH]; intros r Hms Hr; simpl; [done|].
    apply IH; [intros m' Hm'; apply Hms; by apply list_elem_of_further|].
    destruct Hr as (Hf & Hnd & Hp). unfold assign_text.
    destruct (str_eqb (group m 1) (js "__proto__")) eqn:E; [done|].
    split; [|split].
    - apply record_set_Forall; [done|]. apply param_match, Hms, list_elem_of_here.
    - by apply record_set_NoDup.
    - rewrite record_set_keys. destruct (hasOwnProperty r (group m 1)); [done|].
      apply not_elem_of_cons. split; [|done].
      intros Heq. by rewrite <- Heq, str_eqb_refl in E. }
  apply H; [done|]. split; [constructor|]. split; [constructor|apply not_elem_of_nil].
Qed.

Lemma attribute_match (prefix : str) (content : str) (m : rmatch_result) :
  exec (seq [lit prefix; Group 1 (plus (not_chr DQUOTE)); chr DQUOTE]) content = Some m ->
  attribute_text (group m 1)
  /\ piece_of (prefix ++ group m 1 ++ [DQUOTE]) content.
Proof.
  intros Hm. apply exec_sound in Hm as (pre & rest & Es & Hm & _).
  destruct m as [mi me mt mc]. rewrite !group_cap. cbn [m_caps m_text] in *.
  rx_inv. caps_simpl. split; [by split|].
  piece.
Qed.

(** X18: what [extractFunctionName] and [extractCallId] return is a
    non-empty text without a double quote that stands in the content
    between the double quotes of the attribute. *)
Theorem extracted_attributes :
  forall (content n : str),
    (extractFunctionName content = Some n ->
     attribute_text n /\ piece_of (js "<invoke name=$" ++ n ++ js "$") content)
    /\ (extractCallId content = Some n ->
        attribute_text n /\ piece_of (js "call_id=$" ++ n ++ js "$") content).
Proof.
  intros content n. unfold extractFunctionName, extractCallId. split.
  - destruct (exec functionNameRegex content) as [m|] eqn:E; [|done].
    intros [= <-]. by apply attribute_match in E.
  - destruct (exec callIdAttributeRegex content) as [m|] eqn:E; [|done].
    intros [= <-]. by apply attribute_match in E.
Qed.

(** ** More on the scans *)

Section MoreScans.

Variable Date_now : N -> N.
Variable Number_toString : number -> str.

Lemma scans_invariant (I : Extension -> Extension -> Prop) :
  (forall e, I e e) ->
  (forall a b c blk,
     I a b -> block_effect Date_now Number_toString b blk c -> I a c) ->
  forall snapshots ext,
    exists ext', scans Date_now Number_toString snapshots ext = Returns ext' /\ I ext ext'.
Proof.
  intros Hrefl Hstep.
  assert (Hscan : forall blocks a ext, I a ext ->
            exists ext', scanForToolCalls Date_now Number_toString blocks ext = Returns ext'
                         /\ I a ext').
  { unfold scanForToolCalls. induction blocks as [|b blocks IH]; intros a ext Ha; simpl.
    - by exists ext.
    - destruct (scanBlock_effect Date_now Number_toString ext b) as (ext1 & E1 & H1).
      rewrite E1. simpl. apply IH. by eapply Hstep. }
  assert (Hall : forall snapshots a ext, I a ext ->
            exists ext', scans Date_now Number_toString snapshots ext = Returns ext'
                         /\ I a ext').
  { unfold scans. induction snapshots as [|blocks snapshots IH]; intros a ext Ha; simpl.
    - by exists ext.
    - destruct (Hscan blocks a ext Ha) as (ext1 & E1 & H1). rewrite E1. simpl.
      by apply IH. }
  intros snapshots ext. by apply Hall.
Qed.

(** X20: the ledger holds exactly the elements for which the consumer has
    received something: the scans keep this true. *)
Theorem ledger_holds_the_served_elements :
  forall (snapshots : list (list HTMLElement)) (ext : Extension),
    ledger_is_served ext ->
    exists ext',
      scans Date_now Number_toString snapshots ext = Returns ext'
      /\ ledger_is_served ext'.
Proof.
  intros snapshots ext Hext.
  destruct (scans_invariant (fun a b => ledger_is_served a -> ledger_is_served b))
    with (snapshots := snapshots) (ext := ext) as (ext' & E & H).
  - done.
  - intros a b c blk Hab Hbc Ha. specialize (Hab Ha).
    destruct Hbc as [|p' Hn E|c0 calls p' Hn E]; [done|done|].
    intros n. unfold handed. cbn [injected processedElements].
    destruct (decide (node blk = n)) as [<-|Hne].
    + rewrite (handed_app_same (node blk) (injected b) (c0 :: calls)). split.
      * intros _. by destruct (map fst _).
      * intros _. by apply elem_of_union_l, elem_of_singleton.
    + rewrite (handed_app_other n (node blk) (injected b) (c0 :: calls) Hne).
      rewrite elem_of_union, elem_of_singleton. split.
      * intros [?|Hin]; [done|]. by apply Hab.
      * intros Hh. right. by apply Hab.
  - exists ext'. split; [done|]. by apply H.
Qed.

(** X21: a sequence of scans only adds: what the consumer had received
    before is the beginning of what it has received after, in the same
    order, and the counter of the parser has not gone down. *)
Theorem scans_only_add :
  forall (snapshots : list (list HTMLElement)) (ext : Extension),
  exists ext',
    scans Date_now Number_toString snapshots ext = Returns ext'
    /\ injected ext `prefix_of` injected ext'
    /\ idCounter (parser ext) <= idCounter (parser ext').
Proof.
  intros snapshots ext.
  apply (scans_invariant
           (fun a b => injected a `prefix_of` injected b
                       /\ idCounter (parser a) <= idCounter (parser b))).
  - intros e. split; [done|lia].
  - intros a b c blk [Hp Hc] Hbc.
    assert (Hle : forall calls p',
               parseMessage Date_now Number_toString (default [] (textContent blk))
                 (parser b) = (Returns calls, p') ->
               idCounter (parser b) <= idCounter p').
    { intros calls p' E.
      destruct (safe_parseMessage Date_now Number_toString
                  (default [] (textContent blk)) (parser b)) as (x & p1 & E1 & Hle).
      rewrite E in E1. by injection E1 as _ <-. }
    destruct Hbc as [|p' Hn E|c0 calls p' Hn E]; simpl.
    + by split.
    + split; [done|]. apply Hle in E. lia.
    + split; [|apply Hle in E; lia]. etrans; [exact Hp|]. by apply prefix_app_r.
Qed.

End MoreScans.

Lemma ledger_holds_the_served_elements_witness :
  ledger_is_served newExtension
  /\ exists ext',
       scans still_clock print_integer [[blockOf 0 xmlComplete]] newExtension = Returns ext'
       /\ ledger_is_served ext'.
Proof.
  assert (H : ledger_is_served newExtension).
  { intros n. split; [intros Hin; by apply not_elem_of_empty in Hin|done]. }
  split; [exact H|].
  exact (ledger_holds_the_served_elements still_clock print_integer
           [[blockOf 0 xmlComplete]] newExtension H).
Defined.

(** ** [reconstructJSONObjects] *)

Lemma count_char_app (x : char) (a b : str) :
  count_char x (a ++ b) = (count_char x a + count_char x b)%nat.
Proof. unfold count_char. by rewrite List.filter_app, length_app. Qed.

Lemma count_braces_spec (t : str) (depth : Z) (inObj : bool) :
  count_braces t depth inObj
  = ((depth + Z.of_nat (count_char 123%N t) - Z.of_nat (count_char 125%N t))%Z,
     inObj || existsb (N.eqb 123) t).
Proof.
  unfold count_braces, count_char. revert depth inObj.
  induction t as [|x t IH]; intros depth inObj.
  - simpl. rewrite orb_false_r. f_equal. lia.
  - cbn [fold_left List.filter existsb].
    match goal with |- fold_left _ _ ?start = _ => destruct start as [d o] eqn:Ef end.
    rewrite IH. unfold char_eqb in Ef.
    rewrite (N.eqb_sym 123 x), (N.eqb_sym 125 x).
    destruct (N.eqb_spec x 123) as [->|H1].
    + injection Ef as <- <-. simpl. rewrite orb_true_r. f_equal. lia.
    + destruct (N.eqb_spec x 125) as [->|H2]; injection Ef as <- <-; simpl.
      * f_equal. lia.
      * done.
Qed.

Lemma existsb_elem (x : char) (s : str) : existsb (N.eqb x) s = true <-> x ∈ s.
Proof.
  split; [apply present|]. intros Hin. apply existsb_exists. exists x.
  split; [by apply list_elem_of_In|apply N.eqb_refl].
Qed.

Lemma balanced_decide (s : str) :
  balanced s <->
  existsb (N.eqb 123) s
  && Z.eqb (Z.of_nat (count_char 123%N s) - Z.of_nat (count_char 125%N s)) 0 = true.
Proof.
  unfold balanced. rewrite andb_true_iff, existsb_elem, Z.eqb_eq. split.
  - intros [? ?]. split; [done|lia].
  - intros [? ?]. split; [done|lia].
Qed.

Lemma reconstruct_line_inv (st : reconstruct_state) (line : str) :
  reconstruct_inv st -> reconstruct_inv (reconstruct_line st line).
Proof.
  intros (Hr & Hd & Hi & Hn). unfold reconstruct_line.
  destruct (trim line) as [|x t] eqn:Et; [done|].
  rewrite count_braces_spec.
  set (current := currentObject st
                  ++ match currentObject st with [] => [] | _ => js " " end ++ x :: t).
  assert (Hc : forall y, y <> 32 ->
             count_char y current
             = (count_char y (currentObject st) + count_char y (x :: t))%nat).
  { intros y Hy. unfold current. rewrite !count_char_app.
    destruct (currentObject st); [done|].
    change (js " ") with [32]. unfold count_char at 2. simpl.
    by rewrite (proj2 (N.eqb_neq y 32)) by done. }
  assert (He : existsb (N.eqb 123) current
               = existsb (N.eqb 123) (currentObject st) || existsb (N.eqb 123) (x :: t)).
  { unfold current. rewrite !existsb_app. by destruct (currentObject st). }
  assert (Hdepth : (braceDepth st + Z.of_nat (count_char 123%N (x :: t))
                    - Z.of_nat (count_char 125%N (x :: t)))%Z
                   = (Z.of_nat (count_char 123%N current)
                      - Z.of_nat (count_char 125%N current))%Z).
  { rewrite !Hc by done. lia. }
  rewrite Hdepth, Hi, <- He.
  destruct (existsb (N.eqb 123) current
            && Z.eqb (Z.of_nat (count_char 123%N current)
                      - Z.of_nat (count_char 125%N current)) 0) eqn:Eb.
  - pose proof Eb as Hb. apply balanced_decide in Hb.
    apply andb_true_iff in Eb as [_ Ez%Z.eqb_eq].
    split; [|split; [|split]]; simpl.
    + apply Forall_app. split; [done|]. by constructor.
    + done.
    + done.
    + intros [Hin _]. by apply elem_of_nil in Hin.
  - split; [|split; [|split]]; simpl; [done..|].
    intros Hb%balanced_decide. congruence.
Qed.

Lemma reconstruct_fold_inv (lines : list str) (st : reconstruct_state) :
  reconstruct_inv st -> reconstruct_inv (fold_left reconstruct_line lines st).
Proof.
  revert st; induction lines as [|l lines IH]; intros st H; simpl; [done|].
  by apply IH, reconstruct_line_inv.
Qed.

(** X14: the pieces of [reconstructJSONObjects] are texts with an
    opening brace and as many closing as opening braces, followed by at
    most one last piece that is not of this kind (the text left open at
    the end of the lines). *)
Theorem reconstructJSONObjects_pieces :
  forall lines : list str,
  exists closed rest,
    reconstructJSONObjects lines = closed ++ rest
    /\ Forall balanced closed
    /\ (rest = [] \/ exists r, rest = [r] /\ ~ balanced r /\ trim r <> []).
Proof.
  intros lines. unfold reconstructJSONObjects.
  set (st := fold_left reconstruct_line lines _).
  assert (H : reconstruct_inv st).
  { apply reconstruct_fold_inv. split; [constructor|]. split; [done|]. split; [done|].
    intros [Hin _]. by apply elem_of_nil in Hin. }
  destruct H as (Hr & _ & _ & Hn).
  destruct (trim (currentObject st)) as [|x t] eqn:Et.
  - exists (reconstructed st), []. rewrite app_nil_r. split; [done|]. split; [done|by left].
  - exists (reconstructed st), [currentObject st]. split; [done|]. split; [done|].
    right. exists (currentObject st). split; [done|]. split; [done|]. by rewrite Et.
Qed.

Lemma trimStart_head (s : str) (x : char) (t : str) :
  trimStart s = x :: t -> is_space x = false.
Proof.
  induction s as [|y s IH]; simpl; [done|].
  destruct (is_space y) eqn:E; [done|]. by intros [= <- _].
Qed.

Lemma trimStart_snoc (l : str) (x : char) :
  is_space x = false -> exists k, trimStart (l ++ [x]) = k ++ [x].
Proof.
  intros Hx. induction l as [|y l IH]; simpl.
  - rewrite Hx. by exists [].
  - destruct (is_space y); [done|]. by exists (y :: l).
Qed.

Lemma trim_nonspace (x : char) (t : str) :
  is_space x = false -> exists t', trim (x :: t) = x :: t'.
Proof.
  intros Hx. unfold trim, trimEnd. simpl trimStart. rewrite Hx. simpl rev.
  destruct (trimStart_snoc (rev t) x Hx) as [k ->].
  rewrite rev_app_distr. simpl. by eexists.
Qed.

Lemma trim_head (s : str) (x : char) (t : str) : trim s = x :: t -> is_space x = false.
Proof.
  unfold trim. destruct (trimStart s) as [|y a] eqn:Ea; [done|].
  pose proof (trimStart_head s y a Ea) as Hy.
  intros H. destruct (trim_nonspace y a Hy) as [t' Ht].
  unfold trim in Ht. simpl trimStart in Ht. rewrite Hy in Ht.
  rewrite Ht in H. by injection H as <- _.
Qed.

Lemma join_snoc (sep : str) (l : list str) (a : str) :
  join sep (l ++ [a]) = match l with [] => a | _ => join sep l ++ sep ++ a end.
Proof.
  induction l as [|x l IH]; [done|].
  change ((x :: l) ++ [a]) with (x :: (l ++ [a])).
  destruct l as [|y l]; [done|].
  change (join sep (x :: (y :: l) ++ [a])) with (x ++ sep ++ join sep ((y :: l) ++ [a])).
  rewrite IH. change (join sep (x :: y :: l)) with (x ++ sep ++ join sep (y :: l)).
  by rewrite <- !app_assoc.
Qed.

Lemma kept_lines_snoc (seen : list str) (line : str) :
  kept_lines (seen ++ [line])
  = kept_lines seen ++ nonempty_text (trim line).
Proof.
  unfold kept_lines. rewrite map_app, List.filter_app. simpl.
  by destruct (trim line).
Qed.

Lemma reconstruct_line_text (st : reconstruct_state) (seen : list str) (line : str) :
  reconstruct_text_inv st seen ->
  reconstruct_text_inv (reconstruct_line st line) (seen ++ [line]).
Proof.
  intros (Hj & He & Hh). unfold reconstruct_text_inv.
  rewrite kept_lines_snoc. unfold reconstruct_line.
  destruct (trim line) as [|x t] eqn:Et.
  { simpl. rewrite app_nil_r. done. }
  pose proof (trim_head line x t Et) as Hx.
  destruct (count_braces _ _ _) as [depth inObj].
  set (current := currentObject st
                  ++ match currentObject st with [] => [] | _ => js " " end ++ x :: t).
  assert (Hcur : exists y t', current = y :: t' /\ is_space y = false).
  { unfold current. destruct (currentObject st) as [|y c] eqn:Ec.
    - by exists x, t.
    - eexists y, _. split; [reflexivity|]. by eapply Hh. }
  assert (Hjoin : join (js " ") (reconstructed st ++ [current])
                  = join (js " ") (kept_lines seen ++ [x :: t])).
  { rewrite !join_snoc. unfold current.
    destruct (currentObject st) as [|y c] eqn:Ec; simpl nonempty_text in *.
    - rewrite app_nil_r in Hj, He. simpl.
      destruct (reconstructed st) as [|r rs] eqn:Er.
      + rewrite (proj1 He) by done. done.
      + destruct (kept_lines seen) as [|k ks] eqn:Ek; [by destruct He as [_ He]; discriminate (He eq_refl)|].
        by rewrite Hj.
    - rewrite join_snoc in Hj.
      destruct (kept_lines seen) as [|k ks] eqn:Ek.
      { destruct He as [_ He]. specialize (He eq_refl). by destruct (reconstructed st). }
      rewrite <- Hj. destruct (reconstructed st); by rewrite <- ?app_assoc. }
  assert (Hne : reconstructed st ++ [current] = [] <-> kept_lines seen ++ [x :: t] = []).
  { split; intros H; by apply app_eq_nil in H as [_ ?]. }
  destruct Hcur as (y & t' & Ecur & Hy).
  destruct (inObj && Z.eqb depth 0); simpl.
  - rewrite app_nil_r. split; [done|]. split; [done|]. done.
  - rewrite Ecur in *. simpl nonempty_text. split; [done|]. split; [done|].
    by intros ? ? [= <- _].
Qed.

Lemma reconstruct_fold_text (lines seen : list str) (st : reconstruct_state) :
  reconstruct_text_inv st seen ->
  reconstruct_text_inv (fold_left reconstruct_line lines st) (seen ++ lines).
Proof.
  revert st seen; induction lines as [|l lines IH]; intros st seen H; simpl.
  - by rewrite app_nil_r.
  - replace (seen ++ l :: lines) with ((seen ++ [l]) ++ lines) by by rewrite <- app_assoc.
    by apply IH, reconstruct_line_text.
Qed.

(** X15: [reconstructJSONObjects] loses no text and adds none: joined by
    single spaces, its pieces are the trimmed non-empty lines joined by
    single spaces. *)
Theorem reconstructJSONObjects_keeps_text :
  forall lines : list str,
    join (js " ") (reconstructJSONObjects lines) = join (js " ") (kept_lines lines).
Proof.
  intros lines. unfold reconstructJSONObjects.
  set (st := fold_left reconstruct_line lines _).
  assert (H : reconstruct_text_inv st ([] ++ lines)).
  { apply reconstruct_fold_text. by split. }
  destruct H as (Hj & _ & Hh). simpl in Hj.
  destruct (currentObject st) as [|x t] eqn:Ec.
  - simpl in *. by rewrite app_nil_r in Hj.
  - destruct (trim_nonspace x t (Hh x t eq_refl)) as [t' ->]. done.
Qed.

Lemma extracted_attributes_witness :
  (extractFunctionName invokeTagText = Some (js "read_file")
   /\ extractCallId invokeTagText = Some (js "read_file"))
  /\ (attribute_text (js "read_file")
      /\ piece_of (js "<invoke name=$" ++ js "read_file" ++ js "$") invokeTagText)
  /\ (attribute_text (js "read_file")
      /\ piece_of (js "call_id=$" ++ js "read_file" ++ js "$") invokeTagText).
Proof.
  assert (H1 : extractFunctionName invokeTagText = Some (js "read_file"))
    by (vm_compute; reflexivity).
  assert (H2 : extractCallId invokeTagText = Some (js "read_file"))
    by (vm_compute; reflexivity).
  split; [by split|]. split.
  - exact (proj1 (extracted_attributes invokeTagText (js "read_file")) H1).
  - exact (proj2 (extracted_attributes invokeTagText (js "read_file")) H2).
Defined.

(** ** The classifier and [isJSONFunctionStreaming] *)

Section Classifier.

Variable Number_toString : number -> str.

Lemma jsonLine_step_flags (st st' : JSONFunctionState) (line : str) :
  jsonLine_step Number_toString st line = Returns st' ->
  hasFunctionStart st'
  = hasFunctionStart st || line_has_type (js "function_call_start") line
  /\ hasFunctionEnd st'
     = hasFunctionEnd st || line_has_type (js "function_call_end") line.
Proof.
  unfold jsonLine_step, line_has_type.
  destruct (parseJSONLine_returns line) as [[v|] E]; rewrite E; simpl.
  - apply parseJSONLine_some in E as (props & t & -> & Eg & _ & _). simpl.
    destruct (is_string (record_get props (js "type")) (js "function_call_start")) eqn:E1.
    { destruct (toString_optional _ _) as [idText|e]; simpl; [|done].
      intros [= <-]. simpl. rewrite orb_true_r. split; [done|].
      destruct (is_string (record_get props (js "type")) (js "function_call_end")) eqn:E2;
        [|by rewrite orb_false_r].
      by pose proof (is_string_two _ _ _ E1 E2). }
    destruct (is_string (record_get props (js "type")) (js "description")) eqn:E2.
    { intros [= <-]. simpl. rewrite !orb_false_r. split; [done|].
      destruct (is_string (record_get props (js "type")) (js "function_call_end")) eqn:E3;
        [|by rewrite orb_false_r].
      by pose proof (is_string_two _ _ _ E2 E3). }
    destruct (is_string (record_get props (js "type")) (js "parameter")) eqn:E3.
    { intros [= <-]. simpl. rewrite !orb_false_r. split; [done|].
      destruct (is_string (record_get props (js "type")) (js "function_call_end")) eqn:E4;
        [|by rewrite orb_false_r].
      by pose proof (is_string_two _ _ _ E3 E4). }
    destruct (is_string (record_get props (js "type")) (js "function_call_end")) eqn:E4.
    { intros [= <-]. simpl. by rewrite orb_false_r, orb_true_r. }
    intros [= <-]. simpl. by rewrite !orb_false_r.
  - intros [= <-]. simpl. by rewrite !orb_false_r.
Qed.

Lemma jsonLine_fold_flags (lines : list str) (st st' : JSONFunctionState) :
  ofold lines (jsonLine_step Number_toString) st = Returns st' ->
  hasFunctionStart st'
  = hasFunctionStart st || existsb (line_has_type (js "function_call_start")) lines
  /\ hasFunctionEnd st'
     = hasFunctionEnd st || existsb (line_has_type (js "function_call_end")) lines.
Proof.
  revert st; induction lines as [|l lines IH]; intros st; simpl.
  - intros [= <-]. by rewrite !orb_false_r.
  - destruct (jsonLine_step Number_toString st l) as [st1|e] eqn:E1; simpl; [|done].
    intros H. apply IH in H as [-> ->].
    apply jsonLine_step_flags in E1 as [-> ->]. by rewrite !orb_assoc.
Qed.

(** X11: on a text that [containsJSONFunctionCalls] reads line by line
    (neither as the one-line format nor as pretty-printed) and in which
    it reports a function call, [isJSONFunctionStreaming] says what the
    report says: streaming is a start without an end. *)
Theorem streaming_agrees_with_classifier :
  forall (block : HTMLElement) (fi : FunctionInfo),
    containsJSONFunctionCalls Number_toString block = Returns fi ->
    hasFunctionCalls fi = true ->
    jsonLines (blockContent block) = split_lines (blockContent block) ->
    isJSONFunctionStreaming (blockContent block)
    = Returns (hasInvoke fi && negb (hasClosingTags fi)).
Proof.
  intros block fi Hc Hf Hl. unfold isJSONFunctionStreaming. rewrite streaming_fold.
  cbn [obind fst snd orb].
  unfold containsJSONFunctionCalls in Hc. rewrite Hl in Hc.
  destruct (negb _) in Hc; [by injection Hc as <-|].
  destruct (ofold _ _ _) as [st|e] eqn:Ef; simpl in Hc; [|done].
  apply jsonLine_fold_flags in Ef as [Es Ee]. simpl in Es, Ee.
  destruct (hasFunctionStart st || _) in Hc; [|by injection Hc as <-].
  injection Hc as <-. simpl. by rewrite Es, Ee.
Qed.

(** X12: [containsJSONFunctionCalls] throws through call_id only: when no
    accepted line gives an object or an array for call_id, it returns. *)
Theorem classifier_returns_on_plain_call_ids :
  forall block : HTMLElement,
    forallb plain_call_id (jsonLines (blockContent block)) = true ->
    exists fi, containsJSONFunctionCalls Number_toString block = Returns fi.
Proof.
  intros block Hp. unfold containsJSONFunctionCalls.
  destruct (negb _); [by eexists|].
  assert (H : forall lines st,
             forallb plain_call_id lines = true ->
             exists st', ofold lines (jsonLine_step Number_toString) st = Returns st').
  { induction lines as [|l lines IH]; intros st Hl; simpl; [by eexists|].
    apply andb_true_iff in Hl as [Hl Hls].
    assert (H1 : exists st1, jsonLine_step Number_toString st l = Returns st1).
    { unfold jsonLine_step. unfold plain_call_id in Hl.
      destruct (parseJSONLine_returns l) as [[v|] E]; rewrite E in *; simpl; [|by eexists].
      apply parseJSONLine_some in E as (props & t & -> & Eg & _ & _). simpl.
      destruct (is_string _ (js "function_call_start")).
      - destruct (record_get props (js "call_id")) as [[|[]| | | |]|]; simpl in *;
          try done; by eexists.
      - destruct (is_string _ (js "description")); [by eexists|].
        destruct (is_string _ (js "parameter")); [by eexists|].
        destruct (is_string _ (js "function_call_end")); by eexists. }
    destruct H1 as [st1 ->]. simpl. by apply IH. }
  destruct (H _ {| hasFunctionStart := false; hasFunctionEnd := false;
                   functionName := None; st_callId := None; st_description := None;
                   parameterCount := 0; st_lines := []; hasPartialJSON := false |} Hp)
    as [st' ->].
  simpl. destruct (_ || _); by eexists.
Qed.

End Classifier.

Lemma streaming_agrees_with_classifier_witness :
  (containsJSONFunctionCalls print_integer (blockOf 0 jsonTwoLines) = Returns twoLinesInfo
   /\ hasFunctionCalls twoLinesInfo = true
   /\ jsonLines (blockContent (blockOf 0 jsonTwoLines))
      = split_lines (blockContent (blockOf 0 jsonTwoLines)))
  /\ isJSONFunctionStreaming (blockContent (blockOf 0 jsonTwoLines)) = Returns true.
Proof.
  assert (H1 : containsJSONFunctionCalls print_integer (blockOf 0 jsonTwoLines)
               = Returns twoLinesInfo) by (vm_compute; reflexivity).
  assert (H2 : hasFunctionCalls twoLinesInfo = true) by reflexivity.
  assert (H3 : jsonLines (blockContent (blockOf 0 jsonTwoLines))
               = split_lines (blockContent (blockOf 0 jsonTwoLines)))
    by (vm_compute; reflexivity).
  split; [exact (conj H1 (conj H2 H3))|].
  exact (streaming_agrees_with_classifier print_integer (blockOf 0 jsonTwoLines)
           twoLinesInfo H1 H2 H3).
Defined.

Lemma classifier_returns_on_plain_call_ids_witness :
  forallb plain_call_id (jsonLines (blockContent (blockOf 0 jsonTwoLines))) = true
  /\ exists fi, containsJSONFunctionCalls print_integer (blockOf 0 jsonTwoLines) = Returns fi.
Proof.
  assert (H : forallb plain_call_id (jsonLines (blockContent (blockOf 0 jsonTwoLines)))
              = true) by (vm_compute; reflexivity).
  split; [exact H|].
  exact (classifier_returns_on_plain_call_ids print_integer (blockOf 0 jsonTwoLines) H).
Defined.

(** ** The test of the scan *)

Section ScanGate.

Variable Date_now : N -> N.
Variable Number_toString : number -> str.

Lemma scanBlock_other (n : nat) (ext ext' : Extension) (b : HTMLElement) :
  scanBlock Date_now Number_toString ext b = Returns ext' ->
  node b <> n \/ shows_tag b = false ->
  handed n ext' = handed n ext
  /\ (n ∈ processedElements ext' -> n ∈ processedElements ext).
Proof.
  unfold scanBlock, shows_tag. case_bool_decide as Hin; [by intros [= <-]|].
  destruct (includes _ (js "<function_calls>")), (includes _ (js "<invoke")); simpl;
    try (by intros [= <-]).
  all: destruct (parseMessage _ _ _ _) as [[[|c calls]|e] p']; try done;
    intros [= <-] [Hne|?]; try done; unfold handed; cbn [injected processedElements];
    (split; [done || exact (handed_app_other n (node b) (injected ext) (c :: calls) Hne)|]);
    try done;
    rewrite elem_of_union, elem_of_singleton; intros [?|?]; [congruence|done].
Qed.

(** X22: an element whose text shows neither the container tag nor the
    invoke tag in any snapshot is never parsed: over any sequence of
    scans it receives nothing and does not enter the ledger, also when
    its text is a complete JSON call. *)
Theorem element_without_tags_is_never_served :
  forall (snapshots : list (list HTMLElement)) (ext : Extension) (n : nat),
    Forall (Forall (fun b => node b = n -> shows_tag b = false)) snapshots ->
    exists ext',
      scans Date_now Number_toString snapshots ext = Returns ext'
      /\ handed n ext' = handed n ext
      /\ (n ∈ processedElements ext' -> n ∈ processedElements ext).
Proof.
  intros snapshots ext n.
  assert (Hscan : forall blocks e,
            Forall (fun b => node b = n -> shows_tag b = false) blocks ->
            exists e', scanForToolCalls Date_now Number_toString blocks e = Returns e'
                       /\ handed n e' = handed n e
                       /\ (n ∈ processedElements e' -> n ∈ processedElements e)).
  { unfold scanForToolCalls. induction blocks as [|b blocks IH]; intros e Hb; simpl.
    - by exists e.
    - inversion Hb as [|? ? Hb1 Hbs]; subst.
      destruct (scanBlock_effect Date_now Number_toString e b) as (e1 & E1 & _).
      rewrite E1. simpl.
      destruct (scanBlock_other n e e1 b E1) as [H1 H2].
      { destruct (decide (node b = n)) as [Heq|Hne]; [right; by apply Hb1|by left]. }
      destruct (IH e1 Hbs) as (e' & E & H3 & H4).
      exists e'. split; [done|]. split; [congruence|tauto]. }
  revert ext. unfold scans.
  induction snapshots as [|blocks snapshots IH]; intros ext Hs; simpl.
  - by exists ext.
  - inversion Hs as [|? ? Hb Hss]; subst.
    destruct (Hscan blocks ext Hb) as (e1 & -> & H1 & H2). simpl.
    destruct (IH e1 Hss) as (e' & E & H3 & H4).
    exists e'. split; [done|]. split; [congruence|tauto].
Qed.

End ScanGate.

Lemma element_without_tags_is_never_served_witness :
  Forall (Forall (fun b => node b = 0%nat -> shows_tag b = false))
    [[blockOf 0 jsonThreeLines]]
  /\ exists ext',
       scans still_clock print_integer [[blockOf 0 jsonThreeLines]] newExtension
       = Returns ext'
       /\ handed 0 ext' = handed 0 newExtension
       /\ (0%nat ∈ processedElements ext' -> 0%nat ∈ processedElements newExtension).
Proof.
  assert (H : Forall (Forall (fun b => node b = 0%nat -> shows_tag b = false))
                [[blockOf 0 jsonThreeLines]]).
  { repeat constructor. }
  split; [exact H|].
  exact (element_without_tags_is_never_served still_clock print_integer
           [[blockOf 0 jsonThreeLines]] newExtension 0%nat H).
Defined.

(** ** The later revision of the scan *)

Lemma startsWith_i_app (w p post : str) :
  Forall2 (fun x y => fold_case x = fold_case y) w p ->
  startsWith_i (w ++ post) p = true.
Proof.
  intros H. induction H as [|x y w p Hxy _ IH]; simpl; [by destruct post|].
  unfold char_eqb. by rewrite Hxy, N.eqb_refl.
Qed.

Lemma includes_i_here (s p : str) : startsWith_i s p = true -> includes_i s p = true.
Proof. intros H. destruct s; cbn [includes_i]; by rewrite H. Qed.

Lemma includes_i_piece (pre w post p : str) :
  Forall2 (fun x y => fold_case x = fold_case y) w p ->
  includes_i (pre ++ w ++ post) p = true.
Proof.
  intros H. induction pre as [|x pre IH].
  - apply includes_i_here. exact (startsWith_i_app w p post H).
  - change ((x :: pre) ++ w ++ post) with (x :: (pre ++ w ++ post)).
    cbn [includes_i]. rewrite IH. apply orb_true_r.
Qed.

(** X23: [cleanCodeBlockText] of the later revision only trims a text
    that begins with an opening angle bracket and nowhere holds the
    words Copy code, in any case of the letters. *)
Theorem cleanCodeBlockText_keeps_plain_payload :
  forall text : str,
    startsWith text (js "<") = true ->
    includes_i text (js "Copy code") = false ->
    cleanCodeBlockText text = trim text.
Proof.
  intros text [t Hs]%startsWith_spec Hn. unfold cleanCodeBlockText.
  rewrite (replace_first_none blockTagRegex).
  2: { apply (anchored_none _ _ _ _ (starts_with_alternatives 1 blockTags ltac:(done) eq_refl)).
       rewrite Hs. simpl. by vm_compute. }
  rewrite replace_all_none; [done|].
  apply matchAll_nil. intros m Hm.
  apply matchAll_sound in Hm as (pre & rest & Es & Hm).
  destruct m as [mi me mt mc]. cbn [m_text m_caps] in *.
  unfold copyCodeRegex in Hm.
  apply seq_cons_inv in Hm as (w & s2 & c1 & -> & Hw & _).
  apply lit_i_inv in Hw as [_ Hw].
  rewrite Es, <- app_assoc, includes_i_piece in Hn by done. done.
Qed.

Lemma cleanCodeBlockText_keeps_plain_payload_witness :
  (startsWith xmlComplete (js "<") = true
   /\ includes_i xmlComplete (js "Copy code") = false)
  /\ cleanCodeBlockText xmlComplete = trim xmlComplete.
Proof.
  assert (H1 : startsWith xmlComplete (js "<") = true) by reflexivity.
  assert (H2 : includes_i xmlComplete (js "Copy code") = false) by (vm_compute; reflexivity).
  split; [exact (conj H1 H2)|].
  exact (cleanCodeBlockText_keeps_plain_payload xmlComplete H1 H2).
Defined.

Section LaterScanFacts.

Variable Date_now : N -> N.
Variable Number_toString : number -> str.

Lemma served_once_refl (a : Extension) : served_once a a.
Proof. split; [done|]. split; [done|]. intros n H. by destruct H. Qed.

Lemma scanPre_step (a b : Extension) (blk : PreElement) :
  served_once a b ->
  exists c,
    scanPre Date_now Number_toString b blk = Returns c
    /\ served_once a c
    /\ (injected c = injected b
        \/ (pre_node blk ∈ processedElements c
            /\ forall k, pre_code blk = Some k -> k ∈ processedElements c)).
Proof.
  intros (Hsub & Hold & Hnew). unfold scanPre.
  case_bool_decide as Hin.
  { exists b. split; [done|]. split; [by repeat split|by left]. }
  destruct (negb _ && negb _).
  { exists b. split; [done|]. split; [by repeat split|by left]. }
  destruct (safe_parseMessage Date_now Number_toString
              (cleanCodeBlockText (default [] (pre_textContent blk))) (parser b))
    as (calls & p' & -> & _).
  destruct calls as [|c0 calls].
  - eexists. split; [reflexivity|]. split; [by repeat split|by left].
  - eexists. split; [reflexivity|]. cbn [injected processedElements parser].
    assert (Hnode : pre_node blk ∈
              match pre_code blk with Some codeChild => {[codeChild]} | None => ∅ end
              ∪ ({[pre_node blk]} ∪ processedElements b)).
    { apply elem_of_union_r, elem_of_union_l. by apply elem_of_singleton. }
    split; [|right; split; [exact Hnode|]].
    + unfold served_once, handed. cbn [injected processedElements].
      split; [|split].
      * intros n Hn. by apply elem_of_union_r, elem_of_union_r, Hsub.
      * intros n Hn. assert (Hne : pre_node blk <> n).
        { intros <-. apply Hin. by apply Hsub. }
        rewrite (handed_app_other n (pre_node blk) (injected b) (c0 :: calls) Hne).
        by apply Hold.
      * intros n Hn. destruct (decide (pre_node blk = n)) as [<-|Hne]; [exact Hnode|].
        rewrite (handed_app_other n (pre_node blk) (injected b) (c0 :: calls) Hne) in Hn.
        by apply elem_of_union_r, elem_of_union_r, Hnew.
    + intros k ->. by apply elem_of_union_l, elem_of_singleton.
Qed.

(** X24: the scan of the later revision, over the [pre] elements: every
    sequence of scans returns, the ledger only grows, an element that is
    in the ledger receives nothing more, and every element that has
    received something is in the ledger; a scan of one element hands
    nothing over, or else it puts the element and the first [code]
    element below it into the ledger. *)
Theorem later_scan_serves_once :
  (forall (snapshots : list (list PreElement)) (ext : Extension),
    exists ext',
      scans_pre Date_now Number_toString snapshots ext = Returns ext'
      /\ served_once ext ext')
  /\ (forall (ext : Extension) (blk : PreElement),
       exists ext',
         scanPre Date_now Number_toString ext blk = Returns ext'
         /\ (injected ext' = injected ext
             \/ (pre_node blk ∈ processedElements ext'
                 /\ match pre_code blk with
                    | Some k => k ∈ processedElements ext'
                    | None => True
                    end))).
Proof.
  split.
  - assert (Hscan : forall blocks a b, served_once a b ->
              exists c, scanForToolCalls_pre Date_now Number_toString blocks b = Returns c
                        /\ served_once a c).
    { unfold scanForToolCalls_pre. induction blocks as [|blk blocks IH]; intros a b Hab; simpl.
      - by exists b.
      - destruct (scanPre_step a b blk Hab) as (c & -> & Hac & _). simpl. by apply IH. }
    assert (Hall : forall snapshots a b, served_once a b ->
              exists c, scans_pre Date_now Number_toString snapshots b = Returns c
                        /\ served_once a c).
    { unfold scans_pre. induction snapshots as [|blocks snapshots IH]; intros a b Hab; simpl.
      - by exists b.
      - destruct (Hscan blocks a b Hab) as (c & -> & Hac). simpl. by apply IH. }
    intros snapshots ext. apply Hall, served_once_refl.
  - intros ext blk.
    destruct (scanPre_step ext ext blk (served_once_refl ext)) as (c & E & _ & H).
    exists c. split; [done|].
    destruct H as [Heq|[H1 H2]]; [by left|right]. split; [done|].
    destruct (pre_code blk) as [k|]; [by apply H2|done].
Qed.

End LaterScanFacts.

(** ** The report of [containsFunctionCalls] *)

Section Report.

Variable Number_toString : number -> str.
Variable extractLanguageTag : str -> LanguageTagResult.

Lemma invokeTag_match (content : str) (m : rmatch_result) :
  exec invokeTagRegex content = Some m ->
  attribute_text (group m 1)
  /\ (group m 2 = [] \/ attribute_text (group m 2)).
Proof.
  intros Hm. apply exec_sound in Hm as (pre & rest & Es & Hm & _).
  destruct m as [mi me mt mc]. rewrite !group_cap. cbn [m_caps m_text] in *.
  unfold invokeTagRegex in Hm. repeat rx_step.
  match goal with H : rmatches _ (opt _) _ _ _ _ |- _ =>
    apply opt_inv in H as [H|[-> ->]] end; rx_inv; caps_simpl.
  - split; [by split|]. right. by split.
  - split; [by split|]. left. by rewrite cap_nil.
Qed.

Lemma json_report_coherent (block : HTMLElement) (r : FunctionInfo) :
  containsJSONFunctionCalls Number_toString block = Returns r ->
  (hasFunctionCalls r = true -> detectedBlockType r = Some (js "json"))
  /\ (isComplete r = true -> hasClosingTags r = true)
  /\ (hasFunctionCalls r = false -> r = emptyFunctionInfo).
Proof.
  unfold containsJSONFunctionCalls.
  destruct (negb _); [by intros [= <-]|].
  destruct (ofold _ _ _) as [st|e]; simpl; [|done].
  destruct (_ || _); intros [= <-]; simpl; [|done].
  split; [done|]. split; [|done]. by intros [_ ?]%andb_true_iff.
Qed.

(** X19: the report of [containsFunctionCalls] is coherent, whichever
    branch made it and whatever the language normalizer returns: a block
    type is reported exactly when function calls are; a complete report
    has function calls and closing tags; a report without function calls
    has no invocation, no parameters, no name and no call id; and the
    name and the call id of an XML report are non-empty texts without a
    double quote. *)
Theorem classifier_report_is_coherent :
  forall (block : HTMLElement) (fi : FunctionInfo),
    containsFunctionCalls Number_toString extractLanguageTag block = Returns fi ->
    coherent_report fi.
Proof.
  intros block fi. unfold containsFunctionCalls.
  destruct (containsJSONFunctionCalls Number_toString block) as [r|e] eqn:Hj;
    simpl; [|done].
  apply json_report_coherent in Hj as (Hj1 & Hj2 & Hj3).
  destruct (hasFunctionCalls r) eqn:Hr.
  - destruct (extractJSONFunctionInfo _ _) as [info|e]; simpl; [|done].
    intros [= <-]. unfold coherent_report; simpl. rewrite Hj1 by done.
    split; [by split|]. split; [by auto|]. split; [done|]. done.
  - clear Hj1 Hj2 Hj3.
    destruct (negb _ && negb _ && negb _ && negb _ && negb _).
    { intros [= <-]. unfold coherent_report; simpl. split; [by split|]. done. }
    destruct (_ || _) eqn:Hany.
    + intros [= <-]. unfold coherent_report; simpl.
      split; [by split|]. split; [by auto|]. split; [done|]. intros _.
      split; [done|].
      destruct (includes _ (js "<invoke")); [|done].
      destruct (exec invokeTagRegex _) as [m|] eqn:Em; [|done].
      apply invokeTag_match in Em as [H1 H2].
      split; [by eexists|]. destruct (group m 2) eqn:E2; [done|].
      by destruct H2.
    + intros [= <-]. unfold coherent_report; simpl. split; [by split|]. done.
Qed.

End Report.

Lemma classifier_report_is_coherent_witness :
  containsFunctionCalls print_integer noLanguageTag (blockOf 0 xmlComplete)
  = Returns xmlCompleteInfo
  /\ coherent_report xmlCompleteInfo.
Proof.
  assert (H : containsFunctionCalls print_integer noLanguageTag (blockOf 0 xmlComplete)
              = Returns xmlCompleteInfo) by (vm_compute; reflexivity).
  split; [exact H|].
  exact (classifier_report_is_coherent print_integer noLanguageTag
           (blockOf 0 xmlComplete) xmlCompleteInfo H).
Defined.
